(** * Image-lifecycle cleanup and SEO metadata synchronisation

    A shallow embedding of

    - [config/imageConfig.js]            (the path descriptor registry),
    - [services/imageService.js]         (the remote asset deletion gateway),
    - [middlewares/cleanupImages.js]     (full cleanup),
    - [middlewares/cleanupOldImages.js]  (differential cleanup),
    - [utils/seoSync.js] and [models/seo/seo-manager.js]
                                         (the slug-keyed metadata synchroniser),

    followed by the properties established about them. *)

From Stdlib Require Import List String Ascii Bool Arith ZArith Lia.
From Stdlib Require Import DecimalString.
Import ListNotations.
Open Scope string_scope.

Set Warnings "-register-all".

(* ===================================================================== *)
(** * JavaScript values and the string primitives the code relies on      *)
(* ===================================================================== *)

Module Js.

(** Documents are what [record.toObject()] and [req.body] hold: trees of
    JSON-like data.  Numbers are only ever tested for truthiness and
    compared with [!==], so integers stand for them.  A string is the
    sequence of its code units.  An object is the list of its own
    properties; the first binding of a key is the one that counts. *)
Inductive JsVal : Type :=
| JUndefined
| JNull
| JBool (b : bool)
| JNum (n : Z)
| JStr (s : string)
| JArr (xs : list JsVal)
| JObj (fields : list (string * JsVal)).

(** A property read can also reach what every object inherits: a built-in
    method (a function) or a prototype object.  [PObject] is
    [Object.prototype], [PArray] is [Array.prototype]. *)
Inductive Proto : Type := PObject | PArray.

Inductive JsRef : Type :=
| AVal (v : JsVal)
| AFun
| AProto (p : Proto).

(** [!!v] *)
Definition truthy (v : JsVal) : bool :=
  match v with
  | JUndefined | JNull => false
  | JBool b => b
  | JNum n => negb (n =? 0)%Z
  | JStr s => negb (s =? "")
  | JArr _ | JObj _ => true
  end.

(** [typeof v === 'object'] (true of [null] as well, as in JavaScript). *)
Definition typeof_object (v : JsVal) : bool :=
  match v with
  | JNull | JArr _ | JObj _ => true
  | _ => false
  end.

(** [a === b] between a value of the stored document and a value of the
    incoming one.  Primitives compare by value; arrays and objects compare
    by identity, and the two documents never share a node. *)
Definition strict_eq (a b : JsVal) : bool :=
  match a, b with
  | JUndefined, JUndefined => true
  | JNull, JNull => true
  | JBool x, JBool y => Bool.eqb x y
  | JNum x, JNum y => (x =? y)%Z
  | JStr x, JStr y => (x =? y)
  | _, _ => false
  end.

(** [s !== r] for a string [s] of the stored document and whatever a path
    resolved to in the incoming one. *)
Definition str_differs (s : string) (r : JsRef) : bool :=
  match r with
  | AVal (JStr t) => negb (s =? t)
  | _ => true
  end.

(** ** Strings *)

(** [s.includes(sep)] *)
Definition includes (sep s : string) : bool :=
  match index 0 sep s with Some _ => true | None => false end.

(** [s.split(sep)] for a non-empty separator: [cur] is the piece being
    read, [skip] counts the characters of a separator still to pass. *)
Fixpoint split_from (sep : string) (skip : nat) (cur s : string) : list string :=
  match s with
  | EmptyString => [cur]
  | String c s' =>
      match skip with
      | S k => split_from sep k cur s'
      | O =>
          if prefix sep s
          then cur :: split_from sep (String.length sep - 1) "" s'
          else split_from sep 0 (cur ++ String c "") s'
      end
  end.

Definition split (sep s : string) : list string := split_from sep 0 "" s.

(** [s.endsWith(".")] *)
Fixpoint endsWithDot (s : string) : bool :=
  match s with
  | EmptyString => false
  | String c EmptyString => Ascii.eqb c "."
  | String _ s' => endsWithDot s'
  end.

(** [s.slice(0, -1)] *)
Fixpoint dropLast (s : string) : string :=
  match s with
  | EmptyString => EmptyString
  | String _ EmptyString => EmptyString
  | String c s' => String c (dropLast s')
  end.

(** [s.slice(1)] *)
Definition slice1 (s : string) : string :=
  match s with
  | EmptyString => EmptyString
  | String _ s' => s'
  end.

(** [String(i)] for an array index. *)
Definition decimal (i : nat) : string := NilZero.string_of_uint (Nat.to_uint i).

(** ** Property access *)

Fixpoint assoc {A : Type} (key : string) (fields : list (string * A)) : option A :=
  match fields with
  | [] => None
  | (k, v) :: rest => if k =? key then Some v else assoc key rest
  end.

(** The own property of an array named [key]: an element when [key] is the
    canonical spelling of an index below the length, or [length]. *)
Fixpoint array_index_named (key : string) (i : nat) (xs : list JsVal) : option JsVal :=
  match xs with
  | [] => None
  | x :: rest => if decimal i =? key then Some x else array_index_named key (S i) rest
  end.

Definition array_own (key : string) (xs : list JsVal) : option JsVal :=
  if key =? "length" then Some (JNum (Z.of_nat (List.length xs)))
  else array_index_named key 0 xs.

(** String-keyed methods of [Object.prototype]. *)
Definition objectPrototypeMethods : list string :=
  [ "constructor"; "hasOwnProperty"; "isPrototypeOf"; "propertyIsEnumerable";
    "toLocaleString"; "toString"; "valueOf";
    "__defineGetter__"; "__defineSetter__"; "__lookupGetter__"; "__lookupSetter__" ].

(** String-keyed methods of [Array.prototype] (ECMAScript 2023). *)
Definition arrayPrototypeMethods : list string :=
  [ "at"; "concat"; "copyWithin"; "entries"; "every"; "fill"; "filter"; "find";
    "findIndex"; "findLast"; "findLastIndex"; "flat"; "flatMap"; "forEach";
    "includes"; "indexOf"; "join"; "keys"; "lastIndexOf"; "map"; "pop"; "push";
    "reduce"; "reduceRight"; "reverse"; "shift"; "slice"; "some"; "sort";
    "splice"; "toReversed"; "toSorted"; "toSpliced"; "unshift"; "values"; "with" ].

Definition mem (key : string) (keys : list string) : bool :=
  existsb (String.eqb key) keys.

(** Every name an ordinary object answers to without owning it: the names
    for which [key in {}] holds. *)
Definition objectPrototypeKeys : list string := "__proto__" :: objectPrototypeMethods.

(** [p[key]] for a prototype object [p], [undefined] when [key in p] fails. *)
Definition protoGet (p : Proto) (key : string) : JsRef :=
  match p with
  | PObject =>
      if key =? "__proto__" then AVal JNull
      else if mem key objectPrototypeMethods then AFun
      else AVal JUndefined
  | PArray =>
      if key =? "__proto__" then AProto PObject
      else if key =? "length" then AVal (JNum 0)
      else if mem key arrayPrototypeMethods || mem key objectPrototypeMethods then AFun
      else AVal JUndefined
  end.

(** The reducer of [getNestedValue]:
    [(acc && typeof acc === 'object' && key in acc) ? acc[key] : undefined]. *)
Definition getKey (acc : JsRef) (key : string) : JsRef :=
  match acc with
  | AVal (JObj fields) =>
      match assoc key fields with
      | Some v => AVal v
      | None => if key =? "__proto__" then AProto PObject else protoGet PObject key
      end
  | AVal (JArr xs) =>
      match array_own key xs with
      | Some v => AVal v
      | None => if key =? "__proto__" then AProto PArray else protoGet PArray key
      end
  | AProto p => protoGet p key
  | AVal _ | AFun => AVal JUndefined
  end.

(** [function getNestedValue(obj, path)] (the same text in both
    middlewares). *)
Definition getNestedValue (obj : JsVal) (path : string) : JsRef :=
  if negb (truthy obj) || (path =? "") then AVal JUndefined
  else fold_left getKey (split "." path) (AVal obj).

(** [a?.[i]] *)
Definition js_index (a : JsRef) (i : nat) : JsVal :=
  match a with
  | AVal (JArr xs) => nth i xs JUndefined
  | AVal (JStr s) =>
      match get i s with
      | Some c => JStr (String c "")
      | None => JUndefined
      end
  | AVal (JObj fields) =>
      match assoc (decimal i) fields with
      | Some v => v
      | None => JUndefined
      end
  | _ => JUndefined
  end.

(** [Array.isArray(a)], with the elements of [a].  [Array.prototype] is an
    array too, an empty one. *)
Definition as_array (a : JsRef) : option (list JsVal) :=
  match a with
  | AVal (JArr xs) => Some xs
  | AProto PArray => Some []
  | _ => None
  end.

(** ** Object literals used as tables *)

(** What [literal[key]] gives on an object literal: an own property,
    something inherited from [Object.prototype] (a function, or the
    prototype itself for [__proto__]: truthy, and not iterable), or
    [undefined]. *)
Inductive Lookup (A : Type) : Type :=
| Own (a : A)
| Inherited
| Missing.
Arguments Own {A} a.
Arguments Inherited {A}.
Arguments Missing {A}.

Definition lookup {A : Type} (literal : list (string * A)) (key : string) : Lookup A :=
  match assoc key literal with
  | Some a => Own a
  | None => if mem key objectPrototypeKeys then Inherited else Missing
  end.

End Js.
Import Js.

(* ===================================================================== *)
(** * Completions: returning, throwing, and [try]/[catch]                 *)
(* ===================================================================== *)

Module Eff.

(** What a [throw] carries. *)
Inductive Exn : Type :=
| TypeError (message : string)
| Error (message : string)
| ValidationError (path : string)
| DuplicateKey (slug : string)
| StoreError (message : string).

Inductive Completion (A : Type) : Type :=
| Returned (a : A)
| Thrown (e : Exn).
Arguments Returned {A} a.
Arguments Thrown {A} e.

(** A computation over a state of type [S]: what was done to the state
    before a [throw] stays done. *)
Definition M (S A : Type) : Type := S -> Completion A * S.

Definition ret {S A : Type} (a : A) : M S A := fun s => (Returned a, s).

Definition throw {S A : Type} (e : Exn) : M S A := fun s => (Thrown e, s).

Definition bind {S A B : Type} (c : M S A) (k : A -> M S B) : M S B :=
  fun s =>
    match c s with
    | (Returned a, s') => k a s'
    | (Thrown e, s') => (Thrown e, s')
    end.

(** [try { body } catch (err) { handler }] *)
Definition try_catch {S A : Type} (body : M S A) (handler : Exn -> M S A) : M S A :=
  fun s =>
    match body s with
    | (Returned a, s') => (Returned a, s')
    | (Thrown e, s') => handler e s'
    end.

Definition modify {S : Type} (f : S -> S) : M S unit := fun s => (Returned tt, f s).


End Eff.
Import Eff.

Notation "x <- c1 ;; c2" := (bind c1 (fun x => c2))
  (at level 61, c1 at next level, right associativity).
Notation "c1 ;; c2" := (bind c1 (fun _ => c2))
  (at level 61, right associativity).

(* ===================================================================== *)
(** * config/imageConfig.js                                               *)
(* ===================================================================== *)

Module ImageConfig.

(** The own properties of the exported object, in source order. *)
Definition table : list (string * list string) :=
  [ ("Testimonial", ["image"]);
    ("ExpertiseIndustry", ["image"]);
    ("EngagementModel", ["modelImage"]);
    ("SeoManager", ["cover_image"]);
    ("CreativeWork", ["image"]);
    ("ServiceTechnologyList", ["image"]);
    ("OurServicesMain",
       [ "heroSections.image";
         "heroSections.points[].image";
         "technologyDetails.image";
         "technologyDetails.technologyDetail[].image";
         "technologyDetails.developmentDetail[].image" ]);
    ("Service",
       [ "contentBlocks[].image";
         "WhyWorkWithThis.image";
         "whyCompanyPerfersThis.content[].image" ]);
    ("HomeChooseIts", ["image"]);
    ("HirePageData",
       [ "successSpeacks.image";
         "hireDadiated.image";
         "unloackPower.image" ]);
    ("OpenningPosition", ["image"]);
    ("CareerContent",
       [ "heroSection.image";
         "careerAtIts.image";
         "whyJoinIts.points[].image" ]);
    ("Blog", ["image"; "cover_image"]);
    ("AboutUs",
       [ "heroSection.points[].image";
         "whoWeAre.image";
         "goals.missionImage";
         "goals.visionImage";
         "goals.valuesImage" ]);
    ("NavbarGroupTabImageManage", ["image"]);
    ("User", ["profile_picture"]);
    ("HireMainPageData",
       [ "developmentTeamSection.image";
         "dedicatedDeveloperSection.services[].serviceItemBox[].image";
         "whyHireDeveloperforYourProject.detailBox[].image";
         "whyChooseItsForDedicatedResources.detailBox[].image" ]);
    ("PortfolioContent",
       [ "heroSection.image";
         "heroSection.points[].image" ]);
    ("TrainingMainPageData",
       [ "heroSection.image";
         "aboutusSection.image";
         "itsInstituteFacilitiesSection.points[].image";
         "rightCoursePickSection.cardBox[].image";
         "rightCoursePickSection.detailbox[].image" ]);
    ("HomePageData",
       [ "heroSecton.image";
         "heroSecton.technologySection[].image";
         "reasonsToChoose.deatailBox[].image";
         "aboutOurCompany.deatailBox[].image";
         "aboutOurCompany.image";
         "aboutOurCompany.buttonContent.image";
         "overseasWebAgencies.image" ]) ].

(** [imageConfig[modelName]] *)
Definition imageConfig (modelName : string) : Lookup (list string) :=
  lookup table modelName.

(** The record-type names of the registry. *)
Definition registered (modelName : string) : bool :=
  mem modelName (map fst table).

(** [const paths = imageConfig[modelName] || []] followed by
    [for (const path of paths)]: the paths the loop visits, or the
    [TypeError] of iterating a value that is not iterable. *)
Definition pathsOf (modelName : string) : Completion (list string) :=
  match imageConfig modelName with
  | Own paths => Returned paths
  | Missing => Returned []
  | Inherited => Thrown (TypeError "paths is not iterable")
  end.

End ImageConfig.
Import ImageConfig.

(* ===================================================================== *)
(** * services/imageService.js                                            *)
(* ===================================================================== *)

Module ImageService.

Inductive Level : Type := info | warning | error.

(** What the gateway does to the outside: a call of
    [cloudinary.uploader.destroy], or a line on the console. *)
Inductive Event : Type :=
| Destroy (publicId : string)
| Console (level : Level) (text : string).

(** How [cloudinary.uploader.destroy] settles: with an answer whose
    [result] field is given, or with an error object. *)
Inductive DestroyOutcome : Type :=
| Resolved (result : string)
| Rejected (message : string).

Section Gateway.

(** The remote service: how the call settles may depend on everything
    that has happened before. *)
Variable cloudinary : list Event -> string -> DestroyOutcome.

Definition console (level : Level) (text : string) : M (list Event) unit :=
  modify (fun trace => (trace ++ [Console level text])%list).

(** [await cloudinary.uploader.destroy(publicId)] *)
Definition destroy (publicId : string) : M (list Event) string :=
  fun trace =>
    match cloudinary trace publicId with
    | Resolved result => (Returned result, (trace ++ [Destroy publicId])%list)
    | Rejected message => (Thrown (Error message), (trace ++ [Destroy publicId])%list)
    end.

(** [function extractPublicId(url)]: only a string has a [split]. *)
Definition extractPublicId (url : JsVal) : M (list Event) (option string) :=
  if negb (truthy url) then ret None
  else
    try_catch
      (match url with
       | JStr s =>
           let parts := split "/" s in
           let publicIdWithExt := last parts "" in
           ret (Some (hd "" (split "." publicIdWithExt)))
       | _ => throw (TypeError "url.split is not a function")
       end)
      (fun _ => console error "Failed to extract publicId" ;; ret None).

(** [async function deleteImage(imageUrl)] *)
Definition deleteImage (imageUrl : JsVal) : M (list Event) unit :=
  if negb (truthy imageUrl) then ret tt
  else
    publicId <- extractPublicId imageUrl ;;
    match publicId with
    | None => ret tt
    | Some id =>
        if id =? "" then ret tt
        else
          try_catch
            (result <- destroy id ;;
             if result =? "ok" then console info "Successfully deleted"
             else if result =? "not found" then console warning "Image not found on Cloudinary"
             else console error "Failed to delete")
            (fun _ => console error "Error deleting image")
    end.

(** [async function deleteImages(imageUrls = [])] *)
Fixpoint deleteImages (imageUrls : list JsVal) : M (list Event) unit :=
  match imageUrls with
  | [] => ret tt
  | url :: rest => deleteImage url ;; deleteImages rest
  end.

End Gateway.

(** The identifiers whose deletion a trace asked for. *)
Definition destroyed (trace : list Event) : list string :=
  flat_map (fun e => match e with Destroy id => [id] | Console _ _ => [] end) trace.

End ImageService.
Import ImageService.

(* ===================================================================== *)
(** * The path language shared by both middlewares                        *)
(* ===================================================================== *)

Module PathLanguage.

(** [const parts = path.split('[]');
     const arrayPath = parts[0].endsWith('.') ? parts[0].slice(0, -1) : parts[0];] *)
Definition arrayPathOf (path : string) : string :=
  let parts := split "[]" path in
  let first := nth 0 parts "" in
  if endsWithDot first then dropLast first else first.

(** [const remainingPath = parts[1] ? parts[1].slice(1) : '';] *)
Definition remainingPathOf (path : string) : string :=
  let parts := split "[]" path in
  match nth_error parts 1 with
  | Some second => if second =? "" then "" else slice1 second
  | None => ""
  end.

Definition is_string (v : JsVal) : bool :=
  match v with
  | JStr _ => true
  | _ => false
  end.

(** Sequencing of steps that may run out of fuel. *)
Definition andThen (first : option (list JsVal)) (next : option (list JsVal))
  : option (list JsVal) :=
  match first, next with
  | Some a, Some b => Some (a ++ b)%list
  | _, _ => None
  end.

Definition orEmpty (r : option (list JsVal)) : list JsVal :=
  match r with
  | Some l => l
  | None => []
  end.

(** Each path gets more fuel than it has characters; the remaining path
    of a path is shorter than the path. *)
Definition fuelFor (path : string) : nat := S (String.length path).

End PathLanguage.
Import PathLanguage.

(* ===================================================================== *)
(** * middlewares/cleanupImages.js: full cleanup                          *)
(* ===================================================================== *)

(** Every function of the two middlewares returns the arguments of the
    [deleteImage] calls it makes, in the order it makes them. *)

Module CleanupImages.

(** [async function handleSimplePath(obj, path)] *)
Definition handleSimplePath (obj : JsVal) (path : string) : list JsVal :=
  match getNestedValue obj path with
  | AVal (JStr s) => [JStr s]
  | value =>
      match as_array value with
      | Some items => filter is_string items
      | None => []
      end
  end.

(** The loop of [handleArrayPath]; [recur] is [deleteImagesByPath]. *)
Fixpoint forEachItem (recur : JsVal -> string -> option (list JsVal))
    (remainingPath : string) (items : list JsVal) : option (list JsVal) :=
  match items with
  | [] => Some []
  | item :: rest =>
      andThen
        (if negb (remainingPath =? "") then recur item remainingPath
         else if is_string item then Some [item] else Some [])
        (forEachItem recur remainingPath rest)
  end.

(** [async function handleArrayPath(obj, path)] *)
Definition handleArrayPath (recur : JsVal -> string -> option (list JsVal))
    (obj : JsVal) (path : string) : option (list JsVal) :=
  let arrayPath := arrayPathOf path in
  let remainingPath := remainingPathOf path in
  let arrayObj := getNestedValue obj arrayPath in
  match as_array arrayObj with
  | Some items => forEachItem recur remainingPath items
  | None => Some []
  end.

(** [async function deleteImagesByPath(obj, path)], [None] when the fuel
    runs out. *)
Fixpoint deleteImagesByPath_fuel (fuel : nat) (obj : JsVal) (path : string)
  : option (list JsVal) :=
  match fuel with
  | O => None
  | S fuel' =>
      if negb (truthy obj) || (path =? "") then Some []
      else if includes "[]" path
           then handleArrayPath (deleteImagesByPath_fuel fuel') obj path
           else Some (handleSimplePath obj path)
  end.

Definition deleteImagesByPath (obj : JsVal) (path : string) : list JsVal :=
  orEmpty (deleteImagesByPath_fuel (fuelFor path) obj path).

(** [async function deleteImagesByConfig(record, modelName)] *)
Definition deleteImagesByConfig (record : JsVal) (modelName : string)
  : Completion (list JsVal) :=
  if negb (truthy record) then Returned []
  else
    match pathsOf modelName with
    | Returned paths => Returned (flat_map (deleteImagesByPath record) paths)
    | Thrown e => Thrown e
    end.

(** How a middleware ends: with a response of its own, or by handing the
    request on. *)
Inductive Response : Type :=
| Status404
| Status500
| CallNext.

(** [function cleanupImages(model)], given how [model.findById] settled
    and what [record.toObject()] is; [modelName] is [model.modelName]. *)
Definition cleanupImages (modelName : string) (found : Completion (option JsVal))
  : list JsVal * Response :=
  match found with
  | Thrown _ => ([], Status500)
  | Returned None => ([], Status404)
  | Returned (Some record) =>
      match deleteImagesByConfig record modelName with
      | Returned marked => (marked, CallNext)
      | Thrown _ => ([], Status500)
      end
  end.

End CleanupImages.

(* ===================================================================== *)
(** * middlewares/cleanupOldImages.js: differential cleanup               *)
(* ===================================================================== *)

Module CleanupOldImages.

Import CleanupImages.

(** The loop over an array of images, written twice in the source (in
    [compareArrayPath] for [images[]] and in [compareSimplePath]):
    [if (oldImage && oldImage !== newImage) await deleteImage(oldImage)]. *)
Fixpoint compareImages (newArray : JsRef) (i : nat) (oldArray : list JsVal)
  : list JsVal :=
  match oldArray with
  | [] => []
  | oldImage :: rest =>
      let newImage := js_index newArray i in
      ((if truthy oldImage && negb (strict_eq oldImage newImage)
        then [oldImage] else [])
       ++ compareImages newArray (S i) rest)%list
  end.

(** [async function compareSimplePath(oldObj, newObj, path)] *)
Definition compareSimplePath (oldObj newObj : JsVal) (path : string) : list JsVal :=
  let oldValue := getNestedValue oldObj path in
  let newValue := getNestedValue newObj path in
  match oldValue with
  | AVal (JStr s) => if str_differs s newValue then [JStr s] else []
  | _ =>
      match as_array oldValue with
      | Some oldArray => compareImages newValue 0 oldArray
      | None => []
      end
  end.

(** The loop of [compareArrayPath] over an array of objects; [recur] is
    [compareAndDeleteByPath]. *)
Fixpoint compareItems (recur : JsVal -> JsVal -> string -> option (list JsVal))
    (remainingPath : string) (newArray : JsRef) (i : nat) (oldArray : list JsVal)
  : option (list JsVal) :=
  match oldArray with
  | [] => Some []
  | oldItem :: rest =>
      let newItem := js_index newArray i in
      andThen
        (if truthy oldItem && typeof_object oldItem
         then recur oldItem newItem remainingPath
         else Some [])
        (compareItems recur remainingPath newArray (S i) rest)
  end.

(** [async function compareArrayPath(oldObj, newObj, path)] *)
Definition compareArrayPath (recur : JsVal -> JsVal -> string -> option (list JsVal))
    (oldObj newObj : JsVal) (path : string) : option (list JsVal) :=
  let arrayPath := arrayPathOf path in
  let remainingPath := remainingPathOf path in
  let oldArray := getNestedValue oldObj arrayPath in
  let newArray := getNestedValue newObj arrayPath in
  match as_array oldArray with
  | None => Some []
  | Some olds =>
      if remainingPath =? "" then Some (compareImages newArray 0 olds)
      else compareItems recur remainingPath newArray 0 olds
  end.

(** [async function compareAndDeleteByPath(oldObj, newObj, path)], [None]
    when the fuel runs out. *)
Fixpoint compareAndDeleteByPath_fuel (fuel : nat) (oldObj newObj : JsVal)
    (path : string) : option (list JsVal) :=
  match fuel with
  | O => None
  | S fuel' =>
      if negb (truthy oldObj) then Some []
      else if includes "[]" path
           then compareArrayPath (compareAndDeleteByPath_fuel fuel') oldObj newObj path
           else Some (compareSimplePath oldObj newObj path)
  end.

Definition compareAndDeleteByPath (oldObj newObj : JsVal) (path : string)
  : list JsVal :=
  orEmpty (compareAndDeleteByPath_fuel (fuelFor path) oldObj newObj path).

(** [function cleanupOldImages(model, modelName)], given how
    [model.findById] settled, what [record.toObject()] is, and [req.body]. *)
Definition cleanupOldImages (modelName : string) (found : Completion (option JsVal))
    (body : JsVal) : list JsVal * Response :=
  match found with
  | Thrown _ => ([], Status500)
  | Returned None => ([], Status404)
  | Returned (Some oldData) =>
      match pathsOf modelName with
      | Returned paths =>
          (flat_map (compareAndDeleteByPath oldData body) paths, CallNext)
      | Thrown _ => ([], Status500)
      end
  end.

End CleanupOldImages.

(* ===================================================================== *)
(** * models/seo/seo-manager.js and utils/seoSync.js                      *)
(* ===================================================================== *)

Module SeoSync.

Definition ObjectId : Type := nat.

(** A document of the [SeoManager] collection, with the paths of
    [seoManagerSchema].  [None] is [null]. *)
Record SeoManager : Type := mkSeo {
  _id : ObjectId;
  title : option string;
  slug : string;
  seo_keyphrase : option string;
  seo_title : option string;
  meta_description : string;
  cover_image : string;
  linkedService : option ObjectId;
  linkedHirePage : option ObjectId;
  linkedType : string;
  isAutoManaged : bool
}.

(** The two schema paths that [linkFieldMap] names. *)
Inductive LinkField : Type := linkedServiceField | linkedHirePageField.

(** [const linkFieldMap = { service: 'linkedService', hire: 'linkedHirePage' }] *)
Definition linkFieldMap : list (string * LinkField) :=
  [ ("service", linkedServiceField); ("hire", linkedHirePageField) ].

(** [enum: ['service', 'hire', 'independent']] *)
Definition linkedTypeEnum : list string := [ "service"; "hire"; "independent" ].

(** A query filter: [{ slug }], [{ [linkField]: linkedId }] for a schema
    path, or the same for a key that is no path of the schema. *)
Inductive Filter : Type :=
| BySlug (s : string)
| ByLink (f : LinkField) (id : ObjectId)
| ByUnknownPath.

Inductive Collection : Type := ServiceModel | HirePageDataModel.

(** The calls that reach the database. *)
Inductive Call : Type :=
| FindOne (f : Filter)
| Save (id : ObjectId)
| FindOneAndDelete (s : string)
| FindByIdAndUpdate (c : Collection) (id : ObjectId) (newSlug : string)
    (subCategory : option string).

(** The database and what surrounds it.  [services] and [hirePages] are
    the ids present in the two content collections.  [strictQuery] is
    Mongoose's option of that name (a filter on a key outside the schema
    is dropped when it is set).  [faults] scripts the failures of the
    database: each call takes the head, and fails with it when it is a
    message.  [calls] and [consoleErrors] record what was done. *)
Record World : Type := mkWorld {
  seoManagers : list SeoManager;
  services : list ObjectId;
  hirePages : list ObjectId;
  nextId : ObjectId;
  strictQuery : bool;
  faults : list (option string);
  calls : list Call;
  consoleErrors : list string
}.

Definition withSeoManagers (docs : list SeoManager) (w : World) : World :=
  mkWorld docs (services w) (hirePages w) (nextId w) (strictQuery w)
          (faults w) (calls w) (consoleErrors w).

Definition withFaults (fs : list (option string)) (w : World) : World :=
  mkWorld (seoManagers w) (services w) (hirePages w) (nextId w) (strictQuery w)
          fs (calls w) (consoleErrors w).

Definition withCall (c : Call) (w : World) : World :=
  mkWorld (seoManagers w) (services w) (hirePages w) (nextId w) (strictQuery w)
          (faults w) (calls w ++ [c])%list (consoleErrors w).

Definition withNextId (n : ObjectId) (w : World) : World :=
  mkWorld (seoManagers w) (services w) (hirePages w) n (strictQuery w)
          (faults w) (calls w) (consoleErrors w).

Definition withConsoleError (line : string) (w : World) : World :=
  mkWorld (seoManagers w) (services w) (hirePages w) (nextId w) (strictQuery w)
          (faults w) (calls w) (consoleErrors w ++ [line])%list.

(** A call to the database: recorded, then failed or run. *)
Definition storeCall {A : Type} (c : Call) (run : M World A) : M World A :=
  fun w =>
    let w1 := withCall c w in
    match faults w with
    | Some message :: rest => (Thrown (StoreError message), withFaults rest w1)
    | None :: rest => run (withFaults rest w1)
    | [] => run w1
    end.

Definition consoleError (line : string) : M World unit :=
  modify (withConsoleError line).

Definition opt_eqb (a : option ObjectId) (id : ObjectId) : bool :=
  match a with
  | Some x => Nat.eqb x id
  | None => false
  end.

Definition linkOf (f : LinkField) (doc : SeoManager) : option ObjectId :=
  match f with
  | linkedServiceField => linkedService doc
  | linkedHirePageField => linkedHirePage doc
  end.

Definition matches (f : Filter) (doc : SeoManager) : bool :=
  match f with
  | BySlug s => slug doc =? s
  | ByLink field id => opt_eqb (linkOf field doc) id
  | ByUnknownPath => false
  end.

(** [SeoManager.findOne(filter)] *)
Definition findOne (f : Filter) : M World (option SeoManager) :=
  storeCall (FindOne f)
    (fun w =>
       match f with
       | ByUnknownPath =>
           (Returned (if strictQuery w then hd_error (seoManagers w) else None), w)
       | _ => (Returned (find (matches f) (seoManagers w)), w)
       end).

Definition nonEmpty (s : option string) : bool :=
  match s with
  | Some t => negb (t =? "")
  | None => false
  end.

(** The validators of the schema: [required] on [title] and [slug], the
    [enum] of [linkedType]. *)
Definition validate (doc : SeoManager) : option Exn :=
  if negb (nonEmpty (title doc)) then Some (ValidationError "title")
  else if slug doc =? "" then Some (ValidationError "slug")
  else if negb (mem (linkedType doc) linkedTypeEnum) then Some (ValidationError "linkedType")
  else None.

(** [unique: true] on [slug]: some other document has this slug. *)
Definition slugTaken (doc : SeoManager) (docs : list SeoManager) : bool :=
  existsb (fun d => negb (Nat.eqb (_id d) (_id doc)) && (slug d =? slug doc)) docs.

Definition replaceDoc (doc : SeoManager) (docs : list SeoManager) : list SeoManager :=
  map (fun d => if Nat.eqb (_id d) (_id doc) then doc else d) docs.

(** [await doc.save()] for a document read from the collection. *)
Definition save (doc : SeoManager) : M World unit :=
  match validate doc with
  | Some e => throw e
  | None =>
      storeCall (Save (_id doc))
        (fun w =>
           if slugTaken doc (seoManagers w)
           then (Thrown (DuplicateKey (slug doc)), w)
           else (Returned tt, withSeoManagers (replaceDoc doc (seoManagers w)) w))
  end.

(** [await doc.save()] for a document made with [new SeoManager]. *)
Definition saveNew (doc : SeoManager) : M World unit :=
  match validate doc with
  | Some e => throw e
  | None =>
      storeCall (Save (_id doc))
        (fun w =>
           if slugTaken doc (seoManagers w)
           then (Thrown (DuplicateKey (slug doc)), w)
           else (Returned tt, withSeoManagers (seoManagers w ++ [doc])%list w))
  end.

(** The id that [new SeoManager] gives the document. *)
Definition freshId : M World ObjectId :=
  fun w => (Returned (nextId w), withNextId (S (nextId w)) w).

Fixpoint removeFirst (p : SeoManager -> bool) (docs : list SeoManager) : list SeoManager :=
  match docs with
  | [] => []
  | d :: rest => if p d then rest else d :: removeFirst p rest
  end.

(** [SeoManager.findOneAndDelete({ slug })] *)
Definition findOneAndDelete (s : string) : M World (option SeoManager) :=
  storeCall (FindOneAndDelete s)
    (fun w =>
       (Returned (find (matches (BySlug s)) (seoManagers w)),
        withSeoManagers (removeFirst (matches (BySlug s)) (seoManagers w)) w)).

(** [Model.findByIdAndUpdate(id, { slug, subCategory? }, { new: true })] on
    a content collection: the id of the updated entity, or [null]. *)
Definition findByIdAndUpdate (c : Collection) (id : ObjectId) (newSlug : string)
    (subCategory : option string) : M World (option ObjectId) :=
  storeCall (FindByIdAndUpdate c id newSlug subCategory)
    (fun w =>
       let ids := match c with
                  | ServiceModel => services w
                  | HirePageDataModel => hirePages w
                  end in
       (Returned (if existsb (Nat.eqb id) ids then Some id else None), w)).

(** [`${seoTitle}`] *)
Definition interpolate (s : option string) : string :=
  match s with
  | Some t => t
  | None => "null"
  end.

(** [existingSeo[linkField] = linkedId]: a key that is no path of the
    schema leaves the paths as they are. *)
Definition setLink (linkField : Lookup LinkField) (linkedId : option ObjectId)
    (doc : SeoManager) : SeoManager :=
  match linkField with
  | Own linkedServiceField =>
      mkSeo (_id doc) (title doc) (slug doc) (seo_keyphrase doc) (seo_title doc)
            (meta_description doc) (cover_image doc)
            linkedId (linkedHirePage doc) (linkedType doc) (isAutoManaged doc)
  | Own linkedHirePageField =>
      mkSeo (_id doc) (title doc) (slug doc) (seo_keyphrase doc) (seo_title doc)
            (meta_description doc) (cover_image doc)
            (linkedService doc) linkedId (linkedType doc) (isAutoManaged doc)
  | _ => doc
  end.

(** The filter [{ [linkField]: linkedId }]. *)
Definition linkFilter (linkField : Lookup LinkField) (linkedId : ObjectId) : Filter :=
  match linkField with
  | Own f => ByLink f linkedId
  | _ => ByUnknownPath
  end.

(** Case 1 of [syncSeoData]: the assignments that convert an independent
    entry. *)
Definition converted (linkField : Lookup LinkField) (seoTitle : option string)
    (newSlug type : string) (linkedId : option ObjectId) (doc : SeoManager) : SeoManager :=
  setLink linkField linkedId
    (mkSeo (_id doc) seoTitle newSlug (seo_keyphrase doc) seoTitle
           (meta_description doc) (cover_image doc)
           (linkedService doc) (linkedHirePage doc) type true).

(** Case 2 of [syncSeoData]: the assignments that update an auto-managed
    entry ([seo_title] is left alone). *)
Definition updated (linkField : Lookup LinkField) (seoTitle : option string)
    (newSlug type : string) (linkedId : option ObjectId) (doc : SeoManager) : SeoManager :=
  setLink linkField linkedId
    (mkSeo (_id doc) seoTitle newSlug (seo_keyphrase doc) (seo_title doc)
           (meta_description doc) (cover_image doc)
           (linkedService doc) (linkedHirePage doc) type true).

(** Case 3 of [syncSeoData]: [new SeoManager({ ... })]. *)
Definition created (linkField : Lookup LinkField) (seoTitle : option string)
    (newSlug type : string) (linkedId : option ObjectId) (id : ObjectId) : SeoManager :=
  setLink linkField linkedId
    (mkSeo id seoTitle newSlug seoTitle seoTitle
           ("Learn more about " ++ interpolate seoTitle
              ++ " - professional services and solutions")
           "" None None type true).

(** [const syncSeoData = async (subCategory, slug, title = null,
                                type = 'service', linkedId = null)] *)
Definition syncSeoData (subCategory : option string) (newSlug : string)
    (newTitle : option string) (type : string) (linkedId : option ObjectId)
  : M World SeoManager :=
  try_catch
    (let seoTitle := if nonEmpty subCategory then subCategory else newTitle in
     let linkField := lookup linkFieldMap type in
     match linkField with
     | Missing => throw (Error ("Invalid linkedType provided: " ++ type))
     | _ =>
         byId <- match linkedId with
                 | Some id => findOne (linkFilter linkField id)
                 | None => ret None
                 end ;;
         existingSeo <- match byId with
                        | Some doc => ret (Some doc)
                        | None => findOne (BySlug newSlug)
                        end ;;
         match existingSeo with
         | Some doc =>
             if negb (isAutoManaged doc) && (linkedType doc =? "independent")
             then
               let doc' := converted linkField seoTitle newSlug type linkedId doc in
               save doc' ;; ret doc'
             else if isAutoManaged doc || (linkedType doc =? type)
             then
               let doc' := updated linkField seoTitle newSlug type linkedId doc in
               save doc' ;; ret doc'
             else ret doc
         | None =>
             id <- freshId ;;
             let newSeo := created linkField seoTitle newSlug type linkedId id in
             saveNew newSeo ;; ret newSeo
         end
     end)
    (fun e => consoleError "Error syncing SEO data:" ;; throw e).

(** [const updateLinkedEntity = async (seoSlug, newSlug, newTitle)] *)
Definition updateLinkedEntity (seoSlug newSlug newTitle : string)
  : M World (option ObjectId) :=
  try_catch
    (seoEntry <- findOne (BySlug seoSlug) ;;
     match seoEntry with
     | None => ret None
     | Some entry =>
         if negb (isAutoManaged entry) || (linkedType entry =? "independent")
         then ret None
         else
           match linkedService entry, linkedHirePage entry with
           | Some id, _ =>
               findByIdAndUpdate ServiceModel id newSlug
                 (if linkedType entry =? "service" then Some newTitle else None)
           | None, Some id =>
               findByIdAndUpdate HirePageDataModel id newSlug
                 (if linkedType entry =? "hire" then Some newTitle else None)
           | None, None => ret None
           end
     end)
    (fun e => consoleError "Error updating linked entity:" ;; throw e).

(** [const safeDeleteSeoData = async (slug)] *)
Definition safeDeleteSeoData (s : string) : M World bool :=
  try_catch
    (seoEntry <- findOne (BySlug s) ;;
     match seoEntry with
     | Some entry =>
         if negb (isAutoManaged entry)
         then findOneAndDelete s ;; ret true
         else ret false
     | None => ret true
     end)
    (fun e => consoleError "Error deleting SEO data:" ;; throw e).

(** [const forceDeleteSeoData = async (slug)] *)
Definition forceDeleteSeoData (s : string) : M World bool :=
  try_catch
    (findOneAndDelete s ;; ret true)
    (fun e => consoleError "Error force deleting SEO data:" ;; throw e).

(** ** The states of a metadata record *)

Definition isSet (link : option ObjectId) : bool :=
  match link with
  | Some _ => true
  | None => false
  end.

(** [linkedType] is ['service'] or ['hire']. *)
Definition contentType (t : string) : bool := (t =? "service") || (t =? "hire").

(** Exactly one of [linkedService] and [linkedHirePage] is set. *)
Definition exactlyOneLink (doc : SeoManager) : bool :=
  xorb (isSet (linkedService doc)) (isSet (linkedHirePage doc)).

(** The invariant of a record: the three conditions hold together or fail
    together. *)
Definition invariant (doc : SeoManager) : bool :=
  Bool.eqb (isAutoManaged doc) (contentType (linkedType doc))
  && Bool.eqb (contentType (linkedType doc)) (exactlyOneLink doc).

(** The Independent state, as Case 1 of [syncSeoData] tests it. *)
Definition independent (doc : SeoManager) : bool :=
  negb (isAutoManaged doc) && (linkedType doc =? "independent").

End SeoSync.

(* ===================================================================== *)
(** * The vocabulary of the properties                                    *)
(* ===================================================================== *)

(** ** Cleanup: the walk, and the positional rule in the words of the
    specification *)

Module CleanupSpec.

Import CleanupImages CleanupOldImages.

(** The walk of [compareArrayPath] over an array of objects, for a
    recursive call that always answers. *)
Fixpoint walkItems (recur : JsVal -> JsVal -> list JsVal)
    (newArray : JsRef) (i : nat) (oldArray : list JsVal) : list JsVal :=
  match oldArray with
  | [] => []
  | oldItem :: rest =>
      ((if truthy oldItem && typeof_object oldItem
        then recur oldItem (js_index newArray i)
        else [])
       ++ walkItems recur newArray (S i) rest)%list
  end.

(** The loop of [handleArrayPath], for a recursive call that always
    answers. *)
Definition eachItem (recur : JsVal -> list JsVal) (remainingPath : string)
    (items : list JsVal) : list JsVal :=
  flat_map (fun item =>
              if negb (remainingPath =? "") then recur item
              else if is_string item then [item] else [])
           items.

(** Where the leaf of a path sits: at the path itself, or, for a path
    that ends in [[]], at the array the brackets follow. *)
Definition leafPath (path : string) : string :=
  if includes "[]" path then arrayPathOf path else path.

(** The positional rule in the words of the specification: the old
    elements, each with its index, of which those are kept that are
    truthy and differ from the new element at the same index. *)
Definition changedAt (newLeaf : JsRef) (entry : nat * JsVal) : bool :=
  truthy (snd entry) && negb (strict_eq (snd entry) (js_index newLeaf (fst entry))).

Definition positionalDiff (newLeaf : JsRef) (from : nat) (olds : list JsVal)
  : list JsVal :=
  map snd (filter (changedAt newLeaf) (combine (seq from (List.length olds)) olds)).

End CleanupSpec.
Import CleanupSpec.

(** ** The gateway: segments and identifiers *)

Module GatewaySpec.

(** [c] occurs in [s]. *)
Fixpoint hasChar (c : ascii) (s : string) : bool :=
  match s with
  | EmptyString => false
  | String a s' => Ascii.eqb c a || hasChar c s'
  end.

(** [seg] is the last segment of [s]: what follows the last [/], or all
    of [s] when it has none. *)
Definition lastSegment (s seg : string) : Prop :=
  hasChar "/" seg = false
  /\ (s = seg \/ exists dir, s = dir ++ String "/" seg).

(** [id] is [seg] cut at its first dot. *)
Definition cutAtFirstDot (seg id : string) : Prop :=
  hasChar "." id = false
  /\ (seg = id \/ exists ext, seg = id ++ String "." ext).

End GatewaySpec.
Import GatewaySpec.

(** ** The synchroniser: assertions about its computations *)

Module SeoSpec.

Import SeoSync.

(** [Hoare P c Q E]: started where [P] holds, [c] returns a value and a
    world related by [Q], or throws in a world where [E] holds. *)
Definition Hoare {A : Type} (P : World -> Prop) (c : M World A)
    (Q : A -> World -> Prop) (E : World -> Prop) : Prop :=
  forall w, P w ->
    match c w with
    | (Returned a, w') => Q a w'
    | (Thrown _, w') => E w'
    end.

(** The documents are [docs]. *)
Definition holds (docs : list SeoManager) (w : World) : Prop := seoManagers w = docs.

(** What a filter finds is a stored document that the filter matches, if
    the filter is on a path of the schema. *)
Definition foundBy (f : Filter) (docs : list SeoManager) (r : option SeoManager) : Prop :=
  forall d, r = Some d -> In d docs /\ (f = ByUnknownPath \/ matches f d = true).

Definition allInvariant (docs : list SeoManager) : Prop :=
  forall d, In d docs -> invariant d = true.

(** The documents keep the invariant. *)
Definition sound (w : World) : Prop := allInvariant (seoManagers w).

(** The other link field. *)
Definition otherField (f : LinkField) : LinkField :=
  match f with
  | linkedServiceField => linkedHirePageField
  | linkedHirePageField => linkedServiceField
  end.

(** A document that [save] would write keeps the invariant, or is turned
    down by the validators. *)
Definition acceptable (doc : SeoManager) : Prop :=
  validate doc = None -> invariant doc = true.

(** A document that the two lookups of [syncSeoData] may come up with. *)
Definition candidate (docs : list SeoManager) (lf : Lookup LinkField)
    (id : ObjectId) (newSlug : string) (d : SeoManager) : Prop :=
  In d docs /\ (forall f, lf = Own f -> slug d = newSlug \/ linkOf f d = Some id).

End SeoSpec.
Import SeoSpec.

(** ** The synchroniser: what becomes of a failure of the database *)

Module FailureSpec.

Import SeoSync.

(** [c] lets the failures of the database through: of the script of
    failures it uses up a front part, and when a call of that part
    failed, [c] throws what that call threw.  It writes nothing on the
    console. *)
Definition propagates {A : Type} (c : M World A) : Prop :=
  forall w,
    consoleErrors (snd (c w)) = consoleErrors w
    /\ exists used,
         faults w = (used ++ faults (snd (c w)))%list
         /\ forall message, In (Some message) used ->
                            fst (c w) = Thrown (StoreError message).


End FailureSpec.
Import FailureSpec.

(** ** Paths: brackets, and chains of own properties *)

Module PathSpec.

(** [s] starts with a closing bracket. *)
Definition startsWithClose (s : string) : bool :=
  match s with
  | String c _ => Ascii.eqb c "]"
  | EmptyString => false
  end.

(** [s] ends with an opening bracket. *)
Fixpoint endsWithOpen (s : string) : bool :=
  match s with
  | EmptyString => false
  | String c EmptyString => Ascii.eqb c "["
  | String _ s' => endsWithOpen s'
  end.

(** [v] is what the chain of own properties [keys] leads to from [obj]. *)
Inductive reaches : JsVal -> list string -> JsVal -> Prop :=
| reaches_here v : reaches v [] v
| reaches_down fields key keys x v :
    assoc key fields = Some x ->
    reaches x keys v ->
    reaches (JObj fields) (key :: keys) v.

End PathSpec.
Import PathSpec.

(** ** The gateway: the request a reference leads to *)

Module RequestSpec.

(** What [deleteImage] asks of the remote service for one reference when
    the service answers. *)
Definition requestFor (v : JsVal) : list string :=
  destroyed (snd (deleteImage (fun _ _ => Resolved "ok") v [])).

(** The identifier derived from a non-empty string. *)
Definition publicIdOf (s : string) : string :=
  hd "" (split "." (last (split "/" s) "")).

End RequestSpec.
Import RequestSpec.

(** ** The synchroniser as a function of the stored records *)

Module SyncPure.

Import SeoSync.

(** [findOne] when the database answers. *)
Definition findPure (strict : bool) (f : Filter) (docs : list SeoManager)
  : option SeoManager :=
  match f with
  | ByUnknownPath => if strict then hd_error docs else None
  | _ => find (matches f) docs
  end.

(** The record [syncSeoData] settles on: the one linked to the id, or
    else the one stored under the slug. *)
Definition located (lf : Lookup LinkField) (linkedId : option ObjectId)
    (newSlug : string) (strict : bool) (docs : list SeoManager) : option SeoManager :=
  match match linkedId with
        | Some id => findPure strict (linkFilter lf id) docs
        | None => None
        end with
  | Some d => Some d
  | None => find (matches (BySlug newSlug)) docs
  end.

(** What a [save] comes to: the validators, the unique index, the write. *)
Definition written (doc : SeoManager) (docs docs' : list SeoManager)
  : Completion SeoManager * list SeoManager :=
  match validate doc with
  | Some e => (Thrown e, docs)
  | None =>
      if slugTaken doc docs then (Thrown (DuplicateKey (slug doc)), docs)
      else (Returned doc, docs')
  end.

(** [syncSeoData] as a function of the stored records, when the database
    answers every call: what it returns or throws, and the records it
    leaves. *)
Definition syncPure (subCategory : option string) (newSlug : string)
    (newTitle : option string) (type : string) (linkedId : option ObjectId)
    (strict : bool) (next : ObjectId) (docs : list SeoManager)
  : Completion SeoManager * list SeoManager :=
  let seoTitle := if nonEmpty subCategory then subCategory else newTitle in
  let lf := lookup linkFieldMap type in
  match lf with
  | Missing => (Thrown (Error ("Invalid linkedType provided: " ++ type)), docs)
  | _ =>
      match located lf linkedId newSlug strict docs with
      | Some d =>
          if independent d
          then let doc := converted lf seoTitle newSlug type linkedId d in
               written doc docs (replaceDoc doc docs)
          else if isAutoManaged d || (linkedType d =? type)
          then let doc := updated lf seoTitle newSlug type linkedId d in
               written doc docs (replaceDoc doc docs)
          else (Returned d, docs)
      | None =>
          let doc := created lf seoTitle newSlug type linkedId next in
          written doc docs (docs ++ [doc])%list
      end
  end.

End SyncPure.
Import SyncPure.

(** ** Documents and records of the examples *)

Module Samples.

Import SeoSync.

(** The documents of the examples. *)
Definition field (key : string) (v : JsVal) : JsVal := JObj [(key, v)].

Definition images (urls : list string) : JsVal := JArr (map JStr urls).

(** The stored and the incoming document of a record of type
    [HireMainPageData] whose one nested image changed from ["A"] to
    ["B"]. *)
Definition hireMainOld : JsVal :=
  field "dedicatedDeveloperSection"
    (field "services" (JArr [field "serviceItemBox" (JArr [field "image" (JStr "A")])])).

Definition hireMainNew : JsVal :=
  field "dedicatedDeveloperSection"
    (field "services" (JArr [field "serviceItemBox" (JArr [field "image" (JStr "B")])])).

(** A database with the given metadata records and nothing else, whose
    calls succeed. *)
Definition quiet (docs : list SeoManager) (next : ObjectId) : World :=
  mkWorld docs [] [] next false [] [] [].

(** The record of an independent page and the record of a service. *)
Definition independentPage (id : ObjectId) (s : string) : SeoManager :=
  mkSeo id (Some "Page") s None None "" "" None None "independent" false.

Definition servicePage (id : ObjectId) (s : string) (service : ObjectId) : SeoManager :=
  mkSeo id (Some "Service") s None None "" "" (Some service) None "service" true.

(** The record of a hire page. *)
Definition hirePageRecord (id : ObjectId) (s : string) (page : ObjectId) : SeoManager :=
  mkSeo id (Some "Hire") s None None "" "" None (Some page) "hire" true.


End Samples.
Import Samples.

(* ===================================================================== *)
(** * Properties                                                          *)
(* ===================================================================== *)

(** ** Strings: the pieces of a [split] *)

Module StringFacts.

Lemma length_append (a b : string) :
  String.length (a ++ b) = String.length a + String.length b.
Proof.
  induction a as [|c a IH]; simpl; [reflexivity|]. now rewrite IH.
Qed.

(** No piece is longer than what was read. *)
Lemma split_from_piece_length (sep : string) :
  forall s skip cur p,
    In p (split_from sep skip cur s) ->
    String.length p <= String.length cur + String.length s.
Proof.
  induction s as [|c s IH]; intros skip cur p Hin; cbn [split_from] in Hin.
  - destruct Hin as [<-|[]]. lia.
  - cbn [String.length]. destruct skip as [|k].
    + destruct (prefix sep (String c s)).
      * destruct Hin as [<-|Hin]; [lia|].
        apply IH in Hin. cbn [String.length] in Hin. lia.
      * apply IH in Hin. rewrite length_append in Hin.
        cbn [String.length] in Hin. lia.
    + apply IH in Hin. lia.
Qed.

Lemma split_piece_length (sep s p : string) :
  In p (split sep s) -> String.length p <= String.length s.
Proof.
  intros Hin. apply split_from_piece_length in Hin. simpl in Hin. exact Hin.
Qed.

Lemma slice1_shorter (s : string) :
  s <> "" -> String.length (slice1 s) < String.length s.
Proof.
  destruct s; simpl; [congruence|lia].
Qed.

(** The remaining path of a path, when there is one, is shorter than the
    path: the recursion of both middlewares is well founded. *)
Lemma remainingPathOf_shorter (path : string) :
  remainingPathOf path <> "" ->
  String.length (remainingPathOf path) < String.length path.
Proof.
  unfold remainingPathOf.
  destruct (nth_error (split "[]" path) 1) as [second|] eqn:E; [|congruence].
  destruct (String.eqb_spec second "") as [->|Hne]; [congruence|].
  intros _.
  apply nth_error_In in E. apply split_piece_length in E.
  pose proof (slice1_shorter second Hne). lia.
Qed.

End StringFacts.

(** ** Differential cleanup: the recursion and its fuel *)

Module DifferFacts.

Import CleanupImages CleanupOldImages StringFacts.

Lemma compareItems_answers recur total remainingPath newArray :
  (forall o n, recur o n remainingPath = Some (total o n)) ->
  forall oldArray i,
    compareItems recur remainingPath newArray i oldArray
    = Some (walkItems total newArray i oldArray).
Proof.
  intros Hrec; induction oldArray as [|o rest IH]; intros i; simpl; [reflexivity|].
  rewrite IH.
  destruct (truthy o && typeof_object o); [rewrite Hrec|]; reflexivity.
Qed.

(** With more fuel than the path has characters, the comparison answers,
    and the answer does not depend on the fuel. *)
Lemma compareAndDeleteByPath_fuel_enough :
  forall fuel oldObj newObj path,
    String.length path < fuel ->
    compareAndDeleteByPath_fuel fuel oldObj newObj path
    = Some (compareAndDeleteByPath oldObj newObj path).
Proof.
  assert (Hex : forall fuel oldObj newObj path,
             String.length path < fuel ->
             exists l, forall fuel', String.length path < fuel' ->
               compareAndDeleteByPath_fuel fuel' oldObj newObj path = Some l).
  { induction fuel as [|fuel IH]; intros oldObj newObj path Hlt; [lia|].
    destruct (negb (truthy oldObj)) eqn:Ht.
    { exists []. intros [|f'] Hf; [lia|]. simpl. now rewrite Ht. }
    destruct (includes "[]" path) eqn:Hinc.
    2:{ exists (compareSimplePath oldObj newObj path).
        intros [|f'] Hf; [lia|]. simpl. now rewrite Ht, Hinc. }
    destruct (as_array (getNestedValue oldObj (arrayPathOf path))) as [olds|] eqn:Harr.
    2:{ exists []. intros [|f'] Hf; [lia|]. simpl. rewrite Ht, Hinc.
        unfold compareArrayPath. now rewrite Harr. }
    destruct (String.eqb_spec (remainingPathOf path) "") as [Hrem|Hrem].
    { exists (compareImages (getNestedValue newObj (arrayPathOf path)) 0 olds).
      intros [|f'] Hf; [lia|]. simpl. rewrite Ht, Hinc.
      unfold compareArrayPath. rewrite Harr, Hrem. reflexivity. }
    pose proof (remainingPathOf_shorter path Hrem) as Hshort.
    assert (Hall : exists total, forall o n fuel',
               String.length (remainingPathOf path) < fuel' ->
               compareAndDeleteByPath_fuel fuel' o n (remainingPathOf path)
               = Some (total o n)).
    { exists (fun o n =>
                orEmpty (compareAndDeleteByPath_fuel fuel o n (remainingPathOf path))).
      intros o n fuel' Hf'.
      destruct (IH o n (remainingPathOf path)) as [l Hl]; [lia|].
      rewrite (Hl fuel'), (Hl fuel) by lia. reflexivity. }
    destruct Hall as [total Htotal].
    exists (walkItems total (getNestedValue newObj (arrayPathOf path)) 0 olds).
    intros [|f'] Hf; [lia|]. simpl. rewrite Ht, Hinc.
    unfold compareArrayPath. rewrite Harr.
    destruct (String.eqb_spec (remainingPathOf path) "") as [E|_]; [contradiction|].
    apply compareItems_answers. intros o n. apply Htotal. lia. }
  intros fuel oldObj newObj path Hlt.
  destruct (Hex fuel oldObj newObj path Hlt) as [l Hl].
  unfold compareAndDeleteByPath, fuelFor.
  rewrite (Hl fuel), (Hl (S (String.length path))) by lia. reflexivity.
Qed.

(** [compareAndDeleteByPath], one call unfolded. *)
Lemma compareAndDeleteByPath_unfold (oldObj newObj : JsVal) (path : string) :
  compareAndDeleteByPath oldObj newObj path =
  if negb (truthy oldObj) then []
  else if includes "[]" path then
    match as_array (getNestedValue oldObj (arrayPathOf path)) with
    | None => []
    | Some olds =>
        if remainingPathOf path =? "" then
          compareImages (getNestedValue newObj (arrayPathOf path)) 0 olds
        else
          walkItems (fun o n => compareAndDeleteByPath o n (remainingPathOf path))
                    (getNestedValue newObj (arrayPathOf path)) 0 olds
    end
  else compareSimplePath oldObj newObj path.
Proof.
  unfold compareAndDeleteByPath at 1, fuelFor. simpl.
  destruct (negb (truthy oldObj)); [reflexivity|].
  destruct (includes "[]" path); [|reflexivity].
  unfold compareArrayPath.
  destruct (as_array (getNestedValue oldObj (arrayPathOf path))) as [olds|];
    [|reflexivity].
  destruct (String.eqb_spec (remainingPathOf path) "") as [E|Hrem]; [reflexivity|].
  erewrite compareItems_answers; [reflexivity|].
  intros o n. apply compareAndDeleteByPath_fuel_enough.
  now apply remainingPathOf_shorter.
Qed.

(** A value that resolves through a path is reached from a truthy
    document. *)
Lemma getNestedValue_truthy (obj : JsVal) (path : string) :
  getNestedValue obj path <> AVal JUndefined -> truthy obj = true.
Proof.
  unfold getNestedValue. destruct (truthy obj); [reflexivity|].
  simpl. congruence.
Qed.

End DifferFacts.

(** ** Full cleanup: the recursion and its fuel *)

Module FullCleanupFacts.

Import CleanupImages StringFacts.

Lemma forEachItem_answers recur total remainingPath :
  (remainingPath <> "" -> forall item, recur item remainingPath = Some (total item)) ->
  forall items,
    forEachItem recur remainingPath items = Some (eachItem total remainingPath items).
Proof.
  intros Hrec; induction items as [|item rest IH]; [reflexivity|].
  cbn [forEachItem eachItem flat_map]. fold (eachItem total remainingPath rest).
  rewrite IH.
  destruct (String.eqb_spec remainingPath "") as [E|E]; cbn [negb].
  - destruct (is_string item); reflexivity.
  - rewrite (Hrec E). reflexivity.
Qed.

(** With more fuel than the path has characters, full cleanup of a path
    answers, and the answer does not depend on the fuel. *)
Lemma deleteImagesByPath_fuel_enough :
  forall fuel obj path,
    String.length path < fuel ->
    deleteImagesByPath_fuel fuel obj path = Some (deleteImagesByPath obj path).
Proof.
  assert (Hex : forall fuel obj path,
             String.length path < fuel ->
             exists l, forall fuel', String.length path < fuel' ->
               deleteImagesByPath_fuel fuel' obj path = Some l).
  { induction fuel as [|fuel IH]; intros obj path Hlt; [lia|].
    destruct (negb (truthy obj) || (path =? "")) eqn:Ht.
    { exists []. intros [|f'] Hf; [lia|]. simpl. now rewrite Ht. }
    destruct (includes "[]" path) eqn:Hinc.
    2:{ exists (handleSimplePath obj path).
        intros [|f'] Hf; [lia|]. simpl. now rewrite Ht, Hinc. }
    destruct (as_array (getNestedValue obj (arrayPathOf path))) as [items|] eqn:Harr.
    2:{ exists []. intros [|f'] Hf; [lia|]. simpl. rewrite Ht, Hinc.
        unfold handleArrayPath. now rewrite Harr. }
    exists (eachItem
              (fun item =>
                 orEmpty (deleteImagesByPath_fuel fuel item (remainingPathOf path)))
              (remainingPathOf path) items).
    intros [|f'] Hf; [lia|]. simpl. rewrite Ht, Hinc.
    unfold handleArrayPath. rewrite Harr.
    apply forEachItem_answers. intros Hrem item.
    pose proof (remainingPathOf_shorter path Hrem) as Hshort.
    destruct (IH item (remainingPathOf path)) as [l Hl]; [lia|].
    rewrite (Hl f'), (Hl fuel) by lia. reflexivity. }
  intros fuel obj path Hlt.
  destruct (Hex fuel obj path Hlt) as [l Hl].
  unfold deleteImagesByPath, fuelFor.
  rewrite (Hl fuel), (Hl (S (String.length path))) by lia. reflexivity.
Qed.

End FullCleanupFacts.

(** ** Differential cleanup: leaves *)

Module LeafFacts.

Import CleanupImages CleanupOldImages StringFacts DifferFacts.

Lemma compareImages_positional (newLeaf : JsRef) (olds : list JsVal) :
  forall from, compareImages newLeaf from olds = positionalDiff newLeaf from olds.
Proof.
  unfold positionalDiff.
  induction olds as [|o rest IH]; intros from; simpl; [reflexivity|].
  rewrite IH. unfold changedAt at 2. simpl.
  destruct (truthy o && negb (strict_eq o (js_index newLeaf from))); reflexivity.
Qed.

Lemma strict_eq_string (s : string) (v : JsVal) :
  strict_eq (JStr s) v = true <-> v = JStr s.
Proof.
  destruct v; simpl; split; try congruence.
  - intros H. apply String.eqb_eq in H. now subst.
  - intros H. injection H as ->. apply String.eqb_refl.
Qed.

Lemma truthy_string (s : string) : truthy (JStr s) = true <-> s <> "".
Proof.
  simpl. destruct (String.eqb_spec s ""); simpl; split; congruence.
Qed.

Lemma in_combine_seq (A : Type) (l : list A) :
  forall from i x,
    In (i, x) (combine (seq from (List.length l)) l)
    <-> from <= i /\ nth_error l (i - from) = Some x.
Proof.
  induction l as [|a l IH]; intros from i x; simpl.
  - split; [tauto|]. intros [_ H]. destruct (i - from); discriminate.
  - rewrite IH. split.
    + intros [H|[Hle Hn]].
      * injection H as <- <-. rewrite Nat.sub_diag. split; [lia|reflexivity].
      * split; [lia|]. replace (i - from) with (S (i - S from)) by lia. exact Hn.
    + intros [Hle Hn]. destruct (Nat.eq_dec from i) as [->|Hne].
      * rewrite Nat.sub_diag in Hn. simpl in Hn. left. congruence.
      * right. split; [lia|].
        replace (i - from) with (S (i - S from)) in Hn by lia. exact Hn.
Qed.

(** Membership in the positional difference. *)
Lemma in_positionalDiff (newLeaf : JsRef) (olds : list JsVal) (x : JsVal) :
  In x (positionalDiff newLeaf 0 olds) <->
  exists i, nth_error olds i = Some x
            /\ truthy x = true
            /\ strict_eq x (js_index newLeaf i) = false.
Proof.
  unfold positionalDiff. rewrite in_map_iff. split.
  - intros [[i y] [Hy Hin]]. simpl in Hy. subst y.
    apply filter_In in Hin. destruct Hin as [Hin Hch].
    apply in_combine_seq in Hin. destruct Hin as [_ Hn].
    rewrite Nat.sub_0_r in Hn.
    unfold changedAt in Hch. simpl in Hch.
    apply andb_true_iff in Hch. destruct Hch as [Ht Hd].
    apply negb_true_iff in Hd. now exists i.
  - intros [i [Hn [Ht Hd]]]. exists (i, x). split; [reflexivity|].
    apply filter_In. split.
    + apply in_combine_seq. rewrite Nat.sub_0_r. split; [lia|exact Hn].
    + unfold changedAt. simpl. now rewrite Ht, Hd.
Qed.

(** What differential cleanup does at a path whose leaf is an array. *)
Lemma compareAndDeleteByPath_leaf_array (oldObj newObj : JsVal) (path : string)
    (olds : list JsVal) :
  includes "[]" path = false \/ remainingPathOf path = "" ->
  getNestedValue oldObj (leafPath path) = AVal (JArr olds) ->
  compareAndDeleteByPath oldObj newObj path
  = compareImages (getNestedValue newObj (leafPath path)) 0 olds.
Proof.
  intros Hshape Hold.
  assert (Ht : truthy oldObj = true).
  { apply (getNestedValue_truthy oldObj (leafPath path)). rewrite Hold. congruence. }
  rewrite compareAndDeleteByPath_unfold, Ht. simpl.
  unfold leafPath in *.
  destruct (includes "[]" path).
  - destruct Hshape as [Hshape|Hshape]; [discriminate|].
    rewrite Hold, Hshape. reflexivity.
  - unfold compareSimplePath. rewrite Hold. reflexivity.
Qed.

End LeafFacts.

(** ** Differential cleanup: the claims *)

Import CleanupImages CleanupOldImages StringFacts DifferFacts LeafFacts.

(** C2. At a path without [[]] whose old leaf is a single string,
    [compareSimplePath], and so differential cleanup, hands exactly that
    string to [deleteImage] when the new value at the path is anything
    else (another string, the empty string, nothing at all), and hands
    nothing over when the new value is the same string. *)
Theorem single_string_leaf_diff (oldObj newObj : JsVal) (path s : string) :
  includes "[]" path = false ->
  getNestedValue oldObj path = AVal (JStr s) ->
  compareAndDeleteByPath oldObj newObj path = compareSimplePath oldObj newObj path
  /\ (getNestedValue newObj path <> AVal (JStr s) ->
      compareSimplePath oldObj newObj path = [JStr s])
  /\ (getNestedValue newObj path = AVal (JStr s) ->
      compareSimplePath oldObj newObj path = []).
Proof.
  intros Hinc Hold. split; [|split].
  - rewrite compareAndDeleteByPath_unfold, Hinc.
    rewrite (getNestedValue_truthy oldObj path); [reflexivity|].
    rewrite Hold. congruence.
  - intros Hnew. unfold compareSimplePath. rewrite Hold.
    destruct (getNestedValue newObj path) as [v| |p]; try reflexivity.
    destruct v; try reflexivity. simpl.
    destruct (String.eqb_spec s s0) as [->|_]; [contradiction|reflexivity].
  - intros Hnew. unfold compareSimplePath. rewrite Hold, Hnew. simpl.
    now rewrite String.eqb_refl.
Qed.

Lemma single_string_leaf_diff_witness :
  compareSimplePath (field "image" (JStr "A")) (field "image" (JStr "B")) "image"
  = [JStr "A"]
  /\ compareSimplePath (field "image" (JStr "A")) (JObj []) "image" = [JStr "A"]
  /\ compareSimplePath (field "image" (JStr "A")) (field "image" (JStr "A")) "image"
     = [].
Proof.
  split; [|split].
  - apply (single_string_leaf_diff (field "image" (JStr "A"))
             (field "image" (JStr "B")) "image" "A" eq_refl eq_refl).
    vm_compute. discriminate.
  - apply (single_string_leaf_diff (field "image" (JStr "A"))
             (JObj []) "image" "A" eq_refl eq_refl).
    vm_compute. discriminate.
  - apply (single_string_leaf_diff (field "image" (JStr "A"))
             (field "image" (JStr "A")) "image" "A" eq_refl eq_refl).
    reflexivity.
Defined.

(** C3, as the claim has it, fails on an empty string: the first old
    element exists and differs from the first new element, the second
    old element lies beyond the end of the new array, and neither is
    handed to [deleteImage]. *)
Lemma positional_diff_counterexample :
  let oldDoc := field "images" (images [""; "B"]) in
  let newDoc := field "images" (images ["X"; "B"]) in
  let shorter := field "images" (images ["B"]) in
  getNestedValue oldDoc "images" = AVal (images [""; "B"])
  /\ js_index (getNestedValue newDoc "images") 0 <> JStr ""
  /\ ~ In (JStr "") (compareAndDeleteByPath oldDoc newDoc "images")
  /\ getNestedValue (field "images" (images ["B"; ""])) "images" = AVal (images ["B"; ""])
  /\ js_index (getNestedValue shorter "images") 1 = JUndefined
  /\ ~ In (JStr "")
        (compareAndDeleteByPath (field "images" (images ["B"; ""])) shorter "images").
Proof.
  vm_compute. repeat split; try discriminate; intros H; exact H.
Qed.

(** C3, amended. At a path whose leaf is a sequence (the path itself, or
    the array before a final [[]]), differential cleanup compares
    position by position: what it hands to [deleteImage] is the old
    elements, in order, that are truthy and differ from the new element
    at the same index; so an old string is handed over exactly when it
    is non-empty and differs from its counterpart, and every non-empty
    old string beyond the end of the new array is. *)
Theorem positional_diff (oldObj newObj : JsVal) (path : string) (olds : list JsVal) :
  includes "[]" path = false \/ remainingPathOf path = "" ->
  getNestedValue oldObj (leafPath path) = AVal (JArr olds) ->
  let newLeaf := getNestedValue newObj (leafPath path) in
  let marked := compareAndDeleteByPath oldObj newObj path in
  marked = positionalDiff newLeaf 0 olds
  /\ (forall s, In (JStr s) marked <->
                exists i, nth_error olds i = Some (JStr s)
                          /\ s <> ""
                          /\ js_index newLeaf i <> JStr s)
  /\ (forall news i s,
        newLeaf = AVal (JArr news) ->
        List.length news <= i ->
        nth_error olds i = Some (JStr s) ->
        s <> "" ->
        In (JStr s) marked).
Proof.
  intros Hshape Hold newLeaf marked.
  assert (Hmarked : marked = positionalDiff newLeaf 0 olds).
  { unfold marked.
    rewrite (compareAndDeleteByPath_leaf_array oldObj newObj path olds Hshape Hold).
    apply compareImages_positional. }
  assert (Hiff : forall s, In (JStr s) marked <->
                 exists i, nth_error olds i = Some (JStr s)
                           /\ s <> "" /\ js_index newLeaf i <> JStr s).
  { intros s. rewrite Hmarked, in_positionalDiff. split.
    - intros [i [Hn [Ht Hd]]]. exists i. split; [exact Hn|]. split.
      + now apply truthy_string.
      + intros E. apply strict_eq_string in E. congruence.
    - intros [i [Hn [Hne Hd]]]. exists i. split; [exact Hn|]. split.
      + now apply truthy_string.
      + destruct (strict_eq (JStr s) (js_index newLeaf i)) eqn:E; [|reflexivity].
        apply strict_eq_string in E. contradiction. }
  split; [exact Hmarked|]. split; [exact Hiff|].
  intros news i s Hnew Hlen Hn Hne. apply Hiff. exists i.
  split; [exact Hn|]. split; [exact Hne|].
  rewrite Hnew. simpl. rewrite nth_overflow by exact Hlen. discriminate.
Qed.

Lemma positional_diff_witness :
  compareAndDeleteByPath (field "images" (images ["A"; "B"; "C"]))
                         (field "images" (images ["A"; "X"])) "images"
  = [JStr "B"; JStr "C"]
  /\ compareAndDeleteByPath (field "images" (images ["A"; "B"; "C"]))
                            (field "images" (images ["A"; "X"])) "images[]"
     = [JStr "B"; JStr "C"].
Proof.
  split.
  - apply (positional_diff (field "images" (images ["A"; "B"; "C"]))
             (field "images" (images ["A"; "X"])) "images"
             (map JStr ["A"; "B"; "C"])).
    + left. reflexivity.
    + reflexivity.
  - apply (positional_diff (field "images" (images ["A"; "B"; "C"]))
             (field "images" (images ["A"; "X"])) "images[]"
             (map JStr ["A"; "B"; "C"])).
    + right. reflexivity.
    + reflexivity.
Defined.

(** A path with one [[]] and a sub-path behind it: the walk is positional
    and recurs with the sub-path on each pair of elements. *)
Lemma nested_path_walk (oldObj newObj : JsVal) (path : string) (olds : list JsVal) :
  includes "[]" path = true ->
  remainingPathOf path <> "" ->
  getNestedValue oldObj (arrayPathOf path) = AVal (JArr olds) ->
  compareAndDeleteByPath oldObj newObj path
  = walkItems (fun o n => compareAndDeleteByPath o n (remainingPathOf path))
              (getNestedValue newObj (arrayPathOf path)) 0 olds.
Proof.
  intros Hinc Hrem Hold.
  rewrite compareAndDeleteByPath_unfold, Hinc, Hold.
  rewrite (getNestedValue_truthy oldObj (arrayPathOf path)) by (rewrite Hold; congruence).
  simpl. destruct (String.eqb_spec (remainingPathOf path) ""); [contradiction|reflexivity].
Qed.

Example nested_path_walk_example :
  compareAndDeleteByPath
    (field "points" (JArr [field "image" (JStr "A"); field "image" (JStr "B")]))
    (field "points" (JArr [field "image" (JStr "A"); field "image" (JStr "C")]))
    "points[].image"
  = [JStr "B"].
Proof. reflexivity. Qed.

(** C4. The registry has a path with two [[]].  For it the code does not
    recur with the sub-path that remains after the first [[]]
    ([serviceItemBox[].image]) but with [serviceItemBox] alone: what it
    hands to [deleteImage] is the old element object, for which nothing
    is deleted remotely, whereas recurring with the remaining sub-path on
    the pair of elements hands over the replaced image ["A"]. *)
Theorem nested_path_second_bracket_dropped :
  let path := "dedicatedDeveloperSection.services[].serviceItemBox[].image" in
  imageConfig "HireMainPageData"
  = Own [ "developmentTeamSection.image"; path;
          "whyHireDeveloperforYourProject.detailBox[].image";
          "whyChooseItsForDedicatedResources.detailBox[].image" ]
  /\ arrayPathOf path = "dedicatedDeveloperSection.services"
  /\ remainingPathOf path = "serviceItemBox"
  /\ compareAndDeleteByPath hireMainOld hireMainNew path
     = [field "image" (JStr "A")]
  /\ cleanupOldImages "HireMainPageData" (Returned (Some hireMainOld)) hireMainNew
     = ([field "image" (JStr "A")], CallNext)
  /\ (forall cloudinary,
        destroyed (snd (deleteImages cloudinary
                          (compareAndDeleteByPath hireMainOld hireMainNew path) []))
        = [])
  /\ compareAndDeleteByPath
       (field "serviceItemBox" (JArr [field "image" (JStr "A")]))
       (field "serviceItemBox" (JArr [field "image" (JStr "B")]))
       "serviceItemBox[].image"
     = [JStr "A"].
Proof.
  repeat split; reflexivity.
Qed.

(** C10. Differential cleanup asks for no deletion of a falsy old leaf.
    At a path whose leaf is a sequence, whatever is handed to
    [deleteImage] is truthy, so an old element that is the empty string
    is never handed over, changed or removed as it may be.  At a path
    with a sub-path behind [[]], the elements of the old array that are
    not objects contribute nothing: the result is that of the walk, which
    passes them by, and an array without objects yields nothing.  And a
    falsy value handed to [deleteImage] reaches the remote service in no
    way. *)
Theorem falsy_old_leaf_never_deleted :
  (forall oldObj newObj path olds,
      includes "[]" path = false \/ remainingPathOf path = "" ->
      getNestedValue oldObj (leafPath path) = AVal (JArr olds) ->
      (forall x, In x (compareAndDeleteByPath oldObj newObj path) -> truthy x = true)
      /\ ~ In (JStr "") (compareAndDeleteByPath oldObj newObj path))
  /\ (forall oldObj newObj path olds,
        includes "[]" path = true ->
        remainingPathOf path <> "" ->
        getNestedValue oldObj (arrayPathOf path) = AVal (JArr olds) ->
        compareAndDeleteByPath oldObj newObj path
        = walkItems (fun o n => compareAndDeleteByPath o n (remainingPathOf path))
                    (getNestedValue newObj (arrayPathOf path)) 0 olds
        /\ (Forall (fun o => truthy o && typeof_object o = false) olds ->
            compareAndDeleteByPath oldObj newObj path = []))
  /\ (forall recur newArray i oldItem rest,
        truthy oldItem && typeof_object oldItem = false ->
        walkItems recur newArray i (oldItem :: rest)
        = walkItems recur newArray (S i) rest)
  /\ (forall cloudinary v trace,
        truthy v = false ->
        deleteImage cloudinary v trace = (Returned tt, trace)).
Proof.
  split; [|split; [|split]].
  - intros oldObj newObj path olds Hshape Hold.
    rewrite (compareAndDeleteByPath_leaf_array oldObj newObj path olds Hshape Hold).
    rewrite compareImages_positional.
    assert (H : forall x,
               In x (positionalDiff (getNestedValue newObj (leafPath path)) 0 olds) ->
               truthy x = true).
    { intros x Hin. apply in_positionalDiff in Hin.
      destruct Hin as [i [_ [Ht _]]]. exact Ht. }
    split; [exact H|]. intros Hin. apply H in Hin. discriminate.
  - intros oldObj newObj path olds Hinc Hrem Hold.
    rewrite (nested_path_walk oldObj newObj path olds Hinc Hrem Hold).
    split; [reflexivity|]. clear Hold.
    generalize 0. intros i Hall. revert i.
    induction Hall as [|o rest Ho _ IH]; intros i; simpl; [reflexivity|].
    rewrite Ho. exact (IH (S i)).
  - intros recur newArray i oldItem rest H. simpl. now rewrite H.
  - intros cloudinary v trace Hv. unfold deleteImage. now rewrite Hv.
Qed.

Lemma falsy_old_leaf_never_deleted_witness :
  ~ In (JStr "")
       (compareAndDeleteByPath (field "images" (images [""; "B"]))
                               (field "images" (images ["X"])) "images")
  /\ compareAndDeleteByPath (field "points" (JArr [JStr "A"; JNum 3; JNull]))
                            (field "points" (JArr [])) "points[].image"
     = [].
Proof.
  split.
  - apply (proj1 falsy_old_leaf_never_deleted
             (field "images" (images [""; "B"])) (field "images" (images ["X"]))
             "images" (map JStr [""; "B"])).
    + left. reflexivity.
    + reflexivity.
  - apply (proj1 (proj2 falsy_old_leaf_never_deleted)
             (field "points" (JArr [JStr "A"; JNum 3; JNull]))
             (field "points" (JArr [])) "points[].image"
             [JStr "A"; JNum 3; JNull]).
    + reflexivity.
    + vm_compute. discriminate.
    + reflexivity.
    + repeat constructor.
Defined.

(** ** The gateway: which identifier is derived *)

Module GatewayFacts.

Import StringFacts.

Lemma append_nil_r (s : string) : s ++ "" = s.
Proof. induction s as [|c s IH]; simpl; [reflexivity|now rewrite IH]. Qed.

Lemma append_assoc (a b c : string) : (a ++ b) ++ c = a ++ (b ++ c).
Proof. induction a as [|x a IH]; simpl; [reflexivity|now rewrite IH]. Qed.

Lemma prefix_char (c a : ascii) (s : string) :
  prefix (String c "") (String a s) = Ascii.eqb c a.
Proof.
  simpl. destruct (ascii_dec c a) as [->|Hne].
  - rewrite Ascii.eqb_refl. now destruct s.
  - symmetry. now apply Ascii.eqb_neq.
Qed.

Lemma split_from_not_nil (sep : string) :
  forall s skip cur, split_from sep skip cur s <> [].
Proof.
  induction s as [|a s IH]; intros skip cur; cbn [split_from]; [discriminate|].
  destruct skip; [|apply IH].
  destruct (prefix sep (String a s)); [discriminate|apply IH].
Qed.

Lemma last_cons_not_nil (A : Type) (x d : A) (l : list A) :
  l <> [] -> last (x :: l) d = last l d.
Proof. destruct l; [congruence|reflexivity]. Qed.

(** The first piece of a split at a character: what precedes its first
    occurrence. *)
Lemma split_char_first (c : ascii) :
  forall s cur,
    exists pre,
      hd "" (split_from (String c "") 0 cur s) = cur ++ pre
      /\ hasChar c pre = false
      /\ (s = pre \/ exists rest, s = pre ++ String c rest).
Proof.
  induction s as [|a s IH]; intros cur.
  - exists "". cbn. rewrite append_nil_r. auto.
  - cbn [split_from]. rewrite prefix_char.
    destruct (Ascii.eqb c a) eqn:E.
    + apply Ascii.eqb_eq in E. subst a. exists "". cbn.
      rewrite append_nil_r. split; [reflexivity|]. split; [reflexivity|].
      right. now exists s.
    + destruct (IH (cur ++ String a "")) as [pre [Hhd [Hno Hs]]].
      exists (String a pre). rewrite Hhd, append_assoc. cbn.
      rewrite E, Hno. split; [reflexivity|]. split; [reflexivity|].
      destruct Hs as [->|[rest ->]]; [now left|right; now exists rest].
Qed.

(** The last piece of a split at a character: what follows its last
    occurrence. *)
Lemma split_char_last (c : ascii) :
  forall s cur,
    (hasChar c s = false
     /\ last (split_from (String c "") 0 cur s) "" = cur ++ s)
    \/ (exists dir seg,
          s = dir ++ String c seg
          /\ hasChar c seg = false
          /\ last (split_from (String c "") 0 cur s) "" = seg).
Proof.
  induction s as [|a s IH]; intros cur.
  - left. cbn. now rewrite append_nil_r.
  - cbn [split_from]. rewrite prefix_char. cbn [String.length Nat.sub].
    destruct (Ascii.eqb c a) eqn:E.
    + apply Ascii.eqb_eq in E. subst a. right.
      rewrite last_cons_not_nil by apply split_from_not_nil.
      destruct (IH "") as [[Hno Hl]|[dir [seg [Hs [Hno Hl]]]]].
      * exists "", s. cbn in Hl. cbn. auto.
      * exists (String c dir), seg. rewrite Hs at 1. cbn. auto.
    + destruct (IH (cur ++ String a "")) as [[Hno Hl]|[dir [seg [Hs [Hno Hl]]]]].
      * left. cbn. rewrite E, Hno, Hl, append_assoc. auto.
      * right. exists (String a dir), seg. rewrite Hs at 1. cbn. auto.
Qed.

Lemma split_last_segment (s : string) :
  lastSegment s (last (split "/" s) "").
Proof.
  unfold lastSegment, split.
  destruct (split_char_last "/" s "") as [[Hno Hl]|[dir [seg [Hs [Hno Hl]]]]];
    rewrite Hl.
  - cbn. auto.
  - split; [exact Hno|]. right. now exists dir.
Qed.

Lemma split_cut_at_first_dot (seg : string) :
  cutAtFirstDot seg (hd "" (split "." seg)).
Proof.
  unfold cutAtFirstDot, split.
  destruct (split_char_first "." seg "") as [pre [Hhd [Hno Hs]]].
  rewrite Hhd. cbn. auto.
Qed.

Lemma destroyed_app (t1 t2 : list Event) :
  destroyed (t1 ++ t2) = (destroyed t1 ++ destroyed t2)%list.
Proof. unfold destroyed. apply flat_map_app. Qed.

Section Gateway.

Variable cloudinary : list Event -> string -> DestroyOutcome.

(** [deleteImage] on a non-empty string, up to the remote call. *)
Lemma deleteImage_string_unfold (s : string) (trace : list Event) :
  s <> "" ->
  deleteImage cloudinary (JStr s) trace
  = let id := hd "" (split "." (last (split "/" s) "")) in
    if id =? "" then (Returned tt, trace)
    else
      match cloudinary trace id with
      | Resolved result =>
          (Returned tt,
           (trace ++ [Destroy id])
             ++ [if result =? "ok" then Console info "Successfully deleted"
                 else if result =? "not found"
                      then Console warning "Image not found on Cloudinary"
                      else Console error "Failed to delete"])%list
      | Rejected _ =>
          (Returned tt,
           (trace ++ [Destroy id]) ++ [Console error "Error deleting image"])%list
      end.
Proof.
  intros Hs. unfold deleteImage, extractPublicId.
  assert (Ht : truthy (JStr s) = true) by (cbn; now destruct (String.eqb_spec s "")).
  rewrite Ht. cbv zeta. cbn [negb].
  unfold bind at 1, try_catch at 1, ret at 1.
  destruct (hd "" (split "." (last (split "/" s) "")) =? ""); [reflexivity|].
  unfold try_catch, bind, destroy, console, modify.
  destruct (cloudinary trace _) as [result|message]; [|reflexivity].
  destruct (result =? "ok"); [reflexivity|].
  destruct (result =? "not found"); reflexivity.
Qed.

(** The remote call and what is logged after it. *)
Lemma deleteImage_string (s : string) (trace : list Event) :
  s <> "" ->
  let id := hd "" (split "." (last (split "/" s) "")) in
  fst (deleteImage cloudinary (JStr s) trace) = Returned tt
  /\ (id = "" -> snd (deleteImage cloudinary (JStr s) trace) = trace)
  /\ (id <> "" ->
      exists level text,
        snd (deleteImage cloudinary (JStr s) trace)
        = (trace ++ [Destroy id; Console level text])%list).
Proof.
  intros Hs id. rewrite (deleteImage_string_unfold s trace Hs).
  cbv zeta. fold id.
  destruct (String.eqb_spec id "") as [E|E].
  - split; [reflexivity|]. split; [reflexivity|]. intros Hne. contradiction.
  - destruct (cloudinary trace id) as [result|message];
      (split; [reflexivity|]; split; [intros; contradiction|]; intros _;
       cbn [snd]; rewrite <- app_assoc; cbn [app];
       try (destruct (result =? "ok"); [|destruct (result =? "not found")]);
       do 2 eexists; reflexivity).
Qed.

(** A value that is no string has no [split]: the [TypeError] is caught
    and logged, and nothing is asked of the remote service. *)
Lemma deleteImage_not_string (v : JsVal) (trace : list Event) :
  is_string v = false ->
  fst (deleteImage cloudinary v trace) = Returned tt
  /\ destroyed (snd (deleteImage cloudinary v trace)) = destroyed trace.
Proof.
  intros Hv. unfold deleteImage, extractPublicId.
  destruct (truthy v) eqn:Ht; cbn [negb]; [|split; reflexivity].
  destruct v; try discriminate; cbn; rewrite destroyed_app, app_nil_r; auto.
Qed.

Lemma deleteImage_returns (v : JsVal) (trace : list Event) :
  fst (deleteImage cloudinary v trace) = Returned tt.
Proof.
  destruct (is_string v) eqn:E.
  - destruct v; try discriminate.
    destruct (String.eqb_spec s "") as [->|Hne]; [reflexivity|].
    now apply deleteImage_string.
  - now apply deleteImage_not_string.
Qed.

Lemma deleteImages_returns (urls : list JsVal) :
  forall trace, fst (deleteImages cloudinary urls trace) = Returned tt.
Proof.
  induction urls as [|v rest IH]; intros trace; [reflexivity|].
  cbn [deleteImages]. unfold bind.
  pose proof (deleteImage_returns v trace) as H.
  destruct (deleteImage cloudinary v trace) as [[[]|e] trace']; cbn in H;
    [apply IH|discriminate].
Qed.

End Gateway.

End GatewayFacts.

(** ** The gateway and the registry: the claims *)

Import GatewayFacts.

(** C7, as the claim has it, fails on a reference to some other site:
    the gateway has no test of where a reference comes from, derives
    ["cat"] from it and asks the remote service to delete that.  And the
    last segment is cut at its first dot, not at its extension:
    ["hero.banner.png"] gives ["hero"]. *)
Lemma gateway_counterexample :
  destroyed (snd (deleteImage (fun _ _ => Resolved "not found")
                    (JStr "https://example.com/pics/cat.png") []))
  = ["cat"]
  /\ destroyed (snd (deleteImage (fun _ _ => Resolved "ok")
                       (JStr "https://res.cloudinary.com/its/image/upload/v1/hero.banner.png")
                       []))
     = ["hero"].
Proof. split; reflexivity. Qed.

(** C7, amended. For a reference that is a non-empty string the gateway
    takes the last [/]-separated segment, cuts it at its first dot, and,
    when what is left is not empty, asks the remote service to delete
    exactly that, wherever the reference comes from; when nothing is
    left it does nothing.  A null or empty reference causes no attempt
    and no log; a reference that is no string causes no attempt.  The
    gateway returns in every case. *)
Theorem gateway_derives_identifier
    (cloudinary : list Event -> string -> DestroyOutcome)
    (url : JsVal) (trace : list Event) :
  let after := snd (deleteImage cloudinary url trace) in
  fst (deleteImage cloudinary url trace) = Returned tt
  /\ (forall s, url = JStr s -> s <> "" ->
      exists seg id,
        lastSegment s seg
        /\ cutAtFirstDot seg id
        /\ (id <> "" -> destroyed after = (destroyed trace ++ [id])%list)
        /\ (id = "" -> after = trace))
  /\ (truthy url = false -> after = trace)
  /\ (is_string url = false -> destroyed after = destroyed trace).
Proof.
  intros after. split; [apply deleteImage_returns|]. split; [|split].
  - intros s -> Hs.
    exists (last (split "/" s) ""), (hd "" (split "." (last (split "/" s) ""))).
    split; [apply split_last_segment|]. split; [apply split_cut_at_first_dot|].
    destruct (deleteImage_string cloudinary s trace Hs) as [_ [Hempty Hid]].
    split; [|exact Hempty].
    intros Hne. destruct (Hid Hne) as [level [text Hafter]].
    unfold after. rewrite Hafter, destroyed_app. reflexivity.
  - intros Hf. unfold after, deleteImage. now rewrite Hf.
  - intros Hns. now apply deleteImage_not_string.
Qed.

Lemma gateway_derives_identifier_witness :
  (exists seg id,
      lastSegment "uploads/2024/logo.png" seg
      /\ cutAtFirstDot seg id
      /\ (id <> "" ->
          destroyed (snd (deleteImage (fun _ _ => Rejected "timeout")
                            (JStr "uploads/2024/logo.png") []))
          = [id])
      /\ (id = "" ->
          snd (deleteImage (fun _ _ => Rejected "timeout")
                 (JStr "uploads/2024/logo.png") []) = []))
  /\ snd (deleteImage (fun _ _ => Resolved "ok") JNull []) = [].
Proof.
  split.
  - apply (proj1 (proj2 (gateway_derives_identifier
                           (fun _ _ => Rejected "timeout")
                           (JStr "uploads/2024/logo.png") []))
             "uploads/2024/logo.png" eq_refl).
    discriminate.
  - apply (proj1 (proj2 (proj2 (gateway_derives_identifier
                                  (fun _ _ => Resolved "ok") JNull [])))).
    reflexivity.
Defined.

Lemma assoc_none (A : Type) (key : string) (l : list (string * A)) :
  mem key (map fst l) = false -> assoc key l = None.
Proof.
  induction l as [|[k v] l IH]; simpl; [reflexivity|].
  rewrite String.eqb_sym. destruct (k =? key); simpl; [discriminate|exact IH].
Qed.

(** C5. Cleanup on a type that is not registered is a no-op.  For a
    record-type name that the registry does not have, neither middleware
    marks anything for deletion, whatever the name.  When the name is
    not one of those every object answers to through [Object.prototype]
    (no name of a model is), the list of paths is empty and nothing is
    raised: full cleanup returns without asking for a deletion, and both
    middlewares hand the request on, for every record and every body. *)
Theorem unregistered_name_is_noop (modelName : string) (record body : JsVal) :
  registered modelName = false ->
  (forall found,
      fst (cleanupImages modelName found) = []
      /\ fst (cleanupOldImages modelName found body) = [])
  /\ (mem modelName objectPrototypeKeys = false ->
      pathsOf modelName = Returned []
      /\ deleteImagesByConfig record modelName = Returned []
      /\ cleanupImages modelName (Returned (Some record)) = ([], CallNext)
      /\ cleanupOldImages modelName (Returned (Some record)) body = ([], CallNext)).
Proof.
  intros Hreg.
  assert (Hp : pathsOf modelName
               = if mem modelName objectPrototypeKeys
                 then Thrown (TypeError "paths is not iterable") else Returned []).
  { unfold pathsOf, imageConfig, lookup.
    rewrite (assoc_none _ modelName table Hreg).
    destruct (mem modelName objectPrototypeKeys); reflexivity. }
  split.
  - intros [[found|]|e]; unfold cleanupImages, cleanupOldImages, deleteImagesByConfig;
      rewrite ?Hp; try (split; reflexivity).
    destruct (negb (truthy found)), (mem modelName objectPrototypeKeys); split; reflexivity.
  - intros Hproto. rewrite Hproto in Hp. split; [exact Hp|].
    unfold cleanupImages, cleanupOldImages, deleteImagesByConfig. rewrite Hp.
    destruct (negb (truthy record)); auto.
Qed.

(** The models [ExpertiseIndustries] and [Testimonials] are registered
    under other spellings ([ExpertiseIndustry], [Testimonial]), so
    [cleanupImages(model)], which goes by [model.modelName], does nothing
    on their DELETE routes. *)
Lemma unregistered_name_is_noop_witness :
  cleanupImages "ExpertiseIndustries"
    (Returned (Some (field "image" (JStr "https://res.cloudinary.com/its/industry.png"))))
  = ([], CallNext)
  /\ cleanupImages "Testimonials"
       (Returned (Some (field "image" (JStr "https://res.cloudinary.com/its/client.png"))))
     = ([], CallNext)
  /\ cleanupOldImages "ExpertiseIndustries"
       (Returned (Some (field "image" (JStr "https://res.cloudinary.com/its/old.png"))))
       (field "image" (JStr "https://res.cloudinary.com/its/new.png"))
     = ([], CallNext).
Proof.
  split; [|split].
  - apply (proj1 (proj2 (proj2 (proj2 (unregistered_name_is_noop "ExpertiseIndustries"
             (field "image" (JStr "https://res.cloudinary.com/its/industry.png")) JNull
             eq_refl) eq_refl)))).
  - apply (proj1 (proj2 (proj2 (proj2 (unregistered_name_is_noop "Testimonials"
             (field "image" (JStr "https://res.cloudinary.com/its/client.png")) JNull
             eq_refl) eq_refl)))).
  - apply (proj2 (proj2 (proj2 (proj2 (unregistered_name_is_noop "ExpertiseIndustries"
             (field "image" (JStr "https://res.cloudinary.com/its/old.png"))
             (field "image" (JStr "https://res.cloudinary.com/its/new.png"))
             eq_refl) eq_refl)))).
Defined.

(** Outside the names of models: a name that the registry does not have
    but every object inherits, such as ["constructor"].  The lookup
    yields a function, [|| []] keeps it, and iterating it raises a
    [TypeError]; both middlewares answer with status 500.  No route
    passes such a name. *)
Example unregistered_inherited_name_raises :
  let record := field "image" (JStr "https://res.cloudinary.com/its/a.png") in
  registered "constructor" = false
  /\ imageConfig "constructor" = Inherited
  /\ deleteImagesByConfig record "constructor"
     = Thrown (TypeError "paths is not iterable")
  /\ cleanupImages "constructor" (Returned (Some record)) = ([], Status500)
  /\ cleanupOldImages "constructor" (Returned (Some record)) record
     = ([], Status500).
Proof. repeat split; reflexivity. Qed.

(** ** The synchroniser: a logic of its computations *)

Module SeoFacts.

Import SeoSync.

Lemma hoare_ret {A : Type} (a : A) (Q : A -> World -> Prop) (E : World -> Prop) :
  Hoare (Q a) (ret a) Q E.
Proof. intros w H. exact H. Qed.

Lemma hoare_throw {A : Type} (e : Exn) (Q : A -> World -> Prop) (E : World -> Prop) :
  Hoare E (throw e) Q E.
Proof. intros w H. exact H. Qed.

Lemma hoare_bind {A B : Type} (P : World -> Prop) (c : M World A)
    (R : A -> World -> Prop) (k : A -> M World B)
    (Q : B -> World -> Prop) (E : World -> Prop) :
  Hoare P c R E ->
  (forall a, Hoare (R a) (k a) Q E) ->
  Hoare P (bind c k) Q E.
Proof.
  intros Hc Hk w HP. unfold bind. specialize (Hc w HP).
  destruct (c w) as [[a|e] w']; [apply (Hk a w' Hc)|exact Hc].
Qed.

Lemma hoare_try_catch {A : Type} (P : World -> Prop) (body : M World A)
    (handler : Exn -> M World A) (Q : A -> World -> Prop) (E' E : World -> Prop) :
  Hoare P body Q E' ->
  (forall e, Hoare E' (handler e) Q E) ->
  Hoare P (try_catch body handler) Q E.
Proof.
  intros Hb Hh w HP. unfold try_catch. specialize (Hb w HP).
  destruct (body w) as [[a|e] w']; [exact Hb|apply (Hh e w' Hb)].
Qed.

Lemma hoare_weaken {A : Type} (P P' : World -> Prop) (c : M World A)
    (Q Q' : A -> World -> Prop) (E E' : World -> Prop) :
  Hoare P' c Q' E' ->
  (forall w, P w -> P' w) ->
  (forall a w, Q' a w -> Q a w) ->
  (forall w, E' w -> E w) ->
  Hoare P c Q E.
Proof.
  intros H HP HQ HE w Hw. specialize (H w (HP w Hw)).
  destruct (c w) as [[a|e] w']; auto.
Qed.

(** A call to the database leaves the documents alone unless what it
    runs changes them. *)
Lemma hoare_storeCall {A : Type} (docs : list SeoManager) (c : Call)
    (run : M World A) (Q : A -> World -> Prop) (E : World -> Prop) :
  Hoare (holds docs) run Q E ->
  (forall w, holds docs w -> E w) ->
  Hoare (holds docs) (storeCall c run) Q E.
Proof.
  intros Hrun HE w Hw. unfold storeCall.
  destruct (faults w) as [|[message|] rest].
  - apply Hrun. exact Hw.
  - apply HE. exact Hw.
  - apply Hrun. exact Hw.
Qed.

Lemma hoare_findOne (docs : list SeoManager) (f : Filter) :
  Hoare (holds docs) (findOne f)
        (fun r w => holds docs w /\ foundBy f docs r)
        (holds docs).
Proof.
  unfold findOne. apply hoare_storeCall; [|auto].
  intros w Hw. unfold holds in Hw.
  destruct f as [s|field id|]; cbn; (split; [exact Hw|]); intros d Hd; rewrite Hw in Hd.
  - apply find_some in Hd. tauto.
  - apply find_some in Hd. tauto.
  - split; [|now left]. destruct (strictQuery w); [|discriminate].
    destruct docs; [discriminate|]. injection Hd as ->. now left.
Qed.

(** A [save] writes the document in place of the one with its id, or
    writes nothing. *)
Lemma hoare_save (docs : list SeoManager) (doc : SeoManager) :
  Hoare (holds docs) (save doc)
        (fun _ w => validate doc = None /\ holds (replaceDoc doc docs) w)
        (holds docs).
Proof.
  unfold save. destruct (validate doc) eqn:V; [apply hoare_throw|].
  apply hoare_storeCall; [|auto].
  intros w Hw. unfold holds in *. rewrite Hw.
  destruct (slugTaken doc docs); cbn; auto.
Qed.

Lemma hoare_saveNew (docs : list SeoManager) (doc : SeoManager) :
  Hoare (holds docs) (saveNew doc)
        (fun _ w => validate doc = None /\ holds (docs ++ [doc]) w)
        (holds docs).
Proof.
  unfold saveNew. destruct (validate doc) eqn:V; [apply hoare_throw|].
  apply hoare_storeCall; [|auto].
  intros w Hw. unfold holds in *. rewrite Hw.
  destruct (slugTaken doc docs); cbn; auto.
Qed.

Lemma hoare_findOneAndDelete (docs : list SeoManager) (s : string) :
  Hoare (holds docs) (findOneAndDelete s)
        (fun _ w => holds (removeFirst (matches (BySlug s)) docs) w)
        (holds docs).
Proof.
  unfold findOneAndDelete. apply hoare_storeCall; [|auto].
  intros w Hw. unfold holds in *. cbn. now rewrite Hw.
Qed.

Lemma hoare_findByIdAndUpdate (docs : list SeoManager) (c : Collection)
    (id : ObjectId) (newSlug : string) (subCategory : option string) :
  Hoare (holds docs) (findByIdAndUpdate c id newSlug subCategory)
        (fun _ w => holds docs w) (holds docs).
Proof.
  unfold findByIdAndUpdate. apply hoare_storeCall; [|auto].
  intros w Hw. exact Hw.
Qed.

(** The handler of every operation: log, and throw again. *)
Lemma hoare_rethrow {A : Type} (line : string) (e : Exn) (I : list SeoManager -> Prop)
    (Q : A -> World -> Prop) :
  Hoare (fun w => I (seoManagers w))
        (consoleError line ;; throw e)
        Q (fun w => I (seoManagers w)).
Proof. intros w Hw. exact Hw. Qed.

(** ** The invariant *)

Lemma allInvariant_replaceDoc (doc : SeoManager) (docs : list SeoManager) :
  allInvariant docs -> invariant doc = true -> allInvariant (replaceDoc doc docs).
Proof.
  intros Hall Hdoc d Hin. unfold replaceDoc in Hin.
  apply in_map_iff in Hin. destruct Hin as [d0 [Hd Hin]].
  destruct (Nat.eqb (_id d0) (_id doc)); subst d; auto.
Qed.

Lemma allInvariant_app (doc : SeoManager) (docs : list SeoManager) :
  allInvariant docs -> invariant doc = true -> allInvariant (docs ++ [doc]).
Proof.
  intros Hall Hdoc d Hin. apply in_app_or in Hin.
  destruct Hin as [Hin|[<-|[]]]; auto.
Qed.

Lemma removeFirst_incl (p : SeoManager -> bool) (docs : list SeoManager) :
  incl (removeFirst p docs) docs.
Proof.
  induction docs as [|d docs IH]; simpl; [apply incl_refl|].
  destruct (p d).
  - apply incl_tl, incl_refl.
  - intros x [<-|Hx]; [now left|right; now apply IH].
Qed.

Lemma allInvariant_removeFirst (p : SeoManager -> bool) (docs : list SeoManager) :
  allInvariant docs -> allInvariant (removeFirst p docs).
Proof. intros Hall d Hin. apply Hall. exact (removeFirst_incl p docs d Hin). Qed.

Lemma linkFieldMap_own (type : string) (f : LinkField) :
  lookup linkFieldMap type = Own f ->
  (type = "service" /\ f = linkedServiceField)
  \/ (type = "hire" /\ f = linkedHirePageField).
Proof.
  unfold lookup, linkFieldMap. cbn [assoc].
  destruct (String.eqb_spec "service" type) as [<-|_].
  - intros H. injection H as <-. now left.
  - destruct (String.eqb_spec "hire" type) as [<-|_].
    + intros H. injection H as <-. now right.
    + destruct (mem type objectPrototypeKeys); discriminate.
Qed.

Lemma linkFieldMap_inherited (type : string) :
  lookup linkFieldMap type = Inherited -> mem type linkedTypeEnum = false.
Proof.
  unfold lookup, linkFieldMap, linkedTypeEnum. cbn [assoc mem existsb].
  rewrite (String.eqb_sym "service" type), (String.eqb_sym "hire" type).
  destruct (type =? "service"); [discriminate|].
  destruct (type =? "hire"); [discriminate|].
  destruct (String.eqb_spec type "independent") as [->|_]; [discriminate|].
  reflexivity.
Qed.

Lemma linkFieldMap_missing (type : string) :
  type <> "service" -> type <> "hire" ->
  mem type objectPrototypeKeys = false ->
  lookup linkFieldMap type = Missing.
Proof.
  intros Hs Hh Hp. unfold lookup, linkFieldMap. cbn [assoc].
  destruct (String.eqb_spec "service" type); [congruence|].
  destruct (String.eqb_spec "hire" type); [congruence|].
  now rewrite Hp.
Qed.

Lemma validate_type (doc : SeoManager) :
  validate doc = None -> mem (linkedType doc) linkedTypeEnum = true.
Proof.
  unfold validate.
  destruct (negb (nonEmpty (title doc))); [discriminate|].
  destruct (slug doc =? ""); [discriminate|].
  destruct (mem (linkedType doc) linkedTypeEnum); [reflexivity|discriminate].
Qed.

Lemma linkedType_setLink lf id doc :
  linkedType (setLink lf id doc) = linkedType doc.
Proof. destruct lf as [[|]| |]; reflexivity. Qed.

(** What the three cases of [syncSeoData] write is acceptable, as long as
    the other link of the document is not set. *)
Lemma written_acceptable (type : string) (lf : Lookup LinkField) (id : ObjectId)
    (base : SeoManager) :
  lookup linkFieldMap type = lf ->
  lf <> Missing ->
  linkedType base = type ->
  isAutoManaged base = true ->
  (forall f, lf = Own f -> linkOf (otherField f) base = None) ->
  acceptable (setLink lf (Some id) base).
Proof.
  intros Hl Hmiss Hty Hauto Hother Hval.
  destruct lf as [f| |]; [| |congruence].
  - specialize (Hother f eq_refl).
    destruct (linkFieldMap_own type f Hl) as [[-> ->]|[-> ->]];
      cbn in Hother; unfold invariant, exactlyOneLink, contentType;
      cbn; rewrite Hty, Hauto, Hother; reflexivity.
  - apply validate_type in Hval. rewrite linkedType_setLink, Hty in Hval.
    rewrite (linkFieldMap_inherited type Hl) in Hval. discriminate.
Qed.

Lemma holds_sound (docs : list SeoManager) (w : World) :
  allInvariant docs -> holds docs w -> sound w.
Proof. intros Hall Hw. unfold sound. now rewrite Hw. Qed.

Lemma hoare_save_sound {A : Type} (docs : list SeoManager) (doc : SeoManager) (a : A) :
  allInvariant docs ->
  acceptable doc ->
  Hoare (holds docs) (save doc ;; ret a) (fun _ => sound) sound.
Proof.
  intros Hall Hacc. eapply hoare_bind.
  - eapply hoare_weaken; [apply (hoare_save docs)|auto|intros u w H; exact H|].
    intros w Hw. now apply (holds_sound docs).
  - intros _ w [Hval Hw]. cbn. unfold sound. rewrite Hw.
    apply allInvariant_replaceDoc; auto.
Qed.

Lemma hoare_saveNew_sound {A : Type} (docs : list SeoManager) (doc : SeoManager) (a : A) :
  allInvariant docs ->
  acceptable doc ->
  Hoare (holds docs) (saveNew doc ;; ret a) (fun _ => sound) sound.
Proof.
  intros Hall Hacc. eapply hoare_bind.
  - eapply hoare_weaken; [apply (hoare_saveNew docs)|auto|intros u w H; exact H|].
    intros w Hw. now apply (holds_sound docs).
  - intros _ w [Hval Hw]. cbn. unfold sound. rewrite Hw.
    apply allInvariant_app; auto.
Qed.

Lemma foundBy_link_candidate docs lf id newSlug r d :
  foundBy (linkFilter lf id) docs r -> r = Some d -> candidate docs lf id newSlug d.
Proof.
  intros Hf Hr. destruct (Hf d Hr) as [Hin Hm]. split; [exact Hin|].
  intros f ->. right. cbn in Hm. destruct Hm as [Hm|Hm]; [discriminate|].
  unfold opt_eqb in Hm. destruct (linkOf f d) as [x|]; [|discriminate].
  apply Nat.eqb_eq in Hm. now subst.
Qed.

Lemma foundBy_slug_candidate docs lf id newSlug r d :
  foundBy (BySlug newSlug) docs r -> r = Some d -> candidate docs lf id newSlug d.
Proof.
  intros Hf Hr. destruct (Hf d Hr) as [Hin Hm]. split; [exact Hin|].
  intros f _. left. destruct Hm as [Hm|Hm]; [discriminate|].
  cbn in Hm. now apply String.eqb_eq.
Qed.

(** [syncSeoData] with a linked id keeps the invariant of every stored
    record, provided the records it may update carry no link of the
    other kind. *)
Lemma syncSeoData_sound (docs : list SeoManager) (subCategory : option string)
    (newSlug : string) (newTitle : option string) (type : string) (id : ObjectId) :
  allInvariant docs ->
  (forall d f,
      In d docs ->
      lookup linkFieldMap type = Own f ->
      slug d = newSlug \/ linkOf f d = Some id ->
      linkOf (otherField f) d = None) ->
  Hoare (holds docs)
        (syncSeoData subCategory newSlug newTitle type (Some id))
        (fun _ => sound) sound.
Proof.
  intros Hall Hother. unfold syncSeoData.
  apply hoare_try_catch with (E' := sound);
    [|intros e; apply (hoare_rethrow _ e allInvariant)].
  cbv zeta.
  set (seoTitle := if nonEmpty subCategory then subCategory else newTitle).
  assert (Hwrite : forall lf d text1 text2 text3 text4,
             lookup linkFieldMap type = lf -> lf <> Missing ->
             candidate docs lf id newSlug d ->
             acceptable (setLink lf (Some id)
                           (mkSeo (_id d) seoTitle newSlug text1 text2 text3 text4
                                  (linkedService d) (linkedHirePage d) type true))).
  { intros lf d t1 t2 t3 t4 Hl Hm [Hin Hc].
    apply (written_acceptable type lf id); auto.
    intros f ->. specialize (Hother d f Hin Hl (Hc f eq_refl)).
    destruct f; exact Hother. }
  assert (Hnew : forall lf n text1 text2 text3 text4,
             lookup linkFieldMap type = lf -> lf <> Missing ->
             acceptable (setLink lf (Some id)
                           (mkSeo n seoTitle newSlug text1 text2 text3 text4
                                  None None type true))).
  { intros lf n t1 t2 t3 t4 Hl Hm.
    apply (written_acceptable type lf id); auto.
    intros f _. destruct f; reflexivity. }
  assert (Hrest : forall lf,
             lookup linkFieldMap type = lf -> lf <> Missing ->
             Hoare (holds docs)
               (byId <- findOne (linkFilter lf id) ;;
                existingSeo <- match byId with
                               | Some doc => ret (Some doc)
                               | None => findOne (BySlug newSlug)
                               end ;;
                match existingSeo with
                | Some doc =>
                    if negb (isAutoManaged doc) && (linkedType doc =? "independent")
                    then save (converted lf seoTitle newSlug type (Some id) doc) ;;
                         ret (converted lf seoTitle newSlug type (Some id) doc)
                    else if isAutoManaged doc || (linkedType doc =? type)
                    then save (updated lf seoTitle newSlug type (Some id) doc) ;;
                         ret (updated lf seoTitle newSlug type (Some id) doc)
                    else ret doc
                | None =>
                    n <- freshId ;;
                    saveNew (created lf seoTitle newSlug type (Some id) n) ;;
                    ret (created lf seoTitle newSlug type (Some id) n)
                end)
               (fun _ => sound) sound).
  { intros lf Hl Hm.
    eapply hoare_bind.
    { eapply hoare_weaken; [apply (hoare_findOne docs)|auto|intros a w H; exact H|].
      intros w Hw. now apply (holds_sound docs). }
    intros byId.
    apply hoare_bind
      with (R := fun r w => holds docs w
                            /\ forall d, r = Some d -> candidate docs lf id newSlug d).
    { destruct byId as [d0|].
      - intros w [Hw Hf]. cbn. split; [exact Hw|].
        intros d Hd. now apply (foundBy_link_candidate docs lf id newSlug (Some d0)).
      - eapply hoare_weaken; [apply (hoare_findOne docs)|tauto| |].
        + intros r w [Hw Hf]. split; [exact Hw|].
          intros d Hd. now apply (foundBy_slug_candidate docs lf id newSlug r).
        + intros w Hw. now apply (holds_sound docs). }
    intros [d|] w [Hw Hc].
    - specialize (Hc d eq_refl).
      destruct (negb (isAutoManaged d) && (linkedType d =? "independent")).
      + apply (hoare_save_sound docs); auto. unfold converted. now apply Hwrite.
      + destruct (isAutoManaged d || (linkedType d =? type)).
        * apply (hoare_save_sound docs); auto. unfold updated. now apply Hwrite.
        * cbn. now apply (holds_sound docs).
    - unfold bind at 1. unfold freshId at 1.
      apply (hoare_saveNew_sound docs); auto. unfold created. now apply Hnew. }
  destruct (lookup linkFieldMap type) as [f| |] eqn:L.
  - apply Hrest; [reflexivity|discriminate].
  - apply Hrest; [reflexivity|discriminate].
  - intros w Hw. cbn. now apply (holds_sound docs).
Qed.

End SeoFacts.

(** ** The synchroniser: the claims *)

Import SeoFacts SeoSync.

(** Called without a linked id (the default of its last parameter, which
    no route relies on), [syncSeoData] creates a record that is
    auto-managed, of type ['service'], and has no link at all. *)
Lemma invariant_counterexample :
  let w := snd (syncSeoData (Some "React Dev") "react-dev" None "service" None
                  (quiet [] 1)) in
  exists doc,
    seoManagers w = [doc]
    /\ isAutoManaged doc = true
    /\ linkedType doc = "service"
    /\ linkedService doc = None
    /\ linkedHirePage doc = None
    /\ exactlyOneLink doc = false
    /\ invariant doc = false.
Proof. eexists. repeat split. Qed.

(** X1. Where the invariant is kept.  From a store in which every
    record has the invariant, [safeDeleteSeoData], [forceDeleteSeoData]
    and [updateLinkedEntity] lead to a store in which every record has
    it, however the database calls go.  So does [syncSeoData] when it is
    given a linked id and the stored records that have the given slug, or
    are linked to that id by the link field of the type, have no link of
    the other kind; an auto-managed record of the store it leaves then
    has exactly one link. *)
Theorem synchronizer_keeps_invariant (w : World) :
  sound w ->
  (forall s, sound (snd (safeDeleteSeoData s w)))
  /\ (forall s, sound (snd (forceDeleteSeoData s w)))
  /\ (forall seoSlug newSlug newTitle,
         sound (snd (updateLinkedEntity seoSlug newSlug newTitle w)))
  /\ (forall subCategory newSlug newTitle type id,
         (forall d f,
             In d (seoManagers w) ->
             lookup linkFieldMap type = Own f ->
             slug d = newSlug \/ linkOf f d = Some id ->
             linkOf (otherField f) d = None) ->
         let w' := snd (syncSeoData subCategory newSlug newTitle type (Some id) w) in
         sound w'
         /\ (forall d, In d (seoManagers w') ->
                       isAutoManaged d = true -> exactlyOneLink d = true)).
Proof.
  intros Hsound.
  assert (Hrun : forall (A : Type) (c : M World A),
             Hoare (holds (seoManagers w)) c (fun _ => sound) sound ->
             sound (snd (c w))).
  { intros A c H. specialize (H w eq_refl).
    destruct (c w) as [[a|e] w']; exact H. }
  assert (Hfind : forall f,
             Hoare (holds (seoManagers w)) (findOne f)
                   (fun _ w' => holds (seoManagers w) w') sound).
  { intros f. eapply hoare_weaken;
      [apply (hoare_findOne (seoManagers w))|auto|intros a w' [H _]; exact H|].
    intros w' Hw'. now apply (holds_sound (seoManagers w)). }
  assert (Hdelete : forall (A : Type) (a : A) s,
             Hoare (holds (seoManagers w)) (findOneAndDelete s ;; ret a)
                   (fun _ => sound) sound).
  { intros A a s. eapply hoare_bind.
    - eapply hoare_weaken;
        [apply (hoare_findOneAndDelete (seoManagers w))|auto|intros x w' H; exact H|].
      intros w' Hw'. now apply (holds_sound (seoManagers w)).
    - intros _ w' Hw'. cbn. unfold sound. rewrite Hw'.
      now apply allInvariant_removeFirst. }
  split; [|split; [|split]].
  - intros s. apply Hrun. unfold safeDeleteSeoData.
    apply hoare_try_catch with (E' := sound);
      [|intros e; apply (hoare_rethrow _ e allInvariant)].
    eapply hoare_bind; [apply Hfind|].
    intros [entry|].
    + destruct (negb (isAutoManaged entry)); [apply Hdelete|].
      intros w' Hw'. cbn. now apply (holds_sound (seoManagers w)).
    + intros w' Hw'. cbn. now apply (holds_sound (seoManagers w)).
  - intros s. apply Hrun. unfold forceDeleteSeoData.
    apply hoare_try_catch with (E' := sound);
      [|intros e; apply (hoare_rethrow _ e allInvariant)].
    apply Hdelete.
  - intros seoSlug newSlug newTitle. apply Hrun. unfold updateLinkedEntity.
    apply hoare_try_catch with (E' := sound);
      [|intros e; apply (hoare_rethrow _ e allInvariant)].
    eapply hoare_bind; [apply Hfind|].
    assert (Hupdate : forall c id s t,
               Hoare (holds (seoManagers w)) (findByIdAndUpdate c id s t)
                     (fun _ => sound) sound).
    { intros c id s t. eapply hoare_weaken;
        [apply (hoare_findByIdAndUpdate (seoManagers w))|auto| |];
        intros; now apply (holds_sound (seoManagers w)). }
    intros [entry|].
    + destruct (negb (isAutoManaged entry) || (linkedType entry =? "independent")).
      * intros w' Hw'. cbn. now apply (holds_sound (seoManagers w)).
      * destruct (linkedService entry); [apply Hupdate|].
        destruct (linkedHirePage entry); [apply Hupdate|].
        intros w' Hw'. cbn. now apply (holds_sound (seoManagers w)).
    + intros w' Hw'. cbn. now apply (holds_sound (seoManagers w)).
  - intros subCategory newSlug newTitle type id Hother w'.
    assert (Hw' : sound w') by (apply Hrun; now apply syncSeoData_sound).
    split; [exact Hw'|].
    intros d Hin Hauto. specialize (Hw' d Hin). unfold invariant in Hw'.
    rewrite Hauto in Hw'.
    destruct (contentType (linkedType d)), (exactlyOneLink d); cbn in Hw'; congruence.
Qed.

Lemma synchronizer_keeps_invariant_witness :
  sound (snd (syncSeoData (Some "React Dev") "react-dev" None "service" (Some 3)
                (quiet [independentPage 7 "react-dev"; servicePage 8 "node" 4] 9)))
  /\ sound (snd (safeDeleteSeoData "react-dev"
                   (quiet [independentPage 7 "react-dev"; servicePage 8 "node" 4] 9))).
Proof.
  assert (Hs : sound (quiet [independentPage 7 "react-dev"; servicePage 8 "node" 4] 9)).
  { intros d [<-|[<-|[]]]; reflexivity. }
  split.
  - apply (proj2 (proj2 (proj2 (synchronizer_keeps_invariant _ Hs)))
             (Some "React Dev") "react-dev" None "service" 3).
    intros d f [<-|[<-|[]]] Hf [Hd|Hd]; vm_compute in Hf;
      injection Hf as <-; try reflexivity; discriminate.
  - apply (proj1 (synchronizer_keeps_invariant _ Hs)).
Defined.

(** ** Claiming an independent record *)

Module ClaimFacts.

Import SeoFacts SeoSync.

Lemma find_by_link_none (docs : list SeoManager) (id : ObjectId) :
  (forall d, In d docs -> linkedService d <> Some id) ->
  find (matches (ByLink linkedServiceField id)) docs = None.
Proof.
  intros H. destruct (find _ docs) as [d|] eqn:E; [|reflexivity].
  apply find_some in E. destruct E as [Hin Hm]. cbn in Hm.
  unfold opt_eqb in Hm. destruct (linkedService d) as [x|] eqn:L; [|discriminate].
  apply Nat.eqb_eq in Hm. subst x. now apply H in Hin.
Qed.

Lemma find_by_slug_unique (docs : list SeoManager) (doc : SeoManager) :
  In doc docs ->
  (forall d, In d docs -> slug d = slug doc -> d = doc) ->
  find (matches (BySlug (slug doc))) docs = Some doc.
Proof.
  intros Hin Huniq.
  destruct (find (matches (BySlug (slug doc))) docs) as [d|] eqn:E.
  - apply find_some in E. destruct E as [Hd Hm]. cbn in Hm.
    apply String.eqb_eq in Hm. f_equal. now apply Huniq.
  - exfalso. apply (find_none _ _ E) in Hin. cbn in Hin.
    now rewrite String.eqb_refl in Hin.
Qed.

Lemma slugTaken_unique (docs : list SeoManager) (doc doc' : SeoManager) :
  (forall d, In d docs -> slug d = slug doc -> d = doc) ->
  _id doc' = _id doc -> slug doc' = slug doc ->
  slugTaken doc' docs = false.
Proof.
  intros Huniq Hid Hslug. unfold slugTaken.
  destruct (existsb _ docs) eqn:E; [|reflexivity].
  apply existsb_exists in E. destruct E as [d [Hin Hd]].
  apply andb_true_iff in Hd. destruct Hd as [Hne Heq].
  apply String.eqb_eq in Heq. rewrite Hslug in Heq.
  apply (Huniq d Hin) in Heq. subst d.
  rewrite Hid, Nat.eqb_refl in Hne. discriminate.
Qed.

(** After the write, the record stored under the slug is the one
    written. *)
Lemma find_replaced (docs : list SeoManager) (doc doc' : SeoManager) :
  In doc docs ->
  (forall d, In d docs -> slug d = slug doc -> d = doc) ->
  _id doc' = _id doc -> slug doc' = slug doc ->
  find (matches (BySlug (slug doc))) (replaceDoc doc' docs) = Some doc'.
Proof.
  intros Hin Huniq Hid Hslug.
  induction docs as [|d docs IH]; [contradiction|].
  cbn [replaceDoc map find].
  destruct (Nat.eqb (_id d) (_id doc')) eqn:Eid.
  - cbn. now rewrite Hslug, String.eqb_refl.
  - cbn [matches]. destruct (String.eqb_spec (slug d) (slug doc)) as [Es|Es].
    + apply (Huniq d (or_introl eq_refl)) in Es. subst d.
      rewrite Hid, Nat.eqb_refl in Eid. discriminate.
    + destruct Hin as [->|Hin]; [congruence|].
      apply IH; [exact Hin|]. intros d0 Hd0. apply Huniq. now right.
Qed.

End ClaimFacts.

Import ClaimFacts.

(** ** Linking a record that is linked already *)

Module RelinkFacts.

Lemma find_by_field_none (docs : list SeoManager) (f : LinkField) (id : ObjectId) :
  (forall d, In d docs -> linkOf f d <> Some id) ->
  find (matches (ByLink f id)) docs = None.
Proof.
  intros H. destruct (find _ docs) as [d|] eqn:E; [|reflexivity].
  apply find_some in E. destruct E as [Hin Hm]. cbn in Hm.
  unfold opt_eqb in Hm. destruct (linkOf f d) as [x|] eqn:L; [|discriminate].
  apply Nat.eqb_eq in Hm. subst x. now apply H in Hin.
Qed.

Lemma in_replaceDoc (docs : list SeoManager) (doc doc' : SeoManager) :
  In doc docs -> _id doc' = _id doc -> In doc' (replaceDoc doc' docs).
Proof.
  intros Hin Hid. unfold replaceDoc. apply in_map_iff. exists doc.
  split; [|exact Hin]. now rewrite Hid, Nat.eqb_refl.
Qed.

End RelinkFacts.
Import RelinkFacts.

(** C1. [syncSeoData] does not keep the invariant of the records.  Let
    every stored record have the invariant, let the record stored under
    a slug be auto-managed and linked through the other link field (the
    record of a hire page, when a service is created under the slug of
    that page), and let no record be linked to the id yet.  The call
    finds the record by its slug, takes Case 2, sets the link field of
    its type and leaves the other link as it is: the record it writes and
    returns is auto-managed with both [linkedService] and
    [linkedHirePage] set, and the store has lost the invariant. *)
Theorem relinking_keeps_other_link (w : World) (page : SeoManager)
    (type : string) (f : LinkField) (other id : ObjectId)
    (subCategory newTitle : option string) :
  faults w = [] ->
  sound w ->
  lookup linkFieldMap type = Own f ->
  In page (seoManagers w) ->
  isAutoManaged page = true ->
  linkOf (otherField f) page = Some other ->
  slug page <> "" ->
  (forall d, In d (seoManagers w) -> slug d = slug page -> d = page) ->
  (forall d, In d (seoManagers w) -> linkOf f d <> Some id) ->
  nonEmpty (if nonEmpty subCategory then subCategory else newTitle) = true ->
  exists doc' w1,
    syncSeoData subCategory (slug page) newTitle type (Some id) w = (Returned doc', w1)
    /\ seoManagers w1 = replaceDoc doc' (seoManagers w)
    /\ In doc' (seoManagers w1)
    /\ isAutoManaged doc' = true
    /\ linkedType doc' = type
    /\ linkOf f doc' = Some id
    /\ linkOf (otherField f) doc' = Some other
    /\ exactlyOneLink doc' = false
    /\ invariant doc' = false
    /\ ~ sound w1.
Proof.
  intros Hf _ Htype Hin Hauto Hother Hslug Huniq Hlink Htitle.
  destruct w as [docs svcs hps next sq fs calls errs]. cbn in Hf, Hin, Huniq, Hlink.
  subst fs.
  set (seoTitle := if nonEmpty subCategory then subCategory else newTitle) in *.
  set (doc' := updated (Own f) seoTitle (slug page) type (Some id) page).
  assert (Hid : _id doc' = _id page) by (destruct f; reflexivity).
  assert (Hs : slug doc' = slug page) by (destruct f; reflexivity).
  assert (Hval : validate doc' = None).
  { destruct (linkFieldMap_own type f Htype) as [[-> ->]|[-> ->]];
      unfold validate; cbn; rewrite Htitle; cbn;
      destruct (String.eqb_spec (slug page) ""); try contradiction; reflexivity. }
  assert (Hbad : invariant doc' = false /\ exactlyOneLink doc' = false).
  { destruct (linkFieldMap_own type f Htype) as [[-> ->]|[-> ->]];
      cbn in Hother; unfold invariant, exactlyOneLink; cbn; rewrite Hother;
      split; reflexivity. }
  unfold syncSeoData, try_catch, bind. rewrite Htype. cbv zeta. fold seoTitle.
  unfold findOne, storeCall. cbn [faults withCall linkFilter seoManagers].
  rewrite (find_by_field_none docs f id Hlink).
  cbn [faults withCall seoManagers].
  rewrite (find_by_slug_unique docs page Hin Huniq).
  rewrite Hauto. cbn [negb andb orb].
  fold doc'. unfold save. rewrite Hval.
  unfold storeCall. cbn [faults withCall seoManagers].
  rewrite (slugTaken_unique docs page doc' Huniq Hid Hs).
  exists doc'. eexists. split; [reflexivity|].
  cbn [seoManagers withSeoManagers].
  assert (Hin' : In doc' (replaceDoc doc' docs)) by (now apply (in_replaceDoc docs page)).
  split; [reflexivity|]. split; [exact Hin'|].
  split; [destruct f; reflexivity|].
  split; [destruct f; reflexivity|].
  split; [destruct f; reflexivity|].
  split; [destruct f; exact Hother|].
  split; [apply Hbad|]. split; [apply Hbad|].
  intros Hsound. specialize (Hsound doc' Hin'). destruct Hbad as [Hbad _]. congruence.
Qed.

Lemma relinking_keeps_other_link_witness :
  exists doc' w1,
    syncSeoData (Some "React Dev") (slug (hirePageRecord 8 "react-dev" 5)) (Some "React")
                "service" (Some 3) (quiet [hirePageRecord 8 "react-dev" 5] 9)
    = (Returned doc', w1)
    /\ seoManagers w1
       = replaceDoc doc' (seoManagers (quiet [hirePageRecord 8 "react-dev" 5] 9))
    /\ In doc' (seoManagers w1)
    /\ isAutoManaged doc' = true
    /\ linkedType doc' = "service"
    /\ linkOf linkedServiceField doc' = Some 3
    /\ linkOf (otherField linkedServiceField) doc' = Some 5
    /\ exactlyOneLink doc' = false
    /\ invariant doc' = false
    /\ ~ sound w1.
Proof.
  apply (relinking_keeps_other_link (quiet [hirePageRecord 8 "react-dev" 5] 9)
           (hirePageRecord 8 "react-dev" 5) "service" linkedServiceField 5 3
           (Some "React Dev") (Some "React")).
  - reflexivity.
  - intros d [<-|[]]. reflexivity.
  - reflexivity.
  - left. reflexivity.
  - reflexivity.
  - reflexivity.
  - discriminate.
  - intros d [<-|[]] _. reflexivity.
  - intros d [<-|[]]. discriminate.
  - reflexivity.
Defined.

(** ** Claiming an independent record, continued *)

(** C8, as the claim has it, fails when some record is already linked to
    the id: the lookup by link comes first and finds that record, giving
    it the slug collides with the independent record, the call throws,
    the independent record stays as it was, and the safe delete that
    follows deletes it and returns [true].  It also fails when neither
    [subCategory] nor [title] is given: the validators turn the write
    down. *)
Lemma claim_counterexample :
  let w := quiet [servicePage 8 "old-slug" 3; independentPage 7 "react-dev"] 9 in
  let w1 := snd (syncSeoData (Some "React Dev") "react-dev" None "service" (Some 3) w) in
  independent (independentPage 7 "react-dev") = true
  /\ fst (syncSeoData (Some "React Dev") "react-dev" None "service" (Some 3) w)
     = Thrown (DuplicateKey "react-dev")
  /\ seoManagers w1 = seoManagers w
  /\ fst (safeDeleteSeoData "react-dev" w1) = Returned true
  /\ seoManagers (snd (safeDeleteSeoData "react-dev" w1)) = [servicePage 8 "old-slug" 3]
  /\ fst (syncSeoData None "react-dev" None "service" (Some 3)
            (quiet [independentPage 7 "react-dev"] 9))
     = Thrown (ValidationError "title").
Proof. repeat split. Qed.

(** C8, amended. Let an Independent record (not auto-managed, of type
    ['independent']) be the one stored under a non-empty slug, let no
    stored record be linked to the id by [linkedService], let
    [subCategory] or else [title] be a non-empty string, and let the
    database calls succeed.  Then [syncSeoData] with that slug, type
    ['service'] and the id returns the record turned AutoManaged, with
    [linkedService] the id and [linkedType] ['service'], and stores it
    in place; and [safeDeleteSeoData] on the slug then returns [false]
    and deletes nothing. *)
Theorem claim_then_blocked (w : World) (doc : SeoManager)
    (subCategory newTitle : option string) (id : ObjectId) :
  faults w = [] ->
  In doc (seoManagers w) ->
  independent doc = true ->
  slug doc <> "" ->
  (forall d, In d (seoManagers w) -> slug d = slug doc -> d = doc) ->
  (forall d, In d (seoManagers w) -> linkedService d <> Some id) ->
  nonEmpty (if nonEmpty subCategory then subCategory else newTitle) = true ->
  exists doc' w1 w2,
    syncSeoData subCategory (slug doc) newTitle "service" (Some id) w
    = (Returned doc', w1)
    /\ _id doc' = _id doc
    /\ slug doc' = slug doc
    /\ isAutoManaged doc' = true
    /\ linkedService doc' = Some id
    /\ linkedType doc' = "service"
    /\ seoManagers w1 = replaceDoc doc' (seoManagers w)
    /\ find (matches (BySlug (slug doc))) (seoManagers w1) = Some doc'
    /\ safeDeleteSeoData (slug doc) w1 = (Returned false, w2)
    /\ seoManagers w2 = seoManagers w1.
Proof.
  intros Hf Hin Hind Hslug Huniq Hlink Htitle.
  destruct w as [docs svcs hps next sq fs calls errs]. cbn in Hf, Hin, Huniq, Hlink.
  subst fs.
  set (seoTitle := if nonEmpty subCategory then subCategory else newTitle) in *.
  set (doc' := converted (Own linkedServiceField) seoTitle (slug doc) "service"
                         (Some id) doc).
  assert (Hval : validate doc' = None).
  { unfold validate. cbn. rewrite Htitle. cbn.
    destruct (String.eqb_spec (slug doc) ""); [contradiction|reflexivity]. }
  unfold syncSeoData, try_catch, bind.
  change (lookup linkFieldMap "service") with (Own linkedServiceField).
  cbv zeta. fold seoTitle.
  unfold findOne, storeCall. cbn [faults withCall linkFilter seoManagers].
  rewrite (find_by_link_none docs id Hlink).
  cbn [faults withCall seoManagers].
  rewrite (find_by_slug_unique docs doc Hin Huniq).
  unfold independent in Hind. rewrite Hind.
  fold doc'. unfold save. rewrite Hval.
  unfold storeCall. cbn [faults withCall seoManagers].
  rewrite (slugTaken_unique docs doc doc' Huniq eq_refl eq_refl).
  assert (Hfound : find (matches (BySlug (slug doc))) (replaceDoc doc' docs) = Some doc')
    by (now apply find_replaced).
  exists doc'. eexists. eexists.
  split; [reflexivity|].
  do 6 (split; [reflexivity|]).
  split; [exact Hfound|].
  unfold safeDeleteSeoData, try_catch, bind, findOne, storeCall.
  cbn [faults withCall withSeoManagers seoManagers].
  rewrite Hfound. cbn. split; reflexivity.
Qed.

Lemma claim_then_blocked_witness :
  exists doc' w1 w2,
    syncSeoData (Some "React Dev") (slug (independentPage 7 "react-dev")) None
                "service" (Some 3) (quiet [independentPage 7 "react-dev"] 9)
    = (Returned doc', w1)
    /\ _id doc' = _id (independentPage 7 "react-dev")
    /\ slug doc' = slug (independentPage 7 "react-dev")
    /\ isAutoManaged doc' = true
    /\ linkedService doc' = Some 3
    /\ linkedType doc' = "service"
    /\ seoManagers w1
       = replaceDoc doc' (seoManagers (quiet [independentPage 7 "react-dev"] 9))
    /\ find (matches (BySlug (slug (independentPage 7 "react-dev")))) (seoManagers w1)
       = Some doc'
    /\ safeDeleteSeoData (slug (independentPage 7 "react-dev")) w1 = (Returned false, w2)
    /\ seoManagers w2 = seoManagers w1.
Proof.
  apply (claim_then_blocked (quiet [independentPage 7 "react-dev"] 9)
           (independentPage 7 "react-dev") (Some "React Dev") None 3).
  - reflexivity.
  - left. reflexivity.
  - reflexivity.
  - discriminate.
  - intros d [<-|[]] _. reflexivity.
  - intros d [<-|[]]. discriminate.
  - reflexivity.
Defined.

(** ** A type that is neither ['service'] nor ['hire'] *)

Module TypeFacts.

(** The validators turn down a document whose [linkedType] is outside
    the enum, so nothing is written. *)
Lemma save_outside_enum (doc : SeoManager) (w : World) :
  mem (linkedType doc) linkedTypeEnum = false ->
  exists e, save doc w = (Thrown e, w).
Proof.
  intros H. unfold save, validate. rewrite H.
  destruct (negb (nonEmpty (title doc))); [eexists; reflexivity|].
  destruct (slug doc =? ""); eexists; reflexivity.
Qed.

Lemma saveNew_outside_enum (doc : SeoManager) (w : World) :
  mem (linkedType doc) linkedTypeEnum = false ->
  exists e, saveNew doc w = (Thrown e, w).
Proof.
  intros H. unfold saveNew, validate. rewrite H.
  destruct (negb (nonEmpty (title doc))); [eexists; reflexivity|].
  destruct (slug doc =? ""); eexists; reflexivity.
Qed.

(** With a type other than ['service'] and ['hire'], [syncSeoData]
    leaves the records as they are, whatever the type is. *)
Lemma syncSeoData_other_type (docs : list SeoManager) (subCategory : option string)
    (newSlug : string) (newTitle : option string) (type : string)
    (linkedId : option ObjectId) :
  type <> "service" -> type <> "hire" ->
  Hoare (holds docs)
        (syncSeoData subCategory newSlug newTitle type linkedId)
        (fun _ w => holds docs w) (holds docs).
Proof.
  intros Hs Hh. unfold syncSeoData.
  apply hoare_try_catch with (E' := holds docs); [|intros e w Hw; exact Hw].
  cbv zeta.
  set (seoTitle := if nonEmpty subCategory then subCategory else newTitle).
  destruct (lookup linkFieldMap type) as [f| |] eqn:L.
  - destruct (linkFieldMap_own type f L) as [[-> _]|[-> _]]; congruence.
  - assert (Henum := linkFieldMap_inherited type L).
    apply hoare_bind with (R := fun _ w => holds docs w).
    { destruct linkedId as [id|].
      - eapply hoare_weaken; [apply (hoare_findOne docs)|auto| |auto].
        intros r w [Hw _]. exact Hw.
      - intros w Hw. exact Hw. }
    intros byId.
    apply hoare_bind with (R := fun _ w => holds docs w).
    { destruct byId as [d0|].
      - intros w Hw. exact Hw.
      - eapply hoare_weaken; [apply (hoare_findOne docs)|auto| |auto].
        intros r w [Hw _]. exact Hw. }
    intros [d|] w Hw.
    + destruct (negb (isAutoManaged d) && (linkedType d =? "independent")).
      * unfold bind.
        destruct (save_outside_enum
                    (converted Inherited seoTitle newSlug type linkedId d) w Henum)
          as [e ->].
        exact Hw.
      * destruct (isAutoManaged d || (linkedType d =? type)); [|exact Hw].
        unfold bind.
        destruct (save_outside_enum
                    (updated Inherited seoTitle newSlug type linkedId d) w Henum)
          as [e ->].
        exact Hw.
    + unfold bind at 1. unfold freshId at 1. unfold bind.
      destruct (saveNew_outside_enum
                  (created Inherited seoTitle newSlug type linkedId (nextId w))
                  (withNextId (S (nextId w)) w) Henum)
        as [e ->].
      exact Hw.
  - intros w Hw. exact Hw.
Qed.

End TypeFacts.
Import TypeFacts.

(** C9. With a type other than ['service'] and ['hire'], [syncSeoData]
    creates and modifies no record: the records are as they were,
    whatever the type and however the database calls go.  When the type
    is not one of the names every object answers to through
    [Object.prototype] (the callers pass one of the two literals, and the
    schema knows ['independent'] beside them), the call throws
    ['Invalid linkedType provided'] before the database is asked
    anything: no lookup and no write is made, and nothing but the line on
    the console has changed. *)
Theorem invalid_type_rejected (type : string) (subCategory : option string)
    (s : string) (newTitle : option string) (linkedId : option ObjectId) (w : World) :
  type <> "service" -> type <> "hire" ->
  let r := syncSeoData subCategory s newTitle type linkedId w in
  seoManagers (snd r) = seoManagers w
  /\ (mem type objectPrototypeKeys = false ->
      fst r = Thrown (Error ("Invalid linkedType provided: " ++ type))
      /\ calls (snd r) = calls w
      /\ faults (snd r) = faults w
      /\ snd r = withConsoleError "Error syncing SEO data:" w).
Proof.
  intros Hs Hh r. split.
  - assert (H := syncSeoData_other_type (seoManagers w) subCategory s newTitle type
                   linkedId Hs Hh w eq_refl).
    subst r. destruct (syncSeoData subCategory s newTitle type linkedId w) as [[a|e] w'];
      exact H.
  - intros Hp. subst r. unfold syncSeoData.
    rewrite (linkFieldMap_missing type Hs Hh Hp). repeat split.
Qed.

Lemma invalid_type_rejected_witness :
  let w := quiet [independentPage 7 "about-us"] 9 in
  let r := syncSeoData (Some "About us") "about-us" None "independent" (Some 3) w in
  seoManagers (snd r) = [independentPage 7 "about-us"]
  /\ fst r = Thrown (Error "Invalid linkedType provided: independent")
  /\ calls (snd r) = [].
Proof.
  cbv zeta.
  destruct (invalid_type_rejected "independent" (Some "About us") "about-us" None (Some 3)
              (quiet [independentPage 7 "about-us"] 9))
    as (H0 & H); try discriminate.
  destruct (H eq_refl) as (H1 & H2 & _).
  split; [exact H0|]. split; [exact H1|exact H2].
Defined.

(** Outside what a caller passes: a type that [linkFieldMap] does not
    have but inherits from [Object.prototype], such as ['constructor'].
    [linkFieldMap[type]] is a function, so the test [!linkField] lets it
    pass.  Both lookups are made, and what is thrown is the validation
    error of the write.  The records stay as they were here too. *)
Example inherited_type_passes_guard :
  let w := quiet [independentPage 7 "react-dev"] 9 in
  let r := syncSeoData (Some "React Dev") "react-dev" None "constructor" (Some 3) w in
  lookup linkFieldMap "constructor" = Inherited
  /\ fst r = Thrown (ValidationError "linkedType")
  /\ calls (snd r) = [FindOne ByUnknownPath; FindOne (BySlug "react-dev")]
  /\ seoManagers (snd r) = seoManagers w.
Proof. repeat split. Qed.


(** ** Failures of the database, at any call *)

Module FailureFacts.

Lemma propagates_quiet {A : Type} (c : M World A) :
  (forall w, faults (snd (c w)) = faults w
             /\ consoleErrors (snd (c w)) = consoleErrors w) ->
  propagates c.
Proof.
  intros H w. destruct (H w) as [Hf Hc]. split; [exact Hc|].
  exists []. rewrite Hf. split; [reflexivity|]. intros m [].
Qed.

Lemma propagates_ret {A : Type} (a : A) : propagates (ret (S := World) a).
Proof. apply propagates_quiet. intros w. split; reflexivity. Qed.

Lemma propagates_throw {A : Type} (e : Exn) : propagates (throw (S := World) (A := A) e).
Proof. apply propagates_quiet. intros w. split; reflexivity. Qed.


Lemma propagates_storeCall {A : Type} (c : Call) (run : M World A) :
  propagates run -> propagates (storeCall c run).
Proof.
  intros Hrun w. unfold storeCall.
  destruct (faults w) as [|[message|] rest] eqn:Ef.
  - destruct (Hrun (withCall c w)) as [Hcon [used [Hused Hfail]]].
    split; [exact Hcon|]. exists used. cbn [withCall faults] in Hused.
    rewrite Ef in Hused. split; [exact Hused|exact Hfail].
  - cbn [fst snd]. split; [reflexivity|]. exists [Some message]. split; [reflexivity|].
    intros m [H|[]]. now injection H as <-.
  - destruct (Hrun (withFaults rest (withCall c w))) as [Hcon [used [Hused Hfail]]].
    split; [exact Hcon|]. exists (None :: used). cbn [withFaults faults] in Hused.
    split; [cbn; now rewrite <- Hused|].
    intros m [H|H]; [discriminate|now apply Hfail].
Qed.

Lemma propagates_findOne (f : Filter) : propagates (findOne f).
Proof.
  apply propagates_storeCall, propagates_quiet. intros w.
  destruct f; split; reflexivity.
Qed.

Lemma propagates_save (doc : SeoManager) : propagates (save doc).
Proof.
  unfold save. destruct (validate doc); [apply propagates_throw|].
  apply propagates_storeCall, propagates_quiet. intros w.
  destruct (slugTaken doc (seoManagers w)); split; reflexivity.
Qed.

Lemma propagates_saveNew (doc : SeoManager) : propagates (saveNew doc).
Proof.
  unfold saveNew. destruct (validate doc); [apply propagates_throw|].
  apply propagates_storeCall, propagates_quiet. intros w.
  destruct (slugTaken doc (seoManagers w)); split; reflexivity.
Qed.

Lemma propagates_findOneAndDelete (s : string) : propagates (findOneAndDelete s).
Proof.
  apply propagates_storeCall, propagates_quiet. intros w. split; reflexivity.
Qed.

Lemma propagates_findByIdAndUpdate (c : Collection) (id : ObjectId) (s : string)
    (sub : option string) :
  propagates (findByIdAndUpdate c id s sub).
Proof.
  apply propagates_storeCall, propagates_quiet. intros w. split; reflexivity.
Qed.

Lemma propagates_freshId : propagates freshId.
Proof. apply propagates_quiet. intros w. split; reflexivity. Qed.


Create HintDb propagate.
#[export] Hint Resolve propagates_ret propagates_throw propagates_findOne
  propagates_save propagates_saveNew propagates_findOneAndDelete
  propagates_findByIdAndUpdate propagates_freshId : propagate.











End FailureFacts.
Import FailureFacts.



(* ===================================================================== *)
(** * Further properties of the cleanups, the gateway and the synchroniser *)
(* ===================================================================== *)

Import FullCleanupFacts.

Module FullCleanupMore.

(** [deleteImagesByPath], one call unfolded. *)
Lemma deleteImagesByPath_unfold (obj : JsVal) (path : string) :
  deleteImagesByPath obj path =
  if negb (truthy obj) || (path =? "") then []
  else if includes "[]" path then
    match as_array (getNestedValue obj (arrayPathOf path)) with
    | None => []
    | Some items =>
        eachItem (fun item => deleteImagesByPath item (remainingPathOf path))
                 (remainingPathOf path) items
    end
  else handleSimplePath obj path.
Proof.
  unfold deleteImagesByPath at 1, fuelFor. simpl.
  destruct (negb (truthy obj) || (path =? "")); [reflexivity|].
  destruct (includes "[]" path); [|reflexivity].
  unfold handleArrayPath.
  destruct (as_array (getNestedValue obj (arrayPathOf path))) as [items|];
    [|reflexivity].
  erewrite forEachItem_answers; [reflexivity|].
  intros Hrem item. apply deleteImagesByPath_fuel_enough.
  now apply remainingPathOf_shorter.
Qed.

Lemma in_eachItem recur remainingPath items x :
  In x (eachItem recur remainingPath items) <->
  exists item, In item items
               /\ In x (if negb (remainingPath =? "") then recur item
                        else if is_string item then [item] else []).
Proof. unfold eachItem. apply in_flat_map. Qed.

Lemma handleSimplePath_strings (obj : JsVal) (path : string) (x : JsVal) :
  In x (handleSimplePath obj path) -> is_string x = true.
Proof.
  unfold handleSimplePath.
  destruct (getNestedValue obj path) as [v| |p].
  - destruct v; cbn; try tauto.
    + intros [<-|[]]. reflexivity.
    + intros H. apply filter_In in H. tauto.
  - cbn. tauto.
  - destruct p; cbn; tauto.
Qed.

(** Whatever full cleanup of a path hands to [deleteImage] is a string. *)
Lemma deleteImagesByPath_strings :
  forall n obj path x,
    String.length path <= n ->
    In x (deleteImagesByPath obj path) -> is_string x = true.
Proof.
  induction n as [|n IH]; intros obj path x Hlen; rewrite deleteImagesByPath_unfold.
  - destruct path; [|cbn in Hlen; lia].
    rewrite orb_true_r. cbn. tauto.
  - destruct (negb (truthy obj) || (path =? "")); [cbn; tauto|].
    destruct (includes "[]" path); [|apply handleSimplePath_strings].
    destruct (as_array _) as [items|]; [|cbn; tauto].
    intros H. apply in_eachItem in H. destruct H as [item [_ H]].
    destruct (String.eqb_spec (remainingPathOf path) "") as [E|E]; cbn [negb] in H.
    + destruct (is_string item) eqn:Hs; [|destruct H].
      destruct H as [<-|[]]. exact Hs.
    + apply (IH item (remainingPathOf path)); [|exact H].
      pose proof (remainingPathOf_shorter path E). lia.
Qed.

End FullCleanupMore.
Import FullCleanupMore.

(** X2. Whatever full cleanup hands to [deleteImage] is a string: for
    every record and every record type, each value that
    [deleteImagesByConfig] passes on has gone through one of the
    [typeof ... === 'string'] tests of [handleSimplePath] and
    [handleArrayPath]. *)
Theorem full_cleanup_hands_over_strings (record : JsVal) (modelName : string)
    (marked : list JsVal) :
  deleteImagesByConfig record modelName = Returned marked ->
  Forall (fun v => is_string v = true) marked.
Proof.
  unfold deleteImagesByConfig.
  destruct (negb (truthy record)).
  - intros H. injection H as <-. constructor.
  - destruct (pathsOf modelName) as [paths|e]; [|discriminate].
    intros H. injection H as <-. apply Forall_forall. intros x Hx.
    apply in_flat_map in Hx. destruct Hx as [path [_ Hx]].
    now apply (deleteImagesByPath_strings (String.length path) record path).
Qed.

Lemma full_cleanup_hands_over_strings_witness :
  Forall (fun v => is_string v = true)
         [JStr "https://res.cloudinary.com/its/a.png";
          JStr "https://res.cloudinary.com/its/b.png"].
Proof.
  apply (full_cleanup_hands_over_strings
           (JObj [("heroSection",
                   JObj [("image", JStr "https://res.cloudinary.com/its/a.png");
                         ("points",
                          JArr [JObj [("image", JNum 7)];
                                JObj [("image",
                                       JStr "https://res.cloudinary.com/its/b.png")]])])])
           "PortfolioContent").
  reflexivity.
Defined.

Module DifferMore.

Lemma in_walkItems recur newArray x :
  forall olds i,
    In x (walkItems recur newArray i olds) ->
    exists k item,
      nth_error olds k = Some item
      /\ truthy item && typeof_object item = true
      /\ In x (recur item (js_index newArray (i + k))).
Proof.
  induction olds as [|o rest IH]; intros i H; cbn in H; [destruct H|].
  apply in_app_or in H. destruct H as [H|H].
  - destruct (truthy o && typeof_object o) eqn:E; [|destruct H].
    exists 0, o. rewrite Nat.add_0_r. auto.
  - apply IH in H. destruct H as [k [item [Hn [Ht Hx]]]].
    exists (S k), item. rewrite Nat.add_succ_r. auto.
Qed.

Lemma in_compareImages newArray x :
  forall olds i,
    In x (compareImages newArray i olds) ->
    exists k, nth_error olds k = Some x
              /\ truthy x = true
              /\ strict_eq x (js_index newArray (i + k)) = false.
Proof.
  induction olds as [|o rest IH]; intros i H; cbn in H; [destruct H|].
  apply in_app_or in H. destruct H as [H|H].
  - destruct (truthy o && negb (strict_eq o (js_index newArray i))) eqn:E;
      [|destruct H].
    destruct H as [<-|[]]. apply andb_true_iff in E. destruct E as [Ht Hd].
    apply negb_true_iff in Hd. exists 0. rewrite Nat.add_0_r. auto.
  - apply IH in H. destruct H as [k [Hn [Ht Hd]]].
    exists (S k). rewrite Nat.add_succ_r. auto.
Qed.

Lemma compareSimplePath_within_full (oldObj newObj : JsVal) (path : string) (x : JsVal) :
  is_string x = true ->
  In x (compareSimplePath oldObj newObj path) ->
  In x (handleSimplePath oldObj path).
Proof.
  intros Hs. unfold compareSimplePath, handleSimplePath.
  destruct (getNestedValue oldObj path) as [v| |p].
  - destruct v; cbn; try tauto.
    + destruct (str_differs s (getNestedValue newObj path)); cbn; tauto.
    + intros H. apply in_compareImages in H. destruct H as [k [Hn _]].
      apply filter_In. split; [|exact Hs]. eapply nth_error_In; eauto.
  - cbn. tauto.
  - destruct p; cbn; tauto.
Qed.

(** A string that differential cleanup hands to [deleteImage] is one that
    full cleanup of the stored document hands over at the same path. *)
Lemma differential_within_full :
  forall n oldObj newObj path x,
    String.length path <= n ->
    is_string x = true ->
    In x (compareAndDeleteByPath oldObj newObj path) ->
    In x (deleteImagesByPath oldObj path).
Proof.
  induction n as [|n IH]; intros oldObj newObj path x Hlen Hs;
    rewrite compareAndDeleteByPath_unfold, deleteImagesByPath_unfold.
  - destruct path; [|cbn in Hlen; lia].
    destruct (negb (truthy oldObj)) eqn:Ht; [cbn; tauto|].
    cbn. unfold compareSimplePath, getNestedValue. rewrite Ht. cbn. tauto.
  - destruct (negb (truthy oldObj)) eqn:Ht; [cbn; tauto|]. cbn [orb].
    destruct (String.eqb_spec path "") as [->|Hp].
    { cbn. unfold compareSimplePath, getNestedValue. rewrite Ht. cbn. tauto. }
    destruct (includes "[]" path); [|now apply compareSimplePath_within_full].
    destruct (as_array (getNestedValue oldObj (arrayPathOf path))) as [olds|];
      [|tauto].
    destruct (String.eqb_spec (remainingPathOf path) "") as [E|E].
    + intros H. apply in_compareImages in H. destruct H as [k [Hn _]].
      apply in_eachItem. exists x. split; [eapply nth_error_In; eauto|].
      rewrite E. cbn. rewrite Hs. now left.
    + intros H. apply in_walkItems in H.
      destruct H as [k [item [Hn [_ Hx]]]].
      apply in_eachItem. exists item. split; [eapply nth_error_In; eauto|].
      destruct (String.eqb_spec (remainingPathOf path) ""); [contradiction|].
      cbn [negb]. pose proof (remainingPathOf_shorter path E).
      eapply IH; [|exact Hs|exact Hx]. lia.
Qed.

End DifferMore.
Import DifferMore.

(** X3. Differential cleanup stays within full cleanup: a string that
    [cleanupOldImages] marks, for a stored record and any body, is a
    string that [cleanupImages] marks for the same record. *)
Theorem differential_cleanup_within_full_cleanup
    (modelName : string) (oldData body x : JsVal) :
  is_string x = true ->
  In x (fst (cleanupOldImages modelName (Returned (Some oldData)) body)) ->
  In x (fst (cleanupImages modelName (Returned (Some oldData)))).
Proof.
  intros Hs. unfold cleanupOldImages, cleanupImages, deleteImagesByConfig.
  destruct (pathsOf modelName) as [paths|e];
    [|destruct (negb (truthy oldData)); cbn; tauto].
  cbn [fst]. intros Hx.
  apply in_flat_map in Hx. destruct Hx as [path [Hp Hx]].
  apply (differential_within_full (String.length path)) in Hx; [|lia|exact Hs].
  destruct (negb (truthy oldData)) eqn:Ht; cbn [fst].
  - rewrite deleteImagesByPath_unfold, Ht in Hx. destruct Hx.
  - apply in_flat_map. now exists path.
Qed.

Lemma differential_cleanup_within_full_cleanup_witness :
  In (JStr "old.png")
     (fst (cleanupImages "Blog"
             (Returned (Some (JObj [("image", JStr "old.png");
                                    ("cover_image", JStr "cover.png")]))))).
Proof.
  apply (differential_cleanup_within_full_cleanup "Blog"
           (JObj [("image", JStr "old.png"); ("cover_image", JStr "cover.png")])
           (JObj [("image", JStr "new.png"); ("cover_image", JStr "cover.png")])
           (JStr "old.png")).
  - reflexivity.
  - vm_compute. left. reflexivity.
Defined.

Module UnchangedFacts.

Lemma strict_eq_refl_string (x : JsVal) : is_string x = true -> strict_eq x x = true.
Proof. destruct x; try discriminate. intros _. cbn. apply String.eqb_refl. Qed.

Lemma js_index_same (olds : list JsVal) (k : nat) (item : JsVal) :
  nth_error olds k = Some item ->
  js_index (AVal (JArr olds)) (0 + k) = item.
Proof. intros H. cbn. now apply nth_error_nth. Qed.

(** An array path resolves to an array of the document, or to the empty
    [Array.prototype]. *)
Lemma as_array_cases (r : JsRef) (olds : list JsVal) :
  as_array r = Some olds -> r = AVal (JArr olds) \/ olds = [].
Proof.
  destruct r as [v| |p]; cbn; try discriminate.
  - destruct v; try discriminate. intros H. injection H as <-. now left.
  - destruct p; try discriminate. intros H. injection H as <-. now right.
Qed.

(** Compared with itself, a document gives up no string. *)
Lemma unchanged_no_string :
  forall n doc path x,
    String.length path <= n ->
    In x (compareAndDeleteByPath doc doc path) -> is_string x = false.
Proof.
  induction n as [|n IH]; intros doc path x Hlen;
    rewrite compareAndDeleteByPath_unfold.
  - destruct path; [|cbn in Hlen; lia].
    destruct (negb (truthy doc)) eqn:Ht; [cbn; tauto|].
    cbn. unfold compareSimplePath, getNestedValue. rewrite Ht. cbn. tauto.
  - destruct (negb (truthy doc)); [cbn; tauto|].
    destruct (includes "[]" path).
    + destruct (as_array (getNestedValue doc (arrayPathOf path))) as [olds|] eqn:Ha;
        [|cbn; tauto].
      apply as_array_cases in Ha. destruct Ha as [Ha| ->].
      2:{ destruct (remainingPathOf path =? ""); cbn; tauto. }
      rewrite Ha.
      destruct (String.eqb_spec (remainingPathOf path) "") as [E|E].
      * intros H. apply in_compareImages in H. destruct H as [k [Hn [_ Hd]]].
        rewrite (js_index_same olds k x Hn) in Hd.
        destruct (is_string x) eqn:Hs; [|reflexivity].
        rewrite (strict_eq_refl_string x Hs) in Hd. discriminate.
      * intros H. apply in_walkItems in H. destruct H as [k [item [Hn [_ Hx]]]].
        rewrite (js_index_same olds k item Hn) in Hx.
        pose proof (remainingPathOf_shorter path E).
        eapply IH; [|exact Hx]. lia.
    + unfold compareSimplePath.
      destruct (getNestedValue doc path) as [v| |p] eqn:Hv.
      * destruct v; cbn; try tauto.
        -- rewrite String.eqb_refl. cbn. tauto.
        -- intros H. apply in_compareImages in H. destruct H as [k [Hn [_ Hd]]].
           rewrite (js_index_same xs k x Hn) in Hd.
           destruct (is_string x) eqn:Hs; [|reflexivity].
           rewrite (strict_eq_refl_string x Hs) in Hd. discriminate.
      * cbn. tauto.
      * destruct p; cbn; tauto.
Qed.

Section Requests.

Variable cloudinary : list Event -> string -> DestroyOutcome.

(** Values that are no strings reach the remote service in no way. *)
Lemma deleteImages_no_strings (urls : list JsVal) :
  Forall (fun v => is_string v = false) urls ->
  forall trace,
    destroyed (snd (deleteImages cloudinary urls trace)) = destroyed trace.
Proof.
  induction 1 as [|v rest Hv _ IH]; intros trace; [reflexivity|].
  cbn [deleteImages]. unfold bind.
  destruct (deleteImage_not_string cloudinary v trace Hv) as [Hr Hd].
  destruct (deleteImage cloudinary v trace) as [[[]|e] trace']; cbn in Hr, Hd;
    [|discriminate].
  rewrite IH. exact Hd.
Qed.

End Requests.

End UnchangedFacts.
Import UnchangedFacts.

(** X4. An update that changes nothing deletes nothing: when the body is
    the stored document itself, differential cleanup asks the remote
    service for no deletion, for every record type and whatever the
    service answers. *)
Theorem unchanged_update_deletes_nothing
    (cloudinary : list Event -> string -> DestroyOutcome)
    (modelName : string) (doc : JsVal) (trace : list Event) :
  destroyed (snd (deleteImages cloudinary
                    (fst (cleanupOldImages modelName (Returned (Some doc)) doc))
                    trace))
  = destroyed trace.
Proof.
  apply deleteImages_no_strings. apply Forall_forall. intros x.
  unfold cleanupOldImages. destruct (pathsOf modelName) as [paths|e]; [|cbn; tauto].
  cbn [fst]. intros Hx. apply in_flat_map in Hx. destruct Hx as [path [_ Hx]].
  now apply (unchanged_no_string (String.length path) doc path).
Qed.

Module BracketFacts.

Lemma includes_cons (sep : string) (c : ascii) (s : string) :
  includes sep (String c s) = prefix sep (String c s) || includes sep s.
Proof.
  unfold includes. cbn [index].
  destruct (prefix sep (String c s)); [reflexivity|].
  destruct (index 0 sep s); reflexivity.
Qed.

Lemma includes_nil : includes "[]" "" = false.
Proof. reflexivity. Qed.

Lemma prefix_cons (a b : ascii) (s1 s2 : string) :
  prefix (String a s1) (String b s2) = Ascii.eqb a b && prefix s1 s2.
Proof.
  simpl. destruct (ascii_dec a b) as [->|Hne].
  - now rewrite Ascii.eqb_refl.
  - apply Ascii.eqb_neq in Hne. now rewrite Hne.
Qed.

Lemma prefix_nil (s : string) : prefix "" s = true.
Proof. now destruct s. Qed.

Lemma prefix_brackets (c : ascii) (s : string) :
  prefix "[]" (String c s) = Ascii.eqb c "[" && startsWithClose s.
Proof.
  rewrite prefix_cons, (Ascii.eqb_sym "[" c). f_equal.
  destruct s as [|d s]; [reflexivity|].
  rewrite prefix_cons, prefix_nil, andb_true_r. apply Ascii.eqb_sym.
Qed.

Lemma startsWithClose_snoc (cur : string) (c : ascii) :
  startsWithClose (cur ++ String c "")
  = match cur with
    | EmptyString => Ascii.eqb c "]"
    | _ => startsWithClose cur
    end.
Proof. destruct cur; reflexivity. Qed.

Lemma endsWithOpen_snoc (cur : string) (c : ascii) :
  endsWithOpen (cur ++ String c "") = Ascii.eqb c "[".
Proof.
  induction cur as [|a cur IH]; [reflexivity|].
  cbn [append endsWithOpen]. rewrite IH.
  destruct cur; reflexivity.
Qed.

Lemma includes_snoc (cur : string) (c : ascii) :
  includes "[]" (cur ++ String c "")
  = includes "[]" cur || (endsWithOpen cur && Ascii.eqb c "]").
Proof.
  induction cur as [|a cur IH].
  - cbn [append]. rewrite includes_cons, prefix_brackets. cbn.
    now rewrite andb_false_r.
  - cbn [append]. rewrite !includes_cons, !prefix_brackets, IH.
    rewrite startsWithClose_snoc.
    destruct cur as [|b cur].
    + cbn. destruct (Ascii.eqb a "["); cbn; [|reflexivity].
      now rewrite orb_false_r.
    + cbn [endsWithOpen]. rewrite orb_assoc. reflexivity.
Qed.

(** The pieces of a split at ["[]"] hold no ["[]"]. *)
Lemma split_brackets_clean :
  forall s skip cur p,
    includes "[]" cur = false ->
    (skip = 0 -> endsWithOpen cur = true -> startsWithClose s = false) ->
    (skip <> 0 -> cur = "") ->
    In p (split_from "[]" skip cur s) ->
    includes "[]" p = false.
Proof.
  induction s as [|c s IH]; intros skip cur p Hcur Hopen Hskip Hin;
    cbn [split_from] in Hin.
  - destruct Hin as [<-|[]]. exact Hcur.
  - destruct skip as [|k].
    + rewrite prefix_brackets in Hin.
      destruct (Ascii.eqb c "[" && startsWithClose s) eqn:E.
      * destruct Hin as [<-|Hin]; [exact Hcur|].
        apply (IH _ "" p) in Hin.
        -- exact Hin.
        -- reflexivity.
        -- discriminate.
        -- reflexivity.
      * apply (IH 0 (cur ++ String c "") p) in Hin.
        -- exact Hin.
        -- rewrite includes_snoc, Hcur. cbn.
           destruct (endsWithOpen cur) eqn:Eo; [|reflexivity].
           specialize (Hopen eq_refl eq_refl). cbn in Hopen. now rewrite Hopen.
        -- intros _. rewrite endsWithOpen_snoc. intros Hc.
           rewrite Hc in E. exact E.
        -- congruence.
    + rewrite (Hskip ltac:(discriminate)) in Hin.
      apply (IH k "" p) in Hin.
      * exact Hin.
      * reflexivity.
      * discriminate.
      * reflexivity.
Qed.

Lemma includes_slice1 (s : string) :
  includes "[]" s = false -> includes "[]" (slice1 s) = false.
Proof.
  destruct s as [|c s]; [auto|]. rewrite includes_cons. cbn.
  intros H. apply orb_false_iff in H. tauto.
Qed.

Lemma remainingPathOf_clean (path : string) :
  includes "[]" (remainingPathOf path) = false.
Proof.
  unfold remainingPathOf.
  destruct (nth_error (split "[]" path) 1) as [second|] eqn:E; [|reflexivity].
  destruct (second =? ""); [reflexivity|].
  apply includes_slice1. apply nth_error_In in E.
  apply (split_brackets_clean path 0 "" second); auto; discriminate.
Qed.

End BracketFacts.
Import BracketFacts.

(** X5. Only the first [[]] of a path is honoured.  For every path, what
    [compareArrayPath] and [handleArrayPath] take as the remaining path
    contains no [[]]: the call on an element of the array is a
    [compareSimplePath] (for a truthy old element), and in full cleanup a
    [handleSimplePath] (for a truthy element and a remaining path that is
    not empty). *)
Theorem only_first_bracket_honoured (path : string) :
  includes "[]" (remainingPathOf path) = false
  /\ (forall oldItem newItem,
         compareAndDeleteByPath oldItem newItem (remainingPathOf path)
         = if truthy oldItem
           then compareSimplePath oldItem newItem (remainingPathOf path)
           else [])
  /\ (forall item,
         deleteImagesByPath item (remainingPathOf path)
         = if truthy item && negb (remainingPathOf path =? "")
           then handleSimplePath item (remainingPathOf path)
           else []).
Proof.
  pose proof (remainingPathOf_clean path) as H. split; [exact H|]. split.
  - intros oldItem newItem. rewrite compareAndDeleteByPath_unfold, H.
    destruct (truthy oldItem); reflexivity.
  - intros item. rewrite deleteImagesByPath_unfold, H.
    destruct (truthy item); cbn; [|reflexivity].
    destruct (remainingPathOf path =? ""); reflexivity.
Qed.

Module PathRoundTrip.

Lemma split_char_piece (c : ascii) (k : string) :
  hasChar c k = false ->
  forall cur,
    split_from (String c "") 0 cur k = [cur ++ k]
    /\ forall s, split_from (String c "") 0 cur (k ++ String c s)
                 = (cur ++ k) :: split_from (String c "") 0 "" s.
Proof.
  induction k as [|a k IH]; intros Hk cur.
  - rewrite append_nil_r. split; [reflexivity|].
    intros s. cbn [append split_from]. rewrite prefix_char, Ascii.eqb_refl.
    reflexivity.
  - cbn in Hk. apply orb_false_iff in Hk. destruct Hk as [Hca Hk].
    destruct (IH Hk (cur ++ String a "")) as [H1 H2].
    replace (cur ++ String a k) with ((cur ++ String a "") ++ k)
      by (rewrite append_assoc; reflexivity).
    split.
    + cbn [split_from]. rewrite prefix_char, Hca. exact H1.
    + intros s. cbn [append split_from]. rewrite prefix_char, Hca. apply H2.
Qed.

Lemma split_concat (keys : list string) :
  keys <> [] ->
  Forall (fun k => hasChar "." k = false) keys ->
  split "." (String.concat "." keys) = keys.
Proof.
  intros Hne Hall. unfold split.
  induction Hall as [|k rest Hk Hrest IH]; [congruence|].
  destruct rest as [|k' rest].
  - cbn [String.concat]. now destruct (split_char_piece "." k Hk "") as [-> _].
  - change (String.concat "." (k :: k' :: rest))
      with (k ++ String "." (String.concat "." (k' :: rest))).
    destruct (split_char_piece "." k Hk "") as [_ H].
    rewrite H. cbn [append]. f_equal. apply IH. discriminate.
Qed.

Lemma reaches_fold (obj : JsVal) (keys : list string) (v : JsVal) :
  reaches obj keys v -> fold_left getKey keys (AVal obj) = AVal v.
Proof.
  induction 1 as [v|fields key keys x v Hk _ IH]; [reflexivity|].
  cbn [fold_left getKey]. rewrite Hk. exact IH.
Qed.

End PathRoundTrip.
Import PathRoundTrip.

(** X6. [getNestedValue] follows a dotted path through own properties:
    when keys, none of which contains a dot, lead from an object through
    nested objects to a value, the lookup of the keys joined by dots
    returns that value. *)
Theorem nested_value_found (obj : JsVal) (keys : list string) (v : JsVal) :
  reaches obj keys v ->
  Forall (fun k => hasChar "." k = false) keys ->
  String.concat "." keys <> "" ->
  getNestedValue obj (String.concat "." keys) = AVal v.
Proof.
  intros Hr Hall Hp.
  assert (Hne : keys <> []) by (intros ->; now apply Hp).
  unfold getNestedValue.
  destruct (String.eqb_spec (String.concat "." keys) ""); [contradiction|].
  destruct Hr as [v|fields key keys x v Hk Hr]; [congruence|].
  cbn [truthy negb orb]. rewrite split_concat by assumption.
  apply reaches_fold. now apply (reaches_down fields key keys x v).
Qed.

Lemma nested_value_found_witness :
  getNestedValue
    (JObj [("title", JStr "Home");
           ("heroSecton", JObj [("image", JStr "hero.png")])])
    "heroSecton.image"
  = AVal (JStr "hero.png").
Proof.
  apply (nested_value_found _ ["heroSecton"; "image"]).
  - eapply reaches_down; [reflexivity|].
    eapply reaches_down; [reflexivity|]. apply reaches_here.
  - repeat constructor.
  - discriminate.
Defined.

Module GatewayMore.

Lemma hasChar_app (c : ascii) (a b : string) :
  hasChar c (a ++ b) = hasChar c a || hasChar c b.
Proof.
  induction a as [|x a IH]; [reflexivity|].
  cbn. rewrite IH. now rewrite orb_assoc.
Qed.

(** Two ways of cutting a string at a character agree on what follows the
    last occurrence, and on what precedes the first. *)
Lemma cut_last_unique (c : ascii) :
  forall a b x y,
    a ++ String c x = b ++ String c y ->
    hasChar c x = false -> hasChar c y = false -> x = y.
Proof.
  induction a as [|a0 a IH]; intros b x y H Hx Hy.
  - destruct b as [|b0 b]; cbn in H.
    + congruence.
    + injection H as _ H. rewrite H, hasChar_app in Hx. cbn in Hx.
      rewrite Ascii.eqb_refl, orb_true_r in Hx. discriminate.
  - destruct b as [|b0 b]; cbn in H.
    + injection H as _ H. rewrite <- H, hasChar_app in Hy. cbn in Hy.
      rewrite Ascii.eqb_refl, orb_true_r in Hy. discriminate.
    + injection H as _ H. now apply (IH b).
Qed.

Lemma cut_first_unique (c : ascii) :
  forall a b x y,
    a ++ String c x = b ++ String c y ->
    hasChar c a = false -> hasChar c b = false -> a = b.
Proof.
  induction a as [|a0 a IH]; intros b x y H Ha Hb.
  - destruct b as [|b0 b]; [reflexivity|]. cbn in H. injection H as <- _.
    cbn in Hb. rewrite Ascii.eqb_refl in Hb. discriminate.
  - destruct b as [|b0 b]; cbn in H.
    + injection H as -> _. cbn in Ha. rewrite Ascii.eqb_refl in Ha. discriminate.
    + injection H as -> H. cbn in Ha, Hb.
      apply orb_false_iff in Ha. apply orb_false_iff in Hb.
      f_equal. apply (IH b x y); tauto.
Qed.

Lemma lastSegment_unique (s seg1 seg2 : string) :
  lastSegment s seg1 -> lastSegment s seg2 -> seg1 = seg2.
Proof.
  intros [H1 [E1|[d1 E1]]] [H2 [E2|[d2 E2]]].
  - congruence.
  - subst seg1. rewrite E2, hasChar_app in H1. cbn in H1.
    rewrite orb_true_r in H1. discriminate.
  - subst seg2. rewrite E1, hasChar_app in H2. cbn in H2.
    rewrite orb_true_r in H2. discriminate.
  - rewrite E1 in E2. now apply (cut_last_unique "/" d1 d2).
Qed.

Lemma cutAtFirstDot_unique (seg id1 id2 : string) :
  cutAtFirstDot seg id1 -> cutAtFirstDot seg id2 -> id1 = id2.
Proof.
  intros [H1 [E1|[x1 E1]]] [H2 [E2|[x2 E2]]].
  - congruence.
  - rewrite <- E1, E2, hasChar_app in H1. cbn in H1.
    rewrite orb_true_r in H1. discriminate.
  - rewrite <- E2, E1, hasChar_app in H2. cbn in H2.
    rewrite orb_true_r in H2. discriminate.
  - rewrite E1 in E2. now apply (cut_first_unique "." id1 id2 x1 x2).
Qed.

Lemma publicIdOf_shape (s : string) :
  hasChar "/" (publicIdOf s) = false /\ hasChar "." (publicIdOf s) = false.
Proof.
  unfold publicIdOf.
  destruct (split_last_segment s) as [Hseg _].
  destruct (split_cut_at_first_dot (last (split "/" s) "")) as [Hid Hcut].
  split; [|exact Hid].
  destruct Hcut as [E|[ext E]].
  - now rewrite <- E.
  - rewrite E, hasChar_app in Hseg. apply orb_false_iff in Hseg. tauto.
Qed.

Section Requests.

Variable cloudinary : list Event -> string -> DestroyOutcome.

(** One reference: the request does not depend on how the service
    settles. *)
Lemma deleteImage_request (v : JsVal) (trace : list Event) :
  destroyed (snd (deleteImage cloudinary v trace))
  = (destroyed trace ++ requestFor v)%list.
Proof.
  unfold requestFor.
  destruct (is_string v) eqn:Hs.
  - destruct v as [| | | |s| |]; try discriminate.
    destruct (String.eqb_spec s "") as [->|Hne]; [cbn; now rewrite app_nil_r|].
    rewrite !(deleteImage_string_unfold _ s _ Hne). cbv zeta.
    destruct (hd "" (split "." (last (split "/" s) "")) =? "");
      [cbn; now rewrite app_nil_r|].
    destruct (cloudinary trace _) as [result|message]; cbn [snd];
      [destruct (result =? "ok"); [|destruct (result =? "not found")]|];
      rewrite !destroyed_app; cbn; now rewrite app_nil_r.
  - rewrite (proj2 (deleteImage_not_string cloudinary v trace Hs)).
    rewrite (proj2 (deleteImage_not_string _ v [] Hs)). cbn. now rewrite app_nil_r.
Qed.

Lemma deleteImages_requests (urls : list JsVal) :
  forall trace,
    destroyed (snd (deleteImages cloudinary urls trace))
    = (destroyed trace ++ flat_map requestFor urls)%list.
Proof.
  induction urls as [|v rest IH]; intros trace; [cbn; now rewrite app_nil_r|].
  cbn [deleteImages flat_map]. unfold bind.
  pose proof (deleteImage_returns cloudinary v trace) as Hr.
  pose proof (deleteImage_request v trace) as Hd.
  destruct (deleteImage cloudinary v trace) as [[[]|e] trace'];
    cbn [fst snd] in Hr, Hd; [|discriminate].
  rewrite IH, Hd, app_assoc. reflexivity.
Qed.

End Requests.

Lemma requestFor_cases (v : JsVal) :
  requestFor v = []
  \/ exists s, v = JStr s /\ publicIdOf s <> "" /\ requestFor v = [publicIdOf s].
Proof.
  unfold requestFor.
  destruct (is_string v) eqn:Hs.
  - destruct v as [| | | |s| |]; try discriminate.
    destruct (String.eqb_spec s "") as [->|Hne]; [now left|].
    rewrite (deleteImage_string_unfold _ s _ Hne). cbv zeta. fold (publicIdOf s).
    destruct (String.eqb_spec (publicIdOf s) "") as [E|E]; [now left|].
    right. exists s. split; [reflexivity|]. split; [exact E|reflexivity].
  - left. now rewrite (proj2 (deleteImage_not_string _ v [] Hs)).
Qed.

End GatewayMore.
Import GatewayMore.

(** X7. For a reference [dir/id.ext], where [id] is not empty and has
    neither slash nor dot and [ext] has no slash, [deleteImage] asks the
    remote service for the deletion of [id], once, however the call
    settles. *)
Theorem identifier_round_trip
    (cloudinary : list Event -> string -> DestroyOutcome)
    (dir id ext : string) (trace : list Event) :
  id <> "" ->
  hasChar "/" id = false ->
  hasChar "." id = false ->
  hasChar "/" ext = false ->
  destroyed (snd (deleteImage cloudinary
                    (JStr (dir ++ String "/" (id ++ String "." ext))) trace))
  = (destroyed trace ++ [id])%list.
Proof.
  intros Hne Hslash Hdot Hext.
  set (s := dir ++ String "/" (id ++ String "." ext)).
  assert (Hseg : last (split "/" s) "" = id ++ String "." ext).
  { apply (lastSegment_unique s); [apply split_last_segment|].
    split.
    - rewrite hasChar_app. cbn. now rewrite Hslash, Hext.
    - right. now exists dir. }
  assert (Hid : publicIdOf s = id).
  { unfold publicIdOf. rewrite Hseg.
    apply (cutAtFirstDot_unique (id ++ String "." ext));
      [apply split_cut_at_first_dot|].
    split; [exact Hdot|]. right. now exists ext. }
  rewrite deleteImage_request.
  destruct (requestFor_cases (JStr s)) as [E|[s' [Es [Hp E]]]].
  - exfalso. unfold requestFor in E.
    assert (Hs : s <> "") by (unfold s; destruct dir; discriminate).
    rewrite (deleteImage_string_unfold _ s _ Hs) in E. cbv zeta in E.
    fold (publicIdOf s) in E. rewrite Hid in E.
    destruct (String.eqb_spec id ""); [contradiction|]. discriminate.
  - injection Es as <-. now rewrite E, Hid.
Qed.

Lemma identifier_round_trip_witness :
  destroyed (snd (deleteImage (fun _ _ => Rejected "timeout")
                    (JStr ("https://res.cloudinary.com/its/image/upload/v17"
                             ++ String "/" ("k3x9q" ++ String "." "webp")))
                    [Destroy "earlier"]))
  = ["earlier"; "k3x9q"].
Proof.
  apply (identifier_round_trip (fun _ _ => Rejected "timeout")
           "https://res.cloudinary.com/its/image/upload/v17" "k3x9q" "webp"
           [Destroy "earlier"]); [discriminate|reflexivity..].
Defined.

(** X8. [deleteImages] is best effort.  It returns for every list; the
    deletions it asks for are those each reference leads to on its own,
    in order, whatever became of the earlier ones; and there is at most
    one for each reference. *)
Theorem deletions_are_best_effort
    (cloudinary : list Event -> string -> DestroyOutcome)
    (urls : list JsVal) (trace : list Event) :
  fst (deleteImages cloudinary urls trace) = Returned tt
  /\ destroyed (snd (deleteImages cloudinary urls trace))
     = (destroyed trace ++ flat_map requestFor urls)%list
  /\ List.length (flat_map requestFor urls) <= List.length urls.
Proof.
  split; [apply deleteImages_returns|]. split; [apply deleteImages_requests|].
  induction urls as [|v rest IH]; [reflexivity|].
  cbn [flat_map]. rewrite length_app. cbn [List.length].
  destruct (requestFor_cases v) as [->|[s [_ [_ ->]]]]; cbn; lia.
Qed.

(** X9. An identifier whose deletion [deleteImages] asks for is not
    empty and contains neither a slash nor a dot. *)
Theorem identifiers_are_flat
    (cloudinary : list Event -> string -> DestroyOutcome)
    (urls : list JsVal) (id : string) :
  In id (destroyed (snd (deleteImages cloudinary urls []))) ->
  id <> "" /\ hasChar "/" id = false /\ hasChar "." id = false.
Proof.
  rewrite deleteImages_requests. cbn [destroyed flat_map app].
  intros H. apply in_flat_map in H. destruct H as [v [_ H]].
  destruct (requestFor_cases v) as [E|[s [_ [Hne E]]]]; rewrite E in H;
    [destruct H|].
  destruct H as [<-|[]]. split; [exact Hne|]. apply publicIdOf_shape.
Qed.

Lemma identifiers_are_flat_witness :
  "logo" <> "" /\ hasChar "/" "logo" = false /\ hasChar "." "logo" = false.
Proof.
  apply (identifiers_are_flat (fun _ _ => Resolved "ok")
           [JStr "its/brand/logo.v2.png"] "logo").
  vm_compute. left. reflexivity.
Defined.

Module SyncPureFacts.

Lemma findOne_quiet (f : Filter) (w : World) :
  faults w = [] ->
  findOne f w = (Returned (findPure (strictQuery w) f (seoManagers w)),
                 withCall (FindOne f) w).
Proof.
  intros Hf. unfold findOne, storeCall. rewrite Hf. destruct f; reflexivity.
Qed.

Lemma save_quiet (doc : SeoManager) (w : World) :
  faults w = [] ->
  fst (save doc w) = match fst (written doc (seoManagers w) (replaceDoc doc (seoManagers w))) with
                     | Returned _ => Returned tt
                     | Thrown e => Thrown e
                     end
  /\ seoManagers (snd (save doc w))
     = snd (written doc (seoManagers w) (replaceDoc doc (seoManagers w)))
  /\ faults (snd (save doc w)) = []
  /\ strictQuery (snd (save doc w)) = strictQuery w.
Proof.
  intros Hf. unfold save, written, storeCall.
  destruct (validate doc); [cbn; auto|]. rewrite Hf. cbn [seoManagers withCall].
  destruct (slugTaken doc (seoManagers w)); cbn; auto.
Qed.

Lemma saveNew_quiet (doc : SeoManager) (w : World) :
  faults w = [] ->
  fst (saveNew doc w) = match fst (written doc (seoManagers w) (seoManagers w ++ [doc])) with
                        | Returned _ => Returned tt
                        | Thrown e => Thrown e
                        end
  /\ seoManagers (snd (saveNew doc w))
     = snd (written doc (seoManagers w) (seoManagers w ++ [doc]))
  /\ faults (snd (saveNew doc w)) = []
  /\ strictQuery (snd (saveNew doc w)) = strictQuery w.
Proof.
  intros Hf. unfold saveNew, written, storeCall.
  destruct (validate doc); [cbn; auto|]. rewrite Hf. cbn [seoManagers withCall].
  destruct (slugTaken doc (seoManagers w)); cbn; auto.
Qed.

(** The handler of the operations changes nothing but the console. *)
Lemma rethrow_keeps {A : Type} (body : M World A) (line : string) (w : World) :
  let r := try_catch body (fun e => consoleError line ;; throw e) w in
  fst r = fst (body w)
  /\ seoManagers (snd r) = seoManagers (snd (body w))
  /\ faults (snd r) = faults (snd (body w))
  /\ strictQuery (snd r) = strictQuery (snd (body w))
  /\ calls (snd r) = calls (snd (body w)).
Proof.
  cbv zeta. unfold try_catch. destruct (body w) as [[a|e] w']; cbn; auto.
Qed.

(** What a [save] followed by [ret] comes to when the database answers. *)
Lemma save_ret_quiet (doc : SeoManager) (w : World) :
  faults w = [] ->
  let r := (save doc ;; ret doc) w in
  (fst r, seoManagers (snd r))
  = written doc (seoManagers w) (replaceDoc doc (seoManagers w))
  /\ faults (snd r) = [] /\ strictQuery (snd r) = strictQuery w.
Proof.
  intros Hf. cbv zeta. unfold bind, save, written, storeCall.
  destruct (validate doc); [cbn; auto|]. rewrite Hf.
  cbn [seoManagers withCall].
  destruct (slugTaken doc (seoManagers w)); cbn; auto.
Qed.

Lemma saveNew_ret_quiet (doc : SeoManager) (w : World) :
  faults w = [] ->
  let r := (saveNew doc ;; ret doc) w in
  (fst r, seoManagers (snd r))
  = written doc (seoManagers w) (seoManagers w ++ [doc])
  /\ faults (snd r) = [] /\ strictQuery (snd r) = strictQuery w.
Proof.
  intros Hf. cbv zeta. unfold bind, saveNew, written, storeCall.
  destruct (validate doc); [cbn; auto|]. rewrite Hf.
  cbn [seoManagers withCall].
  destruct (slugTaken doc (seoManagers w)); cbn; auto.
Qed.

(** With a database that answers, [syncSeoData] is [syncPure]. *)
Lemma syncSeoData_quiet (subCategory : option string) (newSlug : string)
    (newTitle : option string) (type : string) (linkedId : option ObjectId)
    (w : World) :
  faults w = [] ->
  let r := syncSeoData subCategory newSlug newTitle type linkedId w in
  (fst r, seoManagers (snd r))
  = syncPure subCategory newSlug newTitle type linkedId
             (strictQuery w) (nextId w) (seoManagers w)
  /\ faults (snd r) = []
  /\ strictQuery (snd r) = strictQuery w.
Proof.
  intros Hf. cbv zeta. unfold syncSeoData.
  match goal with
  | |- context [try_catch ?b ?h w] =>
      destruct (rethrow_keeps b "Error syncing SEO data:" w) as [H1 [H2 [H3 [H4 _]]]];
      rewrite H1, H2, H3, H4; clear H1 H2 H3 H4
  end.
  unfold syncPure. cbv zeta.
  set (seoTitle := if nonEmpty subCategory then subCategory else newTitle).
  assert (Hrest : forall lf,
             let r := (byId <- match linkedId with
                               | Some id => findOne (linkFilter lf id)
                               | None => ret None
                               end ;;
                       existingSeo <- match byId with
                                      | Some doc => ret (Some doc)
                                      | None => findOne (BySlug newSlug)
                                      end ;;
                       match existingSeo with
                       | Some doc =>
                           if negb (isAutoManaged doc) && (linkedType doc =? "independent")
                           then save (converted lf seoTitle newSlug type linkedId doc) ;;
                                ret (converted lf seoTitle newSlug type linkedId doc)
                           else if isAutoManaged doc || (linkedType doc =? type)
                           then save (updated lf seoTitle newSlug type linkedId doc) ;;
                                ret (updated lf seoTitle newSlug type linkedId doc)
                           else ret doc
                       | None =>
                           id <- freshId ;;
                           saveNew (created lf seoTitle newSlug type linkedId id) ;;
                           ret (created lf seoTitle newSlug type linkedId id)
                       end) w in
             (fst r, seoManagers (snd r))
             = match located lf linkedId newSlug (strictQuery w) (seoManagers w) with
               | Some d =>
                   if independent d
                   then written (converted lf seoTitle newSlug type linkedId d)
                          (seoManagers w)
                          (replaceDoc (converted lf seoTitle newSlug type linkedId d)
                             (seoManagers w))
                   else if isAutoManaged d || (linkedType d =? type)
                   then written (updated lf seoTitle newSlug type linkedId d)
                          (seoManagers w)
                          (replaceDoc (updated lf seoTitle newSlug type linkedId d)
                             (seoManagers w))
                   else (Returned d, seoManagers w)
               | None =>
                   written (created lf seoTitle newSlug type linkedId (nextId w))
                     (seoManagers w)
                     (seoManagers w
                        ++ [created lf seoTitle newSlug type linkedId (nextId w)])
               end
             /\ faults (snd r) = [] /\ strictQuery (snd r) = strictQuery w).
  { intros lf. cbv zeta.
    assert (Hlocate :
              forall (k : option SeoManager -> M World SeoManager),
                (byId <- match linkedId with
                         | Some id => findOne (linkFilter lf id)
                         | None => ret None
                         end ;;
                 existingSeo <- match byId with
                                | Some doc => ret (Some doc)
                                | None => findOne (BySlug newSlug)
                                end ;;
                 k existingSeo) w
                = k (located lf linkedId newSlug (strictQuery w) (seoManagers w))
                    (match linkedId with
                     | Some id =>
                         match findPure (strictQuery w) (linkFilter lf id) (seoManagers w) with
                         | Some _ => withCall (FindOne (linkFilter lf id)) w
                         | None => withCall (FindOne (BySlug newSlug))
                                     (withCall (FindOne (linkFilter lf id)) w)
                         end
                     | None => withCall (FindOne (BySlug newSlug)) w
                     end)).
    { intros k. unfold located, bind. destruct linkedId as [id|].
      - rewrite (findOne_quiet _ w Hf).
        destruct (findPure (strictQuery w) (linkFilter lf id) (seoManagers w));
          [reflexivity|].
        rewrite findOne_quiet by exact Hf. reflexivity.
      - unfold ret at 1. rewrite (findOne_quiet _ w Hf). reflexivity. }
    rewrite Hlocate.
    match goal with
    | |- context [match located ?a ?b ?c ?d ?e with _ => _ end _ ] => idtac
    end.
    set (w' := match linkedId with Some id => _ | None => _ end).
    assert (Hw' : faults w' = [] /\ strictQuery w' = strictQuery w
                  /\ seoManagers w' = seoManagers w /\ nextId w' = nextId w).
    { unfold w'. destruct linkedId as [id|];
        [destruct (findPure _ _ _)|]; cbn; auto. }
    destruct Hw' as [Hf' [Hs' [Hd' Hn']]].
    destruct (located lf linkedId newSlug (strictQuery w) (seoManagers w)) as [d|].
    - unfold independent.
      destruct (negb (isAutoManaged d) && (linkedType d =? "independent")).
      + rewrite <- Hd', <- Hs'. now apply save_ret_quiet.
      + destruct (isAutoManaged d || (linkedType d =? type)).
        * rewrite <- Hd', <- Hs'. now apply save_ret_quiet.
        * cbn. rewrite Hd'. auto.
    - unfold bind at 1. unfold freshId at 1.
      rewrite <- Hd', <- Hs', <- Hn'.
      apply (saveNew_ret_quiet _ (withNextId (S (nextId w')) w')). exact Hf'. }
  destruct (lookup linkFieldMap type) as [f| |].
  - apply Hrest.
  - apply Hrest.
  - cbn. auto.
Qed.

End SyncPureFacts.
Import SyncPureFacts.

Module IdempotenceFacts.

Lemma find_replace_found (p : SeoManager -> bool) (doc' : SeoManager) :
  p doc' = true ->
  forall docs d,
    find p docs = Some d -> _id d = _id doc' ->
    find p (replaceDoc doc' docs) = Some doc'.
Proof.
  intros Hp. induction docs as [|h docs IH]; intros d Hfind Hid; [discriminate|].
  cbn [replaceDoc map find] in *.
  destruct (Nat.eqb (_id h) (_id doc')) eqn:E; [now rewrite Hp|].
  destruct (p h) eqn:Eh.
  - injection Hfind as <-. rewrite Hid, Nat.eqb_refl in E. discriminate.
  - now apply (IH d).
Qed.

Lemma find_replace_none (p : SeoManager -> bool) (doc' : SeoManager) :
  p doc' = true ->
  forall docs d,
    find p docs = None -> In d docs -> _id d = _id doc' ->
    find p (replaceDoc doc' docs) = Some doc'.
Proof.
  intros Hp. induction docs as [|h docs IH]; intros d Hfind Hin Hid; [destruct Hin|].
  cbn [replaceDoc map find] in *.
  destruct (Nat.eqb (_id h) (_id doc')) eqn:E; [now rewrite Hp|].
  destruct (p h) eqn:Eh; [discriminate|].
  destruct Hin as [->|Hin].
  - rewrite Hid, Nat.eqb_refl in E. discriminate.
  - now apply (IH d).
Qed.

Lemma find_app_new (p : SeoManager -> bool) (doc' : SeoManager) :
  p doc' = true ->
  forall docs, find p docs = None -> find p (docs ++ [doc']) = Some doc'.
Proof.
  intros Hp. induction docs as [|h docs IH]; intros Hfind; cbn in *; [now rewrite Hp|].
  destruct (p h); [discriminate|]. now apply IH.
Qed.

Lemma replaceDoc_again (doc' : SeoManager) (docs : list SeoManager) :
  replaceDoc doc' (replaceDoc doc' docs) = replaceDoc doc' docs.
Proof.
  unfold replaceDoc. rewrite map_map. apply map_ext. intros d.
  destruct (Nat.eqb (_id d) (_id doc')) eqn:E; [now rewrite Nat.eqb_refl|].
  now rewrite E.
Qed.

Lemma replaceDoc_fresh (doc' : SeoManager) (docs : list SeoManager) :
  (forall d, In d docs -> _id d <> _id doc') ->
  replaceDoc doc' (docs ++ [doc']) = (docs ++ [doc'])%list.
Proof.
  intros Hfresh. unfold replaceDoc. rewrite map_app. cbn.
  rewrite Nat.eqb_refl. f_equal.
  rewrite <- (map_id docs) at 2. apply map_ext_in. intros d Hd.
  destruct (Nat.eqb_spec (_id d) (_id doc')); [|reflexivity].
  now apply Hfresh in Hd.
Qed.

Lemma slugTaken_replaceDoc (doc' : SeoManager) (docs : list SeoManager) :
  slugTaken doc' docs = false -> slugTaken doc' (replaceDoc doc' docs) = false.
Proof.
  unfold slugTaken, replaceDoc. intros H.
  destruct (existsb _ (map _ docs)) eqn:E; [|reflexivity].
  apply existsb_exists in E. destruct E as [x [Hx Hpx]].
  apply in_map_iff in Hx. destruct Hx as [d [Hd Hin]].
  destruct (Nat.eqb (_id d) (_id doc')) eqn:Eid; subst x.
  - rewrite Nat.eqb_refl in Hpx. discriminate.
  - assert (existsb (fun d0 => negb (Nat.eqb (_id d0) (_id doc'))
                               && (slug d0 =? slug doc')) docs = true).
    { apply existsb_exists. now exists d. }
    congruence.
Qed.

Lemma slugTaken_app (doc' : SeoManager) (docs : list SeoManager) :
  slugTaken doc' docs = false -> slugTaken doc' (docs ++ [doc']) = false.
Proof.
  unfold slugTaken. intros H. rewrite existsb_app, H. cbn.
  now rewrite Nat.eqb_refl.
Qed.

(** What [syncSeoData] has written, it would write again. *)
Lemma updated_again lf seoTitle newSlug type linkedId
    id keyphrase seoTitle' description cover service hire :
  let doc := setLink lf linkedId
               (mkSeo id seoTitle newSlug keyphrase seoTitle' description cover
                      service hire type true) in
  updated lf seoTitle newSlug type linkedId doc = doc.
Proof. destruct lf as [[|]| |]; reflexivity. Qed.

Lemma written_returned (doc : SeoManager) (docs docs' : list SeoManager)
    (r : SeoManager) (out : list SeoManager) :
  written doc docs docs' = (Returned r, out) ->
  validate doc = None /\ slugTaken doc docs = false /\ r = doc /\ out = docs'.
Proof.
  unfold written. destruct (validate doc); [discriminate|].
  destruct (slugTaken doc docs); [discriminate|].
  intros H. injection H as <- <-. auto.
Qed.

Lemma written_again (doc : SeoManager) (docs : list SeoManager) :
  validate doc = None -> slugTaken doc docs = false ->
  replaceDoc doc docs = docs ->
  written doc docs (replaceDoc doc docs) = (Returned doc, docs).
Proof.
  intros Hv Hs Hr. unfold written. now rewrite Hv, Hs, Hr.
Qed.

Lemma written_inherited (type : string) (linkedId : option ObjectId)
    (base : SeoManager) (docs docs' : list SeoManager) (r : SeoManager)
    (out : list SeoManager) :
  lookup linkFieldMap type = Inherited ->
  linkedType base = type ->
  written (setLink Inherited linkedId base) docs docs' <> (Returned r, out).
Proof.
  intros Hl Hty H. apply written_returned in H. destruct H as [Hv _].
  apply validate_type in Hv. cbn [setLink] in Hv. rewrite Hty in Hv.
  rewrite (linkFieldMap_inherited type Hl) in Hv. discriminate.
Qed.

End IdempotenceFacts.
Import IdempotenceFacts.

Module IdempotenceMain.

Lemma matches_link (f : LinkField) (id : ObjectId) (doc : SeoManager) :
  linkOf f doc = Some id -> matches (ByLink f id) doc = true.
Proof. intros H. cbn. rewrite H. cbn. apply Nat.eqb_refl. Qed.

Lemma matches_slug (doc : SeoManager) : matches (BySlug (slug doc)) doc = true.
Proof. cbn. apply String.eqb_refl. Qed.

Lemma located_after_replace f linkedId strict docs d doc' :
  located (Own f) linkedId (slug doc') strict docs = Some d ->
  _id d = _id doc' ->
  linkOf f doc' = linkedId ->
  located (Own f) linkedId (slug doc') strict (replaceDoc doc' docs) = Some doc'.
Proof.
  unfold located. intros Hloc Hid Hlink.
  destruct linkedId as [id|]; cbn [linkFilter findPure] in *.
  - destruct (find (matches (ByLink f id)) docs) as [d0|] eqn:E.
    + injection Hloc as ->.
      now rewrite (find_replace_found _ doc' (matches_link f id doc' Hlink) docs d E Hid).
    + apply find_some in Hloc as Hin. destruct Hin as [Hin _].
      now rewrite (find_replace_none _ doc' (matches_link f id doc' Hlink) docs d E Hin Hid).
  - exact (find_replace_found _ doc' (matches_slug doc') docs d Hloc Hid).
Qed.

Lemma located_after_create f linkedId strict docs doc' :
  located (Own f) linkedId (slug doc') strict docs = None ->
  linkOf f doc' = linkedId ->
  located (Own f) linkedId (slug doc') strict (docs ++ [doc']) = Some doc'.
Proof.
  unfold located. intros Hloc Hlink.
  destruct linkedId as [id|]; cbn [linkFilter findPure] in *.
  - destruct (find (matches (ByLink f id)) docs) as [d0|] eqn:E; [discriminate|].
    now rewrite (find_app_new _ doc' (matches_link f id doc' Hlink) docs E).
  - exact (find_app_new _ doc' (matches_slug doc') docs Hloc).
Qed.

(** A second run over what the first run left returns the same record
    and writes nothing new. *)
Lemma syncPure_idempotent (subCategory : option string) (newSlug : string)
    (newTitle : option string) (type : string) (linkedId : option ObjectId)
    (strict : bool) (next next' : ObjectId) (docs docs1 : list SeoManager)
    (doc : SeoManager) :
  (forall d, In d docs -> _id d <> next) ->
  syncPure subCategory newSlug newTitle type linkedId strict next docs
  = (Returned doc, docs1) ->
  syncPure subCategory newSlug newTitle type linkedId strict next' docs1
  = (Returned doc, docs1).
Proof.
  intros Hfresh. unfold syncPure. cbv zeta.
  set (seoTitle := if nonEmpty subCategory then subCategory else newTitle).
  destruct (lookup linkFieldMap type) as [f| |] eqn:L; [| |discriminate].
  - (* a schema path *)
    assert (Hsecond : forall doc',
               validate doc' = None ->
               isAutoManaged doc' = true ->
               updated (Own f) seoTitle newSlug type linkedId doc' = doc' ->
               forall docs',
                 slugTaken doc' docs' = false ->
                 replaceDoc doc' docs' = docs' ->
                 located (Own f) linkedId newSlug strict docs' = Some doc' ->
                 match located (Own f) linkedId newSlug strict docs' with
                 | Some d =>
                     if independent d
                     then written (converted (Own f) seoTitle newSlug type linkedId d)
                            docs'
                            (replaceDoc
                               (converted (Own f) seoTitle newSlug type linkedId d) docs')
                     else if isAutoManaged d || (linkedType d =? type)
                     then written (updated (Own f) seoTitle newSlug type linkedId d)
                            docs'
                            (replaceDoc (updated (Own f) seoTitle newSlug type linkedId d)
                               docs')
                     else (Returned d, docs')
                 | None =>
                     written (created (Own f) seoTitle newSlug type linkedId next')
                       docs'
                       (docs' ++ [created (Own f) seoTitle newSlug type linkedId next'])
                 end = (Returned doc', docs')).
    { intros doc' Hv Ha Hu docs' Hs Hr Hl. rewrite Hl.
      unfold independent. rewrite Ha. cbn [negb andb orb]. rewrite Hu.
      now apply written_again. }
    destruct (located (Own f) linkedId newSlug strict docs) as [d|] eqn:Hloc.
    + destruct (independent d) eqn:Hind.
      * intros H. apply written_returned in H. destruct H as [Hv [Hs [-> ->]]].
        set (doc' := converted (Own f) seoTitle newSlug type linkedId d) in *.
        apply Hsecond; auto.
        -- destruct f; reflexivity.
        -- apply updated_again.
        -- now apply slugTaken_replaceDoc.
        -- apply replaceDoc_again.
        -- assert (Hslug : slug doc' = newSlug) by (destruct f; reflexivity).
           rewrite <- Hslug in Hloc |- *.
           apply (located_after_replace f linkedId strict docs d doc'); auto;
             destruct f; reflexivity.
      * destruct (isAutoManaged d || (linkedType d =? type)) eqn:Hc.
        -- intros H. apply written_returned in H. destruct H as [Hv [Hs [-> ->]]].
           set (doc' := updated (Own f) seoTitle newSlug type linkedId d) in *.
           apply Hsecond; auto.
           ++ destruct f; reflexivity.
           ++ apply updated_again.
           ++ now apply slugTaken_replaceDoc.
           ++ apply replaceDoc_again.
           ++ assert (Hslug : slug doc' = newSlug) by (destruct f; reflexivity).
              rewrite <- Hslug in Hloc |- *.
              apply (located_after_replace f linkedId strict docs d doc'); auto;
                destruct f; reflexivity.
        -- intros H. injection H as <- <-. now rewrite Hloc, Hind, Hc.
    + intros H. apply written_returned in H. destruct H as [Hv [Hs [-> ->]]].
      set (doc' := created (Own f) seoTitle newSlug type linkedId next) in *.
      assert (Hid : _id doc' = next) by (destruct f; reflexivity).
      apply Hsecond; auto.
      * destruct f; reflexivity.
      * apply updated_again.
      * now apply slugTaken_app.
      * apply replaceDoc_fresh. intros d Hd. rewrite Hid. now apply Hfresh.
      * assert (Hslug : slug doc' = newSlug) by (destruct f; reflexivity).
        rewrite <- Hslug in Hloc |- *.
        apply (located_after_create f linkedId strict docs doc'); auto.
        destruct f; reflexivity.
  - (* a name inherited from the prototype: nothing is ever written *)
    destruct (located Inherited linkedId newSlug strict docs) as [d|] eqn:Hloc.
    + destruct (independent d) eqn:Hind.
      * intros H. now apply (written_inherited type) in H.
      * destruct (isAutoManaged d || (linkedType d =? type)) eqn:Hc.
        -- intros H. now apply (written_inherited type) in H.
        -- intros H. injection H as <- <-. now rewrite Hloc, Hind, Hc.
    + intros H. now apply (written_inherited type) in H.
Qed.

End IdempotenceMain.
Import IdempotenceMain.

(** X10. [syncSeoData] is idempotent.  When the database answers, no
    stored record has the id the next new record would get, and a call
    returns a record, then the same call made again returns the same
    record and leaves the records as the first call left them. *)
Theorem sync_twice_is_sync_once (subCategory : option string) (newSlug : string)
    (newTitle : option string) (type : string) (linkedId : option ObjectId)
    (w w1 : World) (doc : SeoManager) :
  faults w = [] ->
  (forall d, In d (seoManagers w) -> _id d <> nextId w) ->
  syncSeoData subCategory newSlug newTitle type linkedId w = (Returned doc, w1) ->
  exists w2,
    syncSeoData subCategory newSlug newTitle type linkedId w1 = (Returned doc, w2)
    /\ seoManagers w2 = seoManagers w1.
Proof.
  intros Hf Hfresh Hrun.
  destruct (syncSeoData_quiet subCategory newSlug newTitle type linkedId w Hf)
    as [H1 [Hf1 Hs1]].
  rewrite Hrun in H1, Hf1, Hs1. cbn [fst snd] in H1, Hf1, Hs1.
  symmetry in H1.
  apply (syncPure_idempotent _ _ _ _ _ _ _ (nextId w1)) in H1; [|exact Hfresh].
  destruct (syncSeoData_quiet subCategory newSlug newTitle type linkedId w1 Hf1)
    as [H2 _].
  rewrite Hs1, H1 in H2.
  destruct (syncSeoData subCategory newSlug newTitle type linkedId w1) as [r w2].
  cbn [fst snd] in H2. injection H2 as -> H2. now exists w2.
Qed.

Lemma sync_twice_is_sync_once_witness :
  exists w2,
    syncSeoData (Some "React Dev") "react-dev" None "service" (Some 3)
      (snd (syncSeoData (Some "React Dev") "react-dev" None "service" (Some 3)
              (quiet [independentPage 7 "react-dev"] 9)))
    = (Returned (mkSeo 7 (Some "React Dev") "react-dev" None (Some "React Dev") "" ""
                       (Some 3) None "service" true), w2)
    /\ seoManagers w2
       = seoManagers
           (snd (syncSeoData (Some "React Dev") "react-dev" None "service" (Some 3)
                   (quiet [independentPage 7 "react-dev"] 9))).
Proof.
  apply (sync_twice_is_sync_once (Some "React Dev") "react-dev" None "service" (Some 3)
           (quiet [independentPage 7 "react-dev"] 9)).
  - reflexivity.
  - intros d [<-|[]]. discriminate.
  - reflexivity.
Defined.

Module DeleteFacts.

Lemma removeFirst_keeps (p : SeoManager -> bool) (d : SeoManager) :
  forall docs e,
    find p docs = Some e -> In d docs -> d <> e -> In d (removeFirst p docs).
Proof.
  induction docs as [|h docs IH]; intros e Hfind Hin Hne; [destruct Hin|].
  cbn in *. destruct (p h).
  - injection Hfind as <-. destruct Hin as [->|Hin]; [congruence|exact Hin].
  - destruct Hin as [->|Hin]; [now left|right; now apply (IH e)].
Qed.

(** With unique slugs, removing the first record stored under a slug
    leaves exactly the records stored under other slugs. *)
Lemma in_removeFirst_slug (s : string) :
  forall docs,
    NoDup (map slug docs) ->
    forall d, In d (removeFirst (matches (BySlug s)) docs)
              <-> In d docs /\ slug d <> s.
Proof.
  induction docs as [|h docs IH]; intros Hnd d; [cbn; tauto|].
  cbn [map] in Hnd. apply NoDup_cons_iff in Hnd. destruct Hnd as [Hh Hnd].
  cbn [removeFirst matches]. destruct (String.eqb_spec (slug h) s) as [E|E].
  - split.
    + intros Hin. split; [now right|]. intros Hd. apply Hh.
      rewrite E, <- Hd. now apply in_map.
    + intros [[->|Hin] Hd]; [contradiction|exact Hin].
  - cbn [In]. rewrite (IH Hnd). split.
    + intros [->|[Hin Hd]]; auto.
    + intros [[->|Hin] Hd]; auto.
Qed.

End DeleteFacts.
Import DeleteFacts.

(** X11. [safeDeleteSeoData] never removes an auto-managed record:
    whatever the slug, and however the database calls go, an auto-managed
    record of the store is still in the store afterwards. *)
Theorem safe_delete_spares_auto_managed (w : World) (s : string) (d : SeoManager) :
  In d (seoManagers w) ->
  isAutoManaged d = true ->
  In d (seoManagers (snd (safeDeleteSeoData s w))).
Proof.
  intros Hin Hauto.
  destruct w as [docs svcs hps next sq fs cl errs]. cbn [seoManagers] in Hin.
  unfold safeDeleteSeoData, try_catch, bind, findOne, findOneAndDelete, storeCall.
  cbn [faults withCall withFaults seoManagers].
  assert (Hkeep : forall e,
             find (matches (BySlug s)) docs = Some e ->
             negb (isAutoManaged e) = true ->
             In d (removeFirst (matches (BySlug s)) docs)).
  { intros e Hfind He. apply (removeFirst_keeps _ d docs e Hfind Hin).
    intros ->. rewrite Hauto in He. discriminate. }
  destruct fs as [|[message|] rest]; cbn; try exact Hin;
    (destruct (find (matches (BySlug s)) docs) as [e|] eqn:Hfind; cbn;
     [|exact Hin]);
    (destruct (negb (isAutoManaged e)) eqn:He; cbn; [|exact Hin]).
  - now apply (Hkeep e).
  - destruct rest as [|[message|] rest]; cbn; try exact Hin; now apply (Hkeep e).
Qed.

Lemma safe_delete_spares_auto_managed_witness :
  In (servicePage 8 "node" 4)
     (seoManagers (snd (safeDeleteSeoData "node"
                          (quiet [independentPage 7 "node"; servicePage 8 "node" 4] 9)))).
Proof.
  apply safe_delete_spares_auto_managed.
  - right. left. reflexivity.
  - reflexivity.
Defined.

(** X12. The two ways to delete, for a stored record, when slugs are
    unique and the database answers.  [safeDeleteSeoData] on the slug of
    the record returns whether the record is not auto-managed: it leaves
    the records alone when it is, and otherwise leaves exactly the
    records under other slugs.  [forceDeleteSeoData] returns [true] and
    leaves exactly the records under other slugs in both cases. *)
Theorem delete_paths (w : World) (d : SeoManager) :
  faults w = [] ->
  NoDup (map slug (seoManagers w)) ->
  In d (seoManagers w) ->
  let safe := safeDeleteSeoData (slug d) w in
  let force := forceDeleteSeoData (slug d) w in
  fst safe = Returned (negb (isAutoManaged d))
  /\ (isAutoManaged d = true -> seoManagers (snd safe) = seoManagers w)
  /\ (isAutoManaged d = false ->
      forall x, In x (seoManagers (snd safe))
                <-> In x (seoManagers w) /\ slug x <> slug d)
  /\ fst force = Returned true
  /\ (forall x, In x (seoManagers (snd force))
                <-> In x (seoManagers w) /\ slug x <> slug d).
Proof.
  intros Hf Hnd Hin.
  destruct w as [docs svcs hps next sq fs cl errs].
  cbn [faults seoManagers] in Hf, Hnd, Hin. subst fs.
  assert (Hfind : find (matches (BySlug (slug d))) docs = Some d).
  { apply find_by_slug_unique; [exact Hin|].
    intros x Hx Hs. clear - Hnd Hin Hx Hs.
    induction docs as [|h docs IH]; [destruct Hin|].
    cbn [map] in Hnd. apply NoDup_cons_iff in Hnd. destruct Hnd as [Hh Hnd].
    destruct Hin as [->|Hin], Hx as [->|Hx]; auto.
    - exfalso. apply Hh. rewrite <- Hs. now apply in_map.
    - exfalso. apply Hh. rewrite Hs. now apply in_map. }
  cbv zeta.
  unfold safeDeleteSeoData, forceDeleteSeoData, try_catch, bind, findOne,
    findOneAndDelete, storeCall.
  cbn [faults withCall withFaults seoManagers]. rewrite Hfind.
  destruct (isAutoManaged d) eqn:Ha; cbn.
  - split; [reflexivity|]. split; [reflexivity|]. split; [discriminate|].
    split; [reflexivity|]. intros x. now apply in_removeFirst_slug.
  - split; [reflexivity|]. split; [discriminate|].
    split; [intros _ x; now apply in_removeFirst_slug|].
    split; [reflexivity|]. intros x. now apply in_removeFirst_slug.
Qed.

Lemma delete_paths_witness :
  fst (safeDeleteSeoData (slug (servicePage 8 "node" 4))
         (quiet [independentPage 7 "home"; servicePage 8 "node" 4] 9))
  = Returned (negb (isAutoManaged (servicePage 8 "node" 4)))
  /\ fst (forceDeleteSeoData (slug (servicePage 8 "node" 4))
            (quiet [independentPage 7 "home"; servicePage 8 "node" 4] 9))
     = Returned true.
Proof.
  assert (Hnd : NoDup (map slug [independentPage 7 "home"; servicePage 8 "node" 4])).
  { repeat constructor; cbn; intuition discriminate. }
  destruct (delete_paths (quiet [independentPage 7 "home"; servicePage 8 "node" 4] 9)
              (servicePage 8 "node" 4) eq_refl Hnd (or_intror (or_introl eq_refl)))
    as [H1 [_ [_ [H2 _]]]].
  split; [exact H1|exact H2].
Defined.

Module CreateFacts.

Lemma find_none_forall (p : SeoManager -> bool) (docs : list SeoManager) :
  (forall d, In d docs -> p d = false) -> find p docs = None.
Proof.
  intros H. destruct (find p docs) as [d|] eqn:E; [|reflexivity].
  apply find_some in E. destruct E as [Hin Hp]. rewrite (H d Hin) in Hp. discriminate.
Qed.

Lemma contentType_own (type : string) :
  contentType type = true ->
  (type = "service" /\ lookup linkFieldMap type = Own linkedServiceField)
  \/ (type = "hire" /\ lookup linkFieldMap type = Own linkedHirePageField).
Proof.
  unfold contentType. intros H. apply orb_true_iff in H.
  destruct H as [H|H]; apply String.eqb_eq in H; subst; auto.
Qed.

End CreateFacts.
Import CreateFacts.

(** X13. Case 3 of [syncSeoData].  When the database answers, the type
    is ['service'] or ['hire'], [subCategory] or else [title] is a
    non-empty string, the slug is not empty, and no stored record has the
    slug or is linked to the id, the call appends one record and returns
    it: it has the next id, the title as [title], [seo_title] and
    [seo_keyphrase], the description built from the title, no cover
    image, the given type, and it is auto-managed with the link field of
    the type set to the id and the other link field null. *)
Theorem sync_creates_record (subCategory : option string) (newSlug : string)
    (newTitle : option string) (type : string) (linkedId : option ObjectId)
    (f : LinkField) (w : World) :
  faults w = [] ->
  lookup linkFieldMap type = Own f ->
  nonEmpty (if nonEmpty subCategory then subCategory else newTitle) = true ->
  newSlug <> "" ->
  (forall d, In d (seoManagers w) -> slug d <> newSlug) ->
  (forall d id, In d (seoManagers w) -> linkedId = Some id -> linkOf f d <> Some id) ->
  let seoTitle := if nonEmpty subCategory then subCategory else newTitle in
  exists doc w1,
    syncSeoData subCategory newSlug newTitle type linkedId w = (Returned doc, w1)
    /\ seoManagers w1 = (seoManagers w ++ [doc])%list
    /\ _id doc = nextId w
    /\ title doc = seoTitle /\ slug doc = newSlug
    /\ seo_title doc = seoTitle /\ seo_keyphrase doc = seoTitle
    /\ meta_description doc
       = "Learn more about " ++ interpolate seoTitle
           ++ " - professional services and solutions"
    /\ cover_image doc = ""
    /\ linkedType doc = type /\ isAutoManaged doc = true
    /\ linkOf f doc = linkedId /\ linkOf (otherField f) doc = None.
Proof.
  intros Hf Hl Htitle Hslug Hnoslug Hnolink seoTitle.
  destruct (syncSeoData_quiet subCategory newSlug newTitle type linkedId w Hf)
    as [H _].
  unfold syncPure in H. cbv zeta in H. fold seoTitle in H. rewrite Hl in H.
  assert (Hloc : located (Own f) linkedId newSlug (strictQuery w) (seoManagers w) = None).
  { unfold located.
    assert (Hs : find (matches (BySlug newSlug)) (seoManagers w) = None).
    { apply find_none_forall. intros d Hd. cbn.
      apply String.eqb_neq. now apply Hnoslug. }
    destruct linkedId as [id|]; [|exact Hs].
    cbn [linkFilter findPure]. rewrite find_none_forall; [exact Hs|].
    intros d Hd. cbn. specialize (Hnolink d id Hd eq_refl).
    unfold opt_eqb. destruct (linkOf f d) as [x|]; [|reflexivity].
    apply Nat.eqb_neq. congruence. }
  rewrite Hloc in H.
  set (doc := created (Own f) seoTitle newSlug type linkedId (nextId w)) in *.
  assert (Hty : mem type linkedTypeEnum = true).
  { destruct (linkFieldMap_own type f Hl) as [[-> _]|[-> _]]; reflexivity. }
  assert (Hv : validate doc = None).
  { unfold validate.
    replace (title doc) with seoTitle by (destruct f; reflexivity).
    replace (slug doc) with newSlug by (destruct f; reflexivity).
    replace (linkedType doc) with type by (destruct f; reflexivity).
    fold seoTitle in Htitle. rewrite Htitle, Hty. cbn.
    destruct (String.eqb_spec newSlug ""); [contradiction|reflexivity]. }
  assert (Ht : slugTaken doc (seoManagers w) = false).
  { unfold slugTaken. destruct (existsb _ _) eqn:E; [|reflexivity].
    apply existsb_exists in E. destruct E as [d [Hd Hp]].
    apply andb_true_iff in Hp. destruct Hp as [_ Hp]. apply String.eqb_eq in Hp.
    exfalso. apply (Hnoslug d Hd). rewrite Hp. destruct f; reflexivity. }
  unfold written in H. rewrite Hv, Ht in H.
  destruct (syncSeoData subCategory newSlug newTitle type linkedId w) as [r w1].
  cbn [fst snd] in H. injection H as -> H.
  exists doc, w1. split; [reflexivity|]. split; [exact H|].
  destruct f; repeat split; reflexivity.
Qed.

Lemma sync_creates_record_witness :
  exists doc w1,
    syncSeoData (Some "Node Developers") "hire-node" (Some "Hire") "hire" (Some 12)
                (quiet [independentPage 7 "home"] 9)
    = (Returned doc, w1)
    /\ seoManagers w1 = [independentPage 7 "home"; doc]
    /\ seo_title doc = Some "Node Developers"
    /\ linkedHirePage doc = Some 12.
Proof.
  destruct (sync_creates_record (Some "Node Developers") "hire-node" (Some "Hire")
              "hire" (Some 12) linkedHirePageField (quiet [independentPage 7 "home"] 9))
    as (doc & w1 & H1 & H2 & _ & _ & _ & H3 & _ & _ & _ & _ & _ & H4 & _).
  - reflexivity.
  - reflexivity.
  - reflexivity.
  - discriminate.
  - intros d [<-|[]]. discriminate.
  - intros d id [<-|[]] _. discriminate.
  - exists doc, w1. repeat split; assumption.
Defined.

Module UpdateFacts.

(** The lookup by slug: one call, no record touched, and what it returns
    is the first record under the slug. *)
Lemma findOne_slug_stage (s : string) (w : World) :
  seoManagers (snd (findOne (BySlug s) w)) = seoManagers w
  /\ calls (snd (findOne (BySlug s) w)) = (calls w ++ [FindOne (BySlug s)])%list
  /\ forall r, fst (findOne (BySlug s) w) = Returned r ->
               r = find (matches (BySlug s)) (seoManagers w).
Proof.
  unfold findOne, storeCall.
  destruct (faults w) as [|[message|] rest]; cbn; repeat split;
    try discriminate; intros r H; now injection H as <-.
Qed.

Lemma findByIdAndUpdate_stage (c : Collection) (id : ObjectId) (s : string)
    (sub : option string) (w : World) :
  seoManagers (snd (findByIdAndUpdate c id s sub w)) = seoManagers w
  /\ calls (snd (findByIdAndUpdate c id s sub w))
     = (calls w ++ [FindByIdAndUpdate c id s sub])%list.
Proof.
  unfold findByIdAndUpdate, storeCall.
  destruct (faults w) as [|[message|] rest]; cbn; split; reflexivity.
Qed.

(** The handler of an operation touches neither the records nor the
    calls. *)
Lemma rethrow_stage {A : Type} (body : M World A) (line : string) (w : World) :
  seoManagers (snd (try_catch body (fun e => consoleError line ;; throw e) w))
  = seoManagers (snd (body w))
  /\ calls (snd (try_catch body (fun e => consoleError line ;; throw e) w))
     = calls (snd (body w)).
Proof.
  unfold try_catch. destruct (body w) as [[a|e] w']; split; reflexivity.
Qed.

End UpdateFacts.
Import UpdateFacts.

(** X14. [updateLinkedEntity] changes no metadata record, and the only
    update of a content collection it may ask for, however the database
    calls go, is the one of the entity that the record found under the
    slug is linked to: that record is auto-managed and not of type
    ['independent'], a service link goes before a hire-page link, the
    entity is given the new slug, and [subCategory] is written only when
    the type of the record is that of the collection. *)
Theorem update_linked_entity_scope (w : World) (seoSlug newSlug newTitle : string) :
  let w' := snd (updateLinkedEntity seoSlug newSlug newTitle w) in
  seoManagers w' = seoManagers w
  /\ forall c id s sub,
       In (FindByIdAndUpdate c id s sub) (calls w') ->
       In (FindByIdAndUpdate c id s sub) (calls w)
       \/ (s = newSlug
           /\ exists entry,
                find (matches (BySlug seoSlug)) (seoManagers w) = Some entry
                /\ isAutoManaged entry = true
                /\ linkedType entry <> "independent"
                /\ ((c = ServiceModel
                     /\ linkedService entry = Some id
                     /\ sub = if linkedType entry =? "service"
                              then Some newTitle else None)
                    \/ (c = HirePageDataModel
                        /\ linkedService entry = None
                        /\ linkedHirePage entry = Some id
                        /\ sub = if linkedType entry =? "hire"
                                 then Some newTitle else None))).
Proof.
  cbv zeta. unfold updateLinkedEntity.
  match goal with
  | |- context [try_catch ?b ?h w] =>
      destruct (rethrow_stage b "Error updating linked entity:" w) as [-> ->]
  end.
  unfold bind.
  destruct (findOne_slug_stage seoSlug w) as [Hdocs [Hcalls Hfound]].
  assert (Hold : forall c id s sub,
             In (FindByIdAndUpdate c id s sub)
                (calls w ++ [FindOne (BySlug seoSlug)]) ->
             In (FindByIdAndUpdate c id s sub) (calls w)).
  { intros c id s sub H. apply in_app_or in H.
    destruct H as [H|[H|[]]]; [exact H|discriminate]. }
  destruct (findOne (BySlug seoSlug) w) as [[r|e] w1]; cbn [fst snd] in *.
  2: { split; [exact Hdocs|]. intros c id s sub H. rewrite Hcalls in H. left. auto. }
  specialize (Hfound r eq_refl). subst r.
  destruct (find (matches (BySlug seoSlug)) (seoManagers w)) as [entry|] eqn:Hfind.
  2: { split; [exact Hdocs|]. intros c id s sub H. cbn in H. rewrite Hcalls in H.
       left. auto. }
  destruct (negb (isAutoManaged entry) || (linkedType entry =? "independent")) eqn:Hguard.
  { split; [exact Hdocs|]. intros c id s sub H. cbn in H. rewrite Hcalls in H.
    left. auto. }
  apply orb_false_iff in Hguard. destruct Hguard as [Hauto Hind].
  apply negb_false_iff in Hauto. apply String.eqb_neq in Hind.
  assert (Hstage : forall c0 id0 sub0,
             (c0 = ServiceModel /\ linkedService entry = Some id0
              /\ sub0 = (if linkedType entry =? "service" then Some newTitle else None))
             \/ (c0 = HirePageDataModel /\ linkedService entry = None
                 /\ linkedHirePage entry = Some id0
                 /\ sub0 = (if linkedType entry =? "hire" then Some newTitle else None)) ->
             seoManagers (snd (findByIdAndUpdate c0 id0 newSlug sub0 w1)) = seoManagers w
             /\ forall c id s sub,
                  In (FindByIdAndUpdate c id s sub)
                     (calls (snd (findByIdAndUpdate c0 id0 newSlug sub0 w1))) ->
                  In (FindByIdAndUpdate c id s sub) (calls w)
                  \/ (s = newSlug
                      /\ exists entry0,
                           Some entry = Some entry0
                           /\ isAutoManaged entry0 = true
                           /\ linkedType entry0 <> "independent"
                           /\ ((c = ServiceModel
                                /\ linkedService entry0 = Some id
                                /\ sub = if linkedType entry0 =? "service"
                                         then Some newTitle else None)
                               \/ (c = HirePageDataModel
                                   /\ linkedService entry0 = None
                                   /\ linkedHirePage entry0 = Some id
                                   /\ sub = if linkedType entry0 =? "hire"
                                            then Some newTitle else None)))).
  { intros c0 id0 sub0 Hwhich.
    destruct (findByIdAndUpdate_stage c0 id0 newSlug sub0 w1) as [Hd Hc].
    split; [now rewrite Hd|].
    intros c id s sub H. rewrite Hc, Hcalls in H. apply in_app_or in H.
    destruct H as [H|[H|[]]]; [left; auto|].
    injection H as <- <- <- <-. right. split; [reflexivity|].
    exists entry. auto. }
  destruct (linkedService entry) as [sid|] eqn:Hs.
  - apply Hstage. left. auto.
  - destruct (linkedHirePage entry) as [hid|] eqn:Hh.
    + apply Hstage. right. auto.
    + split; [exact Hdocs|]. intros c id s sub H. cbn in H. rewrite Hcalls in H.
      left. auto.
Qed.

Lemma update_linked_entity_scope_witness :
  ~ In (FindByIdAndUpdate ServiceModel 4 "start" (Some "Start"))
       (calls (snd (updateLinkedEntity "home" "start" "Start"
                      (quiet [independentPage 7 "home"] 9)))).
Proof.
  intros H.
  destruct (proj2 (update_linked_entity_scope (quiet [independentPage 7 "home"] 9)
                     "home" "start" "Start")
              ServiceModel 4 "start" (Some "Start") H)
    as [[]|(_ & entry & Hfind & Hauto & _)].
  injection Hfind as <-. discriminate Hauto.
Defined.
